(** * TaskFlow: the quick-entry parser and the task query pipeline

    A shallow embedding of [src/app.js]: the natural-language quick-entry
    parser [parseNLP], the filter-and-sort pipeline [getFilteredTasks], and
    the task mutations [addTask] and [reorderTasks], followed by the
    properties the specification states about them.

    Conventions of the embedding.
    - A JavaScript string is the list of its UTF-16 code units ([jsstring]).
    - A timestamp is a time value: milliseconds since the epoch, in [Z].
      The application stores timestamps as the ISO-8601 text produced by
      [toISOString]; that text and the time value determine each other, and
      [new Date(iso)] gives the time value back.  Time values are unbounded
      here, so the [RangeError] of [toISOString] beyond year 275760 is
      outside the model.
    - The local time zone is a fixed offset [tz] from UTC, and a calendar
      day is identified with its day number; the code only ever reads year,
      month and date to hand them back to the [Date] constructor, or adds
      to the date through [setDate], which normalises through the day
      number.  A zone whose offset changes (daylight saving) is outside the
      model, so a due date is described by its local calendar day and its
      local time of day, not by its distance from another instant.
    - [order] values are integers.  The one place where the code stores the
      result of arithmetic on them, the [+ 1] of [addTask], rounds as a
      Number does ([roundNumber]); the sign of the difference of two
      Numbers, which is all the sort reads, is exact.
    - Every read of the clock is an argument of the operation that reads
      it. *)

From Stdlib Require Import ZArith NArith Lia String Ascii.
From stdpp Require Import base list numbers option sorting.

Local Open Scope N_scope.

(* ================================================================= *)
(** * Strings *)

Definition char := N.
Definition jsstring := list char.

(** An ASCII literal as a JavaScript string. *)
Definition js (s : string) : jsstring := N_of_ascii <$> list_ascii_of_string s.

Definition in_range (lo hi c : char) : bool := (lo <=? c) && (c <=? hi).

(** [\d] *)
Definition isDigit (c : char) : bool := in_range 48 57 c.

(** [\w]: [A-Za-z0-9_] *)
Definition isWordChar (c : char) : bool :=
  in_range 97 122 c || in_range 65 90 c || isDigit c || (c =? 95).

(** [\s], which is also what [trim] removes: WhiteSpace and LineTerminator
    of ECMAScript. *)
Definition isSpace (c : char) : bool :=
  in_range 9 13 c || (c =? 32) || (c =? 160) || (c =? 5760)
  || in_range 8192 8202 c || (c =? 8232) || (c =? 8233) || (c =? 8239)
  || (c =? 8287) || (c =? 12288) || (c =? 65279).

(** Canonicalize of a regular expression with the [i] flag and without the
    [u] flag, on the code units that can equal the canonical form of an
    ASCII pattern character: a code unit of 128 or more never canonicalises
    to an ASCII one, so it is left alone. *)
Definition canonicalize (c : char) : char :=
  if in_range 97 122 c then c - 32 else c.

(** [String.prototype.toLowerCase] on the text matched by [(am|pm)] under
    the [i] flag, which is made of ASCII letters. *)
Definition asciiLower (c : char) : char :=
  if in_range 65 90 c then c + 32 else c.

Definition jseqb (a b : jsstring) : bool := bool_decide (a = b).

(** [String.prototype.trim] *)
Fixpoint trimStart (s : jsstring) : jsstring :=
  match s with
  | c :: s' => if isSpace c then trimStart s' else s
  | [] => []
  end.

Definition trimEnd (s : jsstring) : jsstring := reverse (trimStart (reverse s)).

Definition trim (s : jsstring) : jsstring := trimEnd (trimStart s).

(** [startsWith] *)
Fixpoint startsWith (needle s : jsstring) : bool :=
  match needle, s with
  | [], _ => true
  | n :: needle', c :: s' => (c =? n) && startsWith needle' s'
  | _ :: _, [] => false
  end.

(** [s.replace(needle, repl)] with a string pattern: the first occurrence
    of [needle] in [s] is replaced. *)
Fixpoint replaceFirst (needle repl s : jsstring) : jsstring :=
  if startsWith needle s then repl ++ drop (length needle) s
  else match s with
       | c :: s' => c :: replaceFirst needle repl s'
       | [] => []
       end.

(** [s1.includes(s2)] *)
Fixpoint includes (s needle : jsstring) : bool :=
  startsWith needle s ||
  match s with
  | _ :: s' => includes s' needle
  | [] => false
  end.

(** [parseInt] on a run of decimal digits, the only arguments it receives
    in [parseNLP] (groups matched by [\d{1,2}] and [\d{2}], or ['0']). *)
Fixpoint parseDigits (acc : Z) (s : jsstring) : Z :=
  match s with
  | c :: s' =>
      if isDigit c then parseDigits (10 * acc + (Z.of_N c - 48))%Z s' else acc
  | [] => acc
  end.

Definition parseInt (s : jsstring) : Z := parseDigits 0%Z s.

(* ================================================================= *)
(** * Regular expressions

    The fragment of ECMAScript regular expressions that [parseNLP] uses,
    with the backtracking semantics of the language: alternatives are tried
    left to right, quantifiers are greedy, and the first successful path is
    the match.  Quantifiers other than [?] only occur on character classes
    in the source, so [Rep] takes a class. *)

Inductive regex :=
| Eps
| Chr (p : char → bool)
| Seq (r1 r2 : regex)
| Alt (r1 r2 : regex)
| Opt (r : regex)
| Rep (p : char → bool) (lo : nat) (hi : option nat)
| Grp (i : nat) (r : regex)
| WordB.

Declare Scope regex_scope.
Delimit Scope regex_scope with re.
Bind Scope regex_scope with regex.
Infix "·" := Seq (at level 40, left associativity) : regex_scope.
Infix "∣" := Alt (at level 50, left associativity) : regex_scope.

Definition captures := list (nat * jsstring).

(** The state of a match in progress: the code unit before the current
    position (for [\b]), the text from the current position on, the number
    of code units consumed since the start of the match, and the groups
    captured so far. *)
Record mstate := MState {
  m_prev : option char;
  m_rest : jsstring;
  m_end : nat;
  m_caps : captures
}.

Definition is_word (o : option char) : bool :=
  match o with Some c => isWordChar c | None => false end.

(** Greedy [p{lo,hi}] followed by the continuation [k]. *)
Fixpoint rep (p : char → bool) (lo : nat) (hi : option nat)
    (k : mstate → option mstate) (caps : captures) (pos : nat)
    (prev : option char) (s : jsstring) {struct s} : option mstate :=
  let stop := match lo with
              | O => k (MState prev s pos caps)
              | S _ => None
              end in
  match s with
  | c :: s' =>
      if p c && negb (bool_decide (hi = Some O)) then
        match rep p (pred lo) (pred <$> hi) k caps (S pos) (Some c) s' with
        | Some st => Some st
        | None => stop
        end
      else stop
  | [] => stop
  end.

Fixpoint rmatch (r : regex) (k : mstate → option mstate) (st : mstate)
    : option mstate :=
  match r with
  | Eps => k st
  | Chr p =>
      match m_rest st with
      | c :: s' =>
          if p c then k (MState (Some c) s' (S (m_end st)) (m_caps st)) else None
      | [] => None
      end
  | Seq r1 r2 => rmatch r1 (rmatch r2 k) st
  | Alt r1 r2 =>
      match rmatch r1 k st with
      | Some st' => Some st'
      | None => rmatch r2 k st
      end
  | Opt r1 =>
      match rmatch r1 k st with
      | Some st' => Some st'
      | None => k st
      end
  | Rep p lo hi => rep p lo hi k (m_caps st) (m_end st) (m_prev st) (m_rest st)
  | Grp i r1 =>
      rmatch r1
        (fun st' =>
           k (MState (m_prev st') (m_rest st') (m_end st')
                ((i, take (m_end st' - m_end st)%nat (m_rest st)) :: m_caps st')))
        st
  | WordB =>
      if xorb (is_word (m_prev st)) (is_word (head (m_rest st))) then k st else None
  end.

(** One attempt at a fixed position: [prev] is the code unit before it. *)
Definition exec_at (r : regex) (prev : option char) (s : jsstring) : option mstate :=
  rmatch r Some (MState prev s O []).

(** A literal, with and without the [i] flag. *)
Definition lit (w : jsstring) : regex :=
  foldr (fun c r => Seq (Chr (N.eqb c)) r) Eps w.

Definition lit_ci (w : jsstring) : regex :=
  foldr (fun c r => Seq (Chr (fun x => canonicalize x =? canonicalize c)) r) Eps w.

(** The match array of [RegExp.prototype.exec]. *)
Record rmatch_result := MatchResult {
  index : nat;
  matched : jsstring;
  groups : captures
}.

Definition group (m : rmatch_result) (i : nat) : option jsstring :=
  snd <$> head (List.filter (fun g => Nat.eqb (fst g) i) (groups m)).

(** [s.match(re)] for a regular expression without the [g] flag: the
    leftmost position at which an attempt succeeds. *)
Fixpoint search (r : regex) (prev : option char) (idx : nat) (s : jsstring)
    : option rmatch_result :=
  match exec_at r prev s with
  | Some st => Some (MatchResult idx (take (m_end st) s) (m_caps st))
  | None =>
      match s with
      | c :: s' => search r (Some c) (S idx) s'
      | [] => None
      end
  end.

Definition re_match (r : regex) (s : jsstring) : option rmatch_result :=
  search r None O s.

(** [re.test(s)] *)
Definition test (r : regex) (s : jsstring) : bool :=
  bool_decide (is_Some (re_match r s)).

(** The pieces a regular expression with the [g] flag cuts a string into:
    the matches, left to right and not overlapping, and the code units
    between them.  [skip] counts the code units of the current match still
    to be passed over.  After an empty match the scan advances by one code
    unit, which is kept. *)
Inductive piece :=
| Lit (c : char)
| Hit (m : jsstring) (caps : captures).

Fixpoint scan (r : regex) (skip : nat) (prev : option char) (s : jsstring)
    : list piece :=
  match skip with
  | S n =>
      match s with
      | c :: s' => scan r n (Some c) s'
      | [] => []
      end
  | O =>
      match exec_at r prev s with
      | Some st =>
          Hit (take (m_end st) s) (m_caps st) ::
          match s with
          | c :: s' =>
              match m_end st with
              | O => Lit c :: scan r O (Some c) s'
              | S n => scan r n (Some c) s'
              end
          | [] => []
          end
      | None =>
          match s with
          | c :: s' => Lit c :: scan r O (Some c) s'
          | [] => []
          end
      end
  end.

(** [s.replace(re, callback)] for a regular expression with the [g] flag.
    The callbacks of [parseNLP] write to the [result] object they close
    over, so a callback is a function from that state, the matched text
    and its groups to the new state and the replacement. *)
Fixpoint replacePieces {R : Type} (cb : R → jsstring → captures → R * jsstring)
    (st : R) (ps : list piece) : R * jsstring :=
  match ps with
  | [] => (st, [])
  | Lit c :: ps' =>
      let '(st', out) := replacePieces cb st ps' in (st', c :: out)
  | Hit m caps :: ps' =>
      let '(st1, repl) := cb st m caps in
      let '(st2, out) := replacePieces cb st1 ps' in
      (st2, repl ++ out)
  end.

Definition replaceWith {R : Type} (r : regex)
    (cb : R → jsstring → captures → R * jsstring) (st : R) (s : jsstring)
    : R * jsstring :=
  replacePieces cb st (scan r O None s).

(** [s.replace(re, repl)] with the [g] flag and a replacement string free of
    [$] patterns. *)
Definition replaceAll (r : regex) (repl : jsstring) (s : jsstring) : jsstring :=
  snd (replaceWith r (fun (u : unit) _ _ => (u, repl)) tt s).

(* ================================================================= *)
(** * Dates *)

Module Date.
Section LocalTime.
Local Open Scope Z_scope.

(** Offset of local time from UTC, in milliseconds. *)
Variable tz : Z.

Definition msPerDay : Z := 86400000.
Definition msPerHour : Z := 3600000.
Definition msPerMinute : Z := 60000.
Definition msPerSecond : Z := 1000.

Definition LocalTime (t : Z) : Z := t + tz.
Definition UTC (t : Z) : Z := t - tz.

(** The day number and the time within the day of a local time value. *)
Definition Day (t : Z) : Z := t / msPerDay.
Definition TimeWithinDay (t : Z) : Z := t mod msPerDay.

(** [MakeTime(h, m, s, ms)]; out-of-range arguments carry over. *)
Definition MakeTime (h m s ms : Z) : Z :=
  h * msPerHour + m * msPerMinute + s * msPerSecond + ms.

(** [new Date(t.getFullYear(), t.getMonth(), t.getDate(), h, m)]: the
    local calendar day of [t] at the local time [h]:[m]. *)
Definition onDayOf (t : Z) (h m : Z) : Z :=
  UTC (Day (LocalTime t) * msPerDay + MakeTime h m 0 0).

(** [d = new Date(t); d.setDate(t.getDate() + n)]: [n] calendar days
    later at the same local time of day. *)
Definition addDays (t : Z) (n : Z) : Z :=
  UTC ((Day (LocalTime t) + n) * msPerDay + TimeWithinDay (LocalTime t)).

(** [d.setHours(h, m, s, ms)] *)
Definition setHours (t : Z) (h m s ms : Z) : Z :=
  UTC (Day (LocalTime t) * msPerDay + MakeTime h m s ms).

(** The local calendar day and local time of day of a time value. *)
Definition localDay (t : Z) : Z := Day (LocalTime t).
Definition localTimeOfDay (t : Z) : Z := TimeWithinDay (LocalTime t).
End LocalTime.
End Date.

(* ================================================================= *)
(** * The task model *)

Inductive Priority := high | medium | low.

Global Instance Priority_eq_dec : EqDecision Priority.
Proof. solve_decision. Defined.

(* ================================================================= *)
(** * The natural-language parser *)

Module NLP.

(** The [result] object of [parseNLP]. *)
Record result := Result {
  title : jsstring;
  dueAt : option Z;
  priority : Priority;
  tags : list jsstring
}.

Definition set_title (v : jsstring) (r : result) : result :=
  Result v (dueAt r) (priority r) (tags r).
Definition set_dueAt (v : option Z) (r : result) : result :=
  Result (title r) v (priority r) (tags r).
Definition set_priority (v : Priority) (r : result) : result :=
  Result (title r) (dueAt r) v (tags r).
Definition push_tag (v : jsstring) (r : result) : result :=
  Result (title r) (dueAt r) (priority r) (tags r ++ [v]).

Local Open Scope string_scope.

(** [/!high/gi], [/!med(ium)?/gi], [/!low/gi] *)
Definition re_high : regex := lit_ci (js "!high").
Definition re_med : regex := (lit_ci (js "!med") · Opt (Grp 1 (lit_ci (js "ium"))))%re.
Definition re_low : regex := lit_ci (js "!low").

(** [/#(\w+)/g] *)
Definition re_tag : regex := (Chr (N.eqb 35) · Grp 1 (Rep isWordChar 1 None))%re.

(** [/\btoday\b/i], [/\btomorrow\b/i], [/\bnext week\b/i]; the same
    patterns are used with the [g] flag to strip the keyword. *)
Definition re_today : regex := (WordB · lit_ci (js "today") · WordB)%re.
Definition re_tomorrow : regex := (WordB · lit_ci (js "tomorrow") · WordB)%re.
Definition re_next_week : regex := (WordB · lit_ci (js "next week") · WordB)%re.

(** [/\b(\d{1,2})(?::(\d{2}))?\s*(am|pm)\b/i] *)
Definition re_time : regex :=
  (WordB · Grp 1 (Rep isDigit 1 (Some 2%nat))
     · Opt (Chr (N.eqb 58) · Grp 2 (Rep isDigit 2 (Some 2%nat)))
     · Rep isSpace 0 None
     · Grp 3 (lit_ci (js "am") ∣ lit_ci (js "pm"))
     · WordB)%re.

(** [/\s{2,}/g] *)
Definition re_spaces : regex := Rep isSpace 2 None.

(** The callbacks [() => { result.priority = p; return ''; }] and
    [(_, tag) => { result.tags.push(tag); return ''; }]. *)
Definition markPriority (p : Priority)
    : result → jsstring → captures → result * jsstring :=
  fun r _ _ => (set_priority p r, []).

Definition pushTag : result → jsstring → captures → result * jsstring :=
  fun r m caps => (push_tag (default [] (group (MatchResult 0 m caps) 1)) r, []).

(** Priority: [!high !med !low] *)
Definition priorityStep (r : result) (text : jsstring) : result * jsstring :=
  let '(r, text) := replaceWith re_high (markPriority high) r text in
  let '(r, text) := replaceWith re_med (markPriority medium) r text in
  replaceWith re_low (markPriority low) r text.

(** Tags: [#word] *)
Definition tagStep (r : result) (text : jsstring) : result * jsstring :=
  replaceWith re_tag pushTag r text.

(** 12-hour to 24-hour conversion of the time step. *)
Definition to24 (meridiem : jsstring) (h : Z) : Z :=
  let h := if jseqb meridiem (js "pm") && negb (h =? 12)%Z then (h + 12)%Z else h in
  if jseqb meridiem (js "am") && (h =? 12)%Z then 0%Z else h.

Section Parser.
Variable tz : Z.

(** Date patterns *)
Definition dateStep (now : Z) (r : result) (text : jsstring)
    : result * jsstring :=
  let tomorrow := Date.addDays tz now 1 in
  if test re_today text then
    (set_dueAt (Some (Date.onDayOf tz now 23 59)) r, replaceAll re_today [] text)
  else if test re_tomorrow text then
    (set_dueAt (Some (Date.onDayOf tz tomorrow 9 0)) r,
     replaceAll re_tomorrow [] text)
  else if test re_next_week text then
    let nw := Date.addDays tz now 7 in
    (set_dueAt (Some nw) r, replaceAll re_next_week [] text)
  else (r, text).

(** Time: [9am], [2:30pm] *)
Definition timeStep (r : result) (text : jsstring) : result * jsstring :=
  match re_match re_time text, dueAt r with
  | Some timeMatch, Some d =>
      let h := parseInt (default [] (group timeMatch 1)) in
      let m := parseInt (default (js "0") (group timeMatch 2)) in
      let meridiem := asciiLower <$> default [] (group timeMatch 3) in
      let h := to24 meridiem h in
      (set_dueAt (Some (Date.setHours tz d h m 0 0)) r,
       replaceFirst (matched timeMatch) [] text)
  | _, _ => (r, text)
  end.

(** The title: runs of whitespace collapsed, then trimmed. *)
Definition cleanTitle (text : jsstring) : jsstring :=
  trim (replaceAll re_spaces (js " ") text).

Definition parseNLP (now : Z) (text : jsstring) : result :=
  let r := Result text None medium [] in
  let '(r, text) := priorityStep r text in
  let '(r, text) := tagStep r text in
  let '(r, text) := dateStep now r text in
  let '(r, text) := timeStep r text in
  set_title (cleanTitle text) r.
End Parser.
End NLP.

(* ================================================================= *)
(** * Tasks and the application state *)

Record Subtask := MkSubtask {
  sub_id : jsstring;
  sub_title : jsstring;
  done : bool
}.

Record Task := MkTask {
  id : jsstring;
  title : jsstring;
  description : jsstring;
  createdAt : Z;
  updatedAt : Z;
  dueAt : option Z;
  completedAt : option Z;
  priority : Priority;
  tags : list jsstring;
  subtasks : list Subtask;
  order : Z;
  starred : bool;
  reminderAt : option Z;
  metadata : list (jsstring * jsstring)
}.

Definition set_order (v : Z) (t : Task) : Task :=
  MkTask (id t) (title t) (description t) (createdAt t) (updatedAt t) (dueAt t)
    (completedAt t) (priority t) (tags t) (subtasks t) v (starred t)
    (reminderAt t) (metadata t).

Definition set_updatedAt (v : Z) (t : Task) : Task :=
  MkTask (id t) (title t) (description t) (createdAt t) v (dueAt t)
    (completedAt t) (priority t) (tags t) (subtasks t) (order t) (starred t)
    (reminderAt t) (metadata t).

(** The part of the global [state] object that the query pipeline and the
    task mutations read or write.  [filterTag] is absent from the initial
    object and is set to a tag or to [null] by the tag navigation. *)
Record State := MkState {
  tasks : list Task;
  currentView : jsstring;
  searchQuery : jsstring;
  sortBy : jsstring;
  filterPriorities : list Priority;
  filterDue : jsstring;
  filterTag : option jsstring
}.

Definition set_tasks (v : list Task) (st : State) : State :=
  MkState v (currentView st) (searchQuery st) (sortBy st) (filterPriorities st)
    (filterDue st) (filterTag st).

(** The argument of [createTask]; a field that is absent is [None]. *)
Record TaskData := MkTaskData {
  data_id : option jsstring;
  data_title : option jsstring;
  data_description : option jsstring;
  data_createdAt : option Z;
  data_dueAt : option Z;
  data_completedAt : option Z;
  data_priority : option Priority;
  data_tags : option (list jsstring);
  data_subtasks : option (list Subtask);
  data_order : option Z;
  data_starred : option bool;
  data_reminderAt : option Z;
  data_metadata : option (list (jsstring * jsstring))
}.

(** [{ ...data, order: v }] *)
Definition with_order (v : Z) (d : TaskData) : TaskData :=
  MkTaskData (data_id d) (data_title d) (data_description d) (data_createdAt d)
    (data_dueAt d) (data_completedAt d) (data_priority d) (data_tags d)
    (data_subtasks d) (Some v) (data_starred d) (data_reminderAt d)
    (data_metadata d).

(** [x || dflt] on a string: the empty string is falsy. *)
Definition or_string (x : option jsstring) (dflt : jsstring) : jsstring :=
  match x with
  | Some (c :: s) => c :: s
  | _ => dflt
  end.

(** [createTask].  The clock is read once for each of [createdAt], when
    [data] carries none, [updatedAt], and [order], when [data] carries
    none: [nowC], [nowU] and [nowO], in the order of the source.  [fresh]
    is the identifier generated, from a further read of the clock and a
    random number, when [data] carries none. *)
Definition createTask (nowC nowU nowO : Z) (fresh : jsstring) (data : TaskData)
    : Task :=
  {| id := or_string (data_id data) fresh;
     title := or_string (data_title data) [];
     description := or_string (data_description data) [];
     createdAt := default nowC (data_createdAt data);
     updatedAt := nowU;
     dueAt := data_dueAt data;
     completedAt := data_completedAt data;
     priority := default medium (data_priority data);
     tags := default [] (data_tags data);
     subtasks := default [] (data_subtasks data);
     order := default nowO (data_order data);
     starred := default false (data_starred data);
     reminderAt := data_reminderAt data;
     metadata := default [] (data_metadata data) |}.

(** [Math.max(...xs)] on a list that is not empty. *)
Definition maxOf (x : Z) (xs : list Z) : Z := foldl Z.max x xs.

(** The Number that the result of an arithmetic operation is stored as,
    when the exact result is the integer [z]: an integer that needs more
    than 53 significant bits is rounded to 53 of them, to the nearest
    Number and on a tie to the one whose last bit is 0.  (From 2^1024 on
    the result is [Infinity], which is outside the model.) *)
Definition roundNumber (z : Z) : Z :=
  let a := Z.abs z in
  let e := (Z.log2 a - 52)%Z in
  if (e <=? 0)%Z then z
  else
    let q := (a / 2 ^ e)%Z in
    let r := (a mod 2 ^ e)%Z in
    let half := (2 ^ (e - 1))%Z in
    let q' := if (half <? r)%Z || ((r =? half)%Z && Z.odd q)
              then (q + 1)%Z else q in
    (Z.sgn z * (q' * 2 ^ e))%Z.

(** [addTask]: the new task and the state after the call.  The [order]
    key is always handed to [createTask], which therefore reads the clock
    for [createdAt] and [updatedAt] only: the clock argument for [order]
    is not read, whatever stands there.  Persisting and rendering do not
    change the state. *)
Definition addTask (nowC nowU : Z) (fresh : jsstring) (data : TaskData)
    (st : State) : Task * State :=
  let task :=
    createTask nowC nowU 0 fresh
      (with_order
         (match order <$> tasks st with
          | [] => 0
          | o :: os => roundNumber (maxOf o os + 1)
          end)%Z
         data) in
  (task, set_tasks (task :: tasks st) st).

(** [reorderTasks].  [find] returns the first task with the identifier, and
    the assignments go to that object of the array, so they are written in
    the order of the source and through the array index. *)
Definition reorderTasks (now : Z) (srcId destId : jsstring) (st : State) : State :=
  match list_find (fun t => id t = srcId) (tasks st),
        list_find (fun t => id t = destId) (tasks st) with
  | Some (i, src), Some (j, dest) =>
      let tmp := order src in
      let ts := alter (set_order (order dest)) i (tasks st) in
      let ts := alter (set_order tmp) j ts in
      let ts := alter (set_updatedAt now) j ts in
      let ts := alter (set_updatedAt now) i ts in
      set_tasks ts st
  | _, _ => st
  end.

(* ================================================================= *)
(** * Filter and sort *)

(** [Array.prototype.sort] with a comparison function: the sort is stable,
    so an element moves behind a later one only when the comparison is
    positive. *)
Fixpoint insertSorted {A : Type} (cmp : A → A → Z) (x : A) (l : list A) : list A :=
  match l with
  | [] => [x]
  | y :: l' => if (cmp x y <=? 0)%Z then x :: y :: l' else y :: insertSorted cmp x l'
  end.

Definition sort {A : Type} (cmp : A → A → Z) (l : list A) : list A :=
  foldr (insertSorted cmp) [] l.

Definition priorityRank (p : Priority) : Z :=
  match p with high => 0 | medium => 1 | low => 2 end.

Definition isCompleted (t : Task) : bool := bool_decide (is_Some (completedAt t)).

Section Query.
Local Open Scope Z_scope.

Variable tz : Z.

(** [String.prototype.toLowerCase] and [String.prototype.localeCompare]
    of the host. *)
Variable toLowerCase : jsstring → jsstring.
Variable localeCompare : jsstring → jsstring → Z.

Definition todayStart (now : Z) : Z := Date.onDayOf tz now 0 0.
Definition todayEnd (now : Z) : Z := Date.addDays tz (todayStart now) 1.
Definition weekEnd (now : Z) : Z := Date.addDays tz (todayStart now) 7.

(** [t.dueAt && lo <= new Date(t.dueAt) && new Date(t.dueAt) < hi] *)
Definition dueWithin (lo hi : Z) (t : Task) : bool :=
  match dueAt t with
  | Some d => (lo <=? d) && (d <? hi)
  | None => false
  end.

Definition viewFilter (now : Z) (view : jsstring) (t : Task) : bool :=
  if jseqb view (js "today") then
    negb (isCompleted t) && dueWithin (todayStart now) (todayEnd now) t
  else if jseqb view (js "upcoming") then
    negb (isCompleted t) && dueWithin (todayEnd now) (weekEnd now) t
  else if jseqb view (js "all") then negb (isCompleted t)
  else if jseqb view (js "starred") then starred t && negb (isCompleted t)
  else if jseqb view (js "completed") then isCompleted t
  else true.

Definition tagFilter (tag : option jsstring) (t : Task) : bool :=
  match tag with
  | Some (c :: s) => bool_decide (c :: s ∈ tags t)
  | _ => true
  end.

Definition priorityFilter (ps : list Priority) (t : Task) : bool :=
  if (0 <? length ps)%nat then bool_decide (priority t ∈ ps) else true.

Definition dueFilter (now : Z) (due : jsstring) (t : Task) : bool :=
  if jseqb due (js "today") then dueWithin (todayStart now) (todayEnd now) t
  else if jseqb due (js "week") then dueWithin (todayStart now) (weekEnd now) t
  else if jseqb due (js "overdue") then
    match dueAt t with
    | Some d => (d <? now) && negb (isCompleted t)
    | None => false
    end
  else true.

Definition searchFilter (query : jsstring) (t : Task) : bool :=
  match query with
  | [] => true
  | _ :: _ =>
      let q := toLowerCase query in
      includes (toLowerCase (title t)) q
      || includes (toLowerCase (description t)) q
      || existsb (fun tag => includes (toLowerCase tag) q) (tags t)
  end.

(** The comparison function handed to [sort]. *)
Definition compareTasks (sort : jsstring) (a b : Task) : Z :=
  if jseqb sort (js "dueDate") then
    match dueAt a, dueAt b with
    | None, None => 0
    | None, Some _ => 1
    | Some _, None => -1
    | Some da, Some db => da - db
    end
  else if jseqb sort (js "priority") then
    priorityRank (priority a) - priorityRank (priority b)
  else if jseqb sort (js "created") then createdAt b - createdAt a
  else if jseqb sort (js "alpha") then localeCompare (title a) (title b)
  else order a - order b.

Definition getFilteredTasks (now : Z) (st : State) : list Task :=
  let ts := tasks st in
  let ts := List.filter (viewFilter now (currentView st)) ts in
  let ts := List.filter (tagFilter (filterTag st)) ts in
  let ts := List.filter (priorityFilter (filterPriorities st)) ts in
  let ts := List.filter (dueFilter now (filterDue st)) ts in
  let ts := List.filter (searchFilter (searchQuery st)) ts in
  sort (compareTasks (sortBy st)) ts.
End Query.

(* ================================================================= *)
(** * Vocabulary of the properties *)

Local Close Scope N_scope.


(** [t'] is [t] except, possibly, for [order] and [updatedAt]. *)
Definition sameButOrder (t t' : Task) : Prop :=
  id t' = id t ∧ title t' = title t ∧ description t' = description t
  ∧ createdAt t' = createdAt t ∧ dueAt t' = dueAt t
  ∧ completedAt t' = completedAt t ∧ priority t' = priority t
  ∧ tags t' = tags t ∧ subtasks t' = subtasks t ∧ starred t' = starred t
  ∧ reminderAt t' = reminderAt t ∧ metadata t' = metadata t.

(** [t] is at position [i] of [ts] and no task before it carries its
    identifier: it is the task [find] returns for that identifier. *)
Definition firstCarrier (ts : list Task) (i : nat) (t : Task) : Prop :=
  ts !! i = Some t ∧ ∀ k y, ts !! k = Some y → k < i → id y ≠ id t.

(** An [order] on which [+ 1] is exact: [Number.isSafeInteger]. *)
Definition safeOrder (t : Task) : Prop := (Z.abs (order t) < 2 ^ 53)%Z.

(** The filters of a state, without its task list and sort key. *)
Definition set_filterTag (v : option jsstring) (st : State) : State :=
  MkState (tasks st) (currentView st) (searchQuery st) (sortBy st)
    (filterPriorities st) (filterDue st) v.

Definition set_filterPriorities (v : list Priority) (st : State) : State :=
  MkState (tasks st) (currentView st) (searchQuery st) (sortBy st) v
    (filterDue st) (filterTag st).

Definition set_filterDue (v : jsstring) (st : State) : State :=
  MkState (tasks st) (currentView st) (searchQuery st) (sortBy st)
    (filterPriorities st) v (filterTag st).

(** Whether a task passes every filter of the pipeline. *)
Definition passes (tz : Z) (toLowerCase : jsstring → jsstring) (now : Z)
    (st : State) (t : Task) : bool :=
  viewFilter tz now (currentView st) t
  && tagFilter (filterTag st) t
  && priorityFilter (filterPriorities st) t
  && dueFilter tz now (filterDue st) t
  && searchFilter toLowerCase (searchQuery st) t.

(** A task for the examples: identifier, order, due instant, completion
    instant and priority. *)
Definition sampleTask (ident : string) (ord : Z) (due done : option Z)
    (p : Priority) : Task :=
  MkTask (js ident) (js ident) [] 0 0 due done p [] [] ord false None [].

(** Host functions for the examples: lower-casing of ASCII, and a
    comparison that ties every pair of titles. *)
Definition sampleLower (s : jsstring) : jsstring := asciiLower <$> s.
Definition sampleCompare (a b : jsstring) : Z := 0.

(** ** Regular expressions *)

(** The state a successful match of [r] from [st] can end in, whichever
    path the backtracking takes. *)
Fixpoint matches (r : regex) (st st' : mstate) : Prop :=
  match r with
  | Eps => st' = st
  | Chr p =>
      ∃ c s', m_rest st = c :: s' ∧ p c = true
              ∧ st' = MState (Some c) s' (S (m_end st)) (m_caps st)
  | Seq r1 r2 => ∃ mid, matches r1 st mid ∧ matches r2 mid st'
  | Alt r1 r2 => matches r1 st st' ∨ matches r2 st st'
  | Opt r1 => matches r1 st st' ∨ st' = st
  | Rep p lo hi =>
      ∃ run s', m_rest st = run ++ s'
                ∧ Forall (fun c => p c = true) run
                ∧ lo ≤ length run
                ∧ (∀ h, hi = Some h → length run ≤ h)
                ∧ st' = MState (from_option Some (m_prev st) (last run)) s'
                          (m_end st + length run) (m_caps st)
  | Grp i r1 =>
      ∃ st1, matches r1 st st1
             ∧ st' = MState (m_prev st1) (m_rest st1) (m_end st1)
                       ((i, take (m_end st1 - m_end st) (m_rest st))
                        :: m_caps st1)
  | WordB =>
      xorb (is_word (m_prev st)) (is_word (head (m_rest st))) = true ∧ st' = st
  end.

(** The text a global replacement produces from the pieces of a scan when
    every match is replaced by [repl]. *)
Fixpoint unhit (repl : jsstring) (ps : list piece) : jsstring :=
  match ps with
  | [] => []
  | Lit c :: ps' => c :: unhit repl ps'
  | Hit _ _ :: ps' => repl ++ unhit repl ps'
  end.

(** The matches among the pieces, with their groups, left to right. *)
Fixpoint hits (ps : list piece) : list (jsstring * captures) :=
  match ps with
  | [] => []
  | Lit _ :: ps' => hits ps'
  | Hit m caps :: ps' => (m, caps) :: hits ps'
  end.

(** [s'] is [s] with some substrings deleted, each of which satisfies
    [P]. *)
Inductive cuts (P : jsstring → Prop) : jsstring → jsstring → Prop :=
| cuts_nil : cuts P [] []
| cuts_keep c s s' : cuts P s s' → cuts P (c :: s) (c :: s')
| cuts_cut m s s' : P m → cuts P s s' → cuts P (m ++ s) s'.

(** Equality of two strings up to the case of ASCII letters. *)
Definition ci_eq (w pat : jsstring) : Prop :=
  canonicalize <$> w = canonicalize <$> pat.

(** [s] contains [pat], up to the case of ASCII letters. *)
Definition contains_ci (pat s : jsstring) : Prop :=
  ∃ pre w post, s = pre ++ w ++ post ∧ ci_eq w pat.

(** [strips M prev s out]: [out] is the text [s], which follows the code
    unit [prev], with every occurrence deleted, reading from the left.
    [M prev m rest] tells that the text [m], between the code unit [prev]
    and the text [rest], is an occurrence.  Where an occurrence starts it
    is left out and the reading resumes behind it; a code unit at which
    none starts is kept. *)
Inductive strips (M : option char → jsstring → jsstring → Prop)
    : option char → jsstring → jsstring → Prop :=
| strips_end prev : strips M prev [] []
| strips_hit prev m rest out :
    m ≠ [] → M prev m rest → strips M (last m) rest out →
    strips M prev (m ++ rest) out
| strips_keep prev c s out :
    (∀ m rest, c :: s = m ++ rest → ¬ M prev m rest) →
    strips M (Some c) s out →
    strips M prev (c :: s) (c :: out).

(** [s] starts with [pat], up to the case of ASCII letters. *)
Definition startsCI (pat s : jsstring) : Prop :=
  ∃ w post, s = w ++ post ∧ ci_eq w pat.

(** An occurrence of the marker [pat], in any case. *)
Definition occursCI (pat : jsstring) (prev : option char) (m rest : jsstring)
    : Prop :=
  ci_eq m pat.

(** An occurrence of [!med] or [!medium], in any case: the long spelling
    where the text has it. *)
Definition occursMed (prev : option char) (m rest : jsstring) : Prop :=
  ci_eq m (js "!medium") ∨ (ci_eq m (js "!med") ∧ ¬ startsCI (js "ium") rest).


(** No two whitespace code units in a row. *)
Fixpoint noSpaceRun (s : jsstring) : bool :=
  match s with
  | a :: s' =>
      match s' with
      | b :: _ => negb (isSpace a && isSpace b) && noSpaceRun s'
      | [] => true
      end
  | [] => true
  end.

Definition is_space (o : option char) : bool :=
  match o with Some c => isSpace c | None => false end.

(** No whitespace at either end. *)
Definition noSpaceAtEnds (s : jsstring) : bool :=
  negb (is_space (head s)) && negb (is_space (last s)).

(** ** The parser *)

(** Whether a text holds a priority marker, a tag or a relative date
    keyword, as the patterns of [parseNLP] see them. *)
Definition hasMarker (s : jsstring) : bool :=
  test NLP.re_high s || test NLP.re_med s || test NLP.re_low s
  || test NLP.re_tag s
  || test NLP.re_today s || test NLP.re_tomorrow s || test NLP.re_next_week s.

(** The steps of [parseNLP] that follow the priority step. *)
Definition afterPriority (tz now : Z) (r : NLP.result) (text : jsstring)
    : NLP.result :=
  let '(r, text) := NLP.tagStep r text in
  let '(r, text) := NLP.dateStep tz now r text in
  let '(r, text) := NLP.timeStep tz r text in
  NLP.set_title (NLP.cleanTitle text) r.

(** The steps of [parseNLP] that follow the date step. *)
Definition afterDate (tz : Z) (r : NLP.result) (text : jsstring) : NLP.result :=
  let '(r, text) := NLP.timeStep tz r text in
  NLP.set_title (NLP.cleanTitle text) r.

(** The working text and the result object when the date step starts. *)
Definition beforeDate (text : jsstring) : NLP.result * jsstring :=
  let '(r, text) := NLP.priorityStep (NLP.Result text None medium []) text in
  NLP.tagStep r text.

(** The shape shared by the matches of [/!high/i] and [/!med(ium)?/i]: an
    exclamation mark, then code units that are not one, the first of which
    is not an L. *)
Definition markerShape (w : jsstring) : Prop :=
  ∃ c1 w', w = 33%N :: c1 :: w' ∧ canonicalize c1 ≠ 76%N
           ∧ Forall (fun c => c ≠ 33%N) (c1 :: w').

(** The tags captured by the matches of [/#(\w+)/g]. *)
Definition tagsOf (hs : list (jsstring * captures)) : list jsstring :=
  (fun h => default [] (group (MatchResult 0 h.1 h.2) 1)) <$> hs.

(* ================================================================= *)
(** * The rest of the task operations

    The clock is an argument of the operation that reads it.  Persisting,
    rendering and toasts do not change the state and are left out. *)

(** ** The selection

    [state.selectedIds] is a [Set] of identifiers; a [Set] keeps its
    elements in insertion order, without duplicates. *)
Definition idset := list jsstring.

Definition set_has (s : idset) (i : jsstring) : bool := bool_decide (i ∈ s).

Definition set_add (i : jsstring) (s : idset) : idset :=
  if set_has s i then s else s ++ [i].

Definition set_delete (i : jsstring) (s : idset) : idset :=
  List.filter (fun j => negb (jseqb j i)) s.

(** [toggleSelect] *)
Definition toggleSelect (i : jsstring) (s : idset) : idset :=
  if set_has s i then set_delete i s else set_add i s.

(** ** Updating, deleting, completing *)

Definition set_completedAt (v : option Z) (t : Task) : Task :=
  MkTask (id t) (title t) (description t) (createdAt t) (updatedAt t) (dueAt t)
    v (priority t) (tags t) (subtasks t) (order t) (starred t)
    (reminderAt t) (metadata t).

(** The [data] argument of [updateTask]: a key that is absent is [None];
    a key of a field that can hold [null] carries the new content of the
    field.  An [updatedAt] key would be overwritten by [updateTask]. *)
Record TaskPatch := MkTaskPatch {
  patch_id : option jsstring;
  patch_title : option jsstring;
  patch_description : option jsstring;
  patch_createdAt : option Z;
  patch_dueAt : option (option Z);
  patch_completedAt : option (option Z);
  patch_priority : option Priority;
  patch_tags : option (list jsstring);
  patch_subtasks : option (list Subtask);
  patch_order : option Z;
  patch_starred : option bool;
  patch_reminderAt : option (option Z);
  patch_metadata : option (list (jsstring * jsstring))
}.

(** [{ ...task, ...data, updatedAt: now }] *)
Definition applyPatch (now : Z) (data : TaskPatch) (t : Task) : Task :=
  {| id := default (id t) (patch_id data);
     title := default (title t) (patch_title data);
     description := default (description t) (patch_description data);
     createdAt := default (createdAt t) (patch_createdAt data);
     updatedAt := now;
     dueAt := default (dueAt t) (patch_dueAt data);
     completedAt := default (completedAt t) (patch_completedAt data);
     priority := default (priority t) (patch_priority data);
     tags := default (tags t) (patch_tags data);
     subtasks := default (subtasks t) (patch_subtasks data);
     order := default (order t) (patch_order data);
     starred := default (starred t) (patch_starred data);
     reminderAt := default (reminderAt t) (patch_reminderAt data);
     metadata := default (metadata t) (patch_metadata data) |}.

(** [updateTask]: [findIndex] gives the first task with the identifier. *)
Definition updateTask (now : Z) (i : jsstring) (data : TaskPatch) (st : State)
    : State :=
  match list_find (fun t => id t = i) (tasks st) with
  | None => st
  | Some (idx, t) => set_tasks (<[idx := applyPatch now data t]> (tasks st)) st
  end.

(** [deleteTask], on the state and the selection. *)
Definition deleteTask (i : jsstring) (st : State) (sel : idset) : State * idset :=
  (set_tasks (List.filter (fun t => negb (jseqb (id t) i)) (tasks st)) st,
   set_delete i sel).

(** [toggleComplete]: [nowC] is the clock read for [completedAt], which
    happens when the task is not completed, and [nowU] the read for
    [updatedAt]. *)
Definition toggleComplete (nowC nowU : Z) (i : jsstring) (st : State) : State :=
  match list_find (fun t => id t = i) (tasks st) with
  | None => st
  | Some (idx, _) =>
      set_tasks
        (alter (fun t =>
                  set_updatedAt nowU
                    (set_completedAt
                       (if isCompleted t then None else Some nowC) t))
           idx (tasks st))
        st
  end.

(** The handler of the [bulk-complete] button: every selected identifier,
    in the order of the selection, completes the first task that carries
    it when that task is not completed yet; the selection is cleared.
    The clock is read once for a task that is completed, and [clock i] is
    the instant read while the identifier [i] is visited. *)
Definition completeOne (clock : jsstring → Z) (ts : list Task) (i : jsstring)
    : list Task :=
  match list_find (fun t => id t = i) ts with
  | Some (idx, t) =>
      if isCompleted t then ts
      else alter (fun t => set_updatedAt (clock i)
                             (set_completedAt (Some (clock i)) t)) idx ts
  | None => ts
  end.

Definition bulkComplete (clock : jsstring → Z) (st : State) (sel : idset)
    : State * idset :=
  (set_tasks (foldl (completeOne clock) (tasks st) sel) st, []).

(** The confirmed handler of the [bulk-delete] button. *)
Definition bulkDelete (st : State) (sel : idset) : State * idset :=
  (set_tasks (List.filter (fun t => negb (set_has sel (id t))) (tasks st)) st, []).

(** ** Import

    The confirmed merge of [importFile]: every imported object whose [id]
    is not the identifier of a stored task goes through [createTask] and
    is appended.  An item carries, beside the imported object, what its
    call of [createTask] would read from the clock and the identifier it
    would generate. *)
Record Imported := MkImported {
  imp_nowC : Z;
  imp_nowU : Z;
  imp_nowO : Z;
  imp_fresh : jsstring;
  imp_data : TaskData
}.

Definition importTasks (items : list Imported) (st : State) : State :=
  let existingIds := id <$> tasks st in
  let fresh_items :=
    List.filter
      (fun it => match data_id (imp_data it) with
                 | Some i => negb (bool_decide (i ∈ existingIds))
                 | None => true
                 end)
      items in
  let newTasks :=
    (fun it => createTask (imp_nowC it) (imp_nowU it) (imp_nowO it)
                 (imp_fresh it) (imp_data it))
      <$> fresh_items in
  set_tasks (tasks st ++ newTasks) st.

(** A stored task as the object [JSON.parse] gives back from its export:
    every key is present. *)
Definition asData (t : Task) : TaskData :=
  MkTaskData (Some (id t)) (Some (title t)) (Some (description t))
    (Some (createdAt t)) (dueAt t) (completedAt t) (Some (priority t))
    (Some (tags t)) (Some (subtasks t)) (Some (order t)) (Some (starred t))
    (reminderAt t) (Some (metadata t)).

(** ** Badges and the tag navigation *)

Record Badges := MkBadges {
  badge_today : nat;
  badge_upcoming : nat;
  badge_all : nat;
  badge_starred : nat
}.

(** The counts [updateBadges] hands to [setBadge]. *)
Definition updateBadges (tz now : Z) (st : State) : Badges :=
  let active := List.filter (fun t => negb (isCompleted t)) (tasks st) in
  let todays :=
    List.filter (dueWithin (todayStart tz now) (todayEnd tz now)) active in
  let upcoming :=
    List.filter (dueWithin (todayEnd tz now) (weekEnd tz now)) active in
  let starred := List.filter starred active in
  MkBadges (length todays) (length upcoming) (length active) (length starred).

(** The order of two strings in [Array.prototype.sort] without a
    comparison function: by code units. *)
Fixpoint compareStrings (a b : jsstring) : Z :=
  match a, b with
  | [], [] => 0
  | [], _ :: _ => -1
  | _ :: _, [] => 1
  | x :: a', y :: b' =>
      if (x <? y)%N then -1 else if (y <? x)%N then 1 else compareStrings a' b'
  end.

(** [[...new Set(xs)]]: the first occurrence of every element. *)
Fixpoint dedupe (seen : list jsstring) (xs : list jsstring) : list jsstring :=
  match xs with
  | [] => []
  | x :: xs' =>
      if bool_decide (x ∈ seen) then dedupe seen xs'
      else x :: dedupe (x :: seen) xs'
  end.

(** [allTags] of [renderTagsNav]. *)
Definition allTags (st : State) : list jsstring :=
  sort compareStrings (dedupe [] (concat (tags <$> tasks st))).

(** The handler of a tag button: the tag filter is set, or cleared when
    the tag is the current one, and the view becomes [all].  The
    selection, which [navigateTo] clears, is not part of this state. *)
Definition clickTag (tag : jsstring) (st : State) : State :=
  let tagNow :=
    if bool_decide (filterTag st = Some tag) then None else Some tag in
  MkState (tasks st) (js "all") (searchQuery st) (sortBy st)
    (filterPriorities st) (filterDue st) tagNow.

(** [clearFilters] *)
Definition clearFilters (st : State) : State :=
  MkState (tasks st) (currentView st) (searchQuery st) (sortBy st) [] []
    (filterTag st).

(** ** Utilities *)

(** [escHtml] *)
Definition escHtml (str : jsstring) : jsstring :=
  let s := replaceAll (lit (js "&")) (js "&amp;") str in
  let s := replaceAll (lit (js "<")) (js "&lt;") s in
  let s := replaceAll (lit (js ">")) (js "&gt;") s in
  let s := replaceAll (lit [34%N]) (js "&quot;") s in
  replaceAll (lit (js "'")) (js "&#039;") s.

(** The cell of [exportCSV] for the text [v]. *)
Definition csvCell (v : jsstring) : jsstring :=
  [34%N] ++ replaceAll (lit [34%N]) [34%N; 34%N] v ++ [34%N].

(** [ToInt32], and the operator [&] on two numbers that are integers. *)
Definition toInt32 (x : Z) : Z := ((x + 2 ^ 31) mod 2 ^ 32 - 2 ^ 31)%Z.

Definition bitAnd (a b : Z) : Z := Z.land (toInt32 a) (toInt32 b).

(** The code units [c.charCodeAt(0)] that [for (let c of tag)] visits: the
    iteration goes by code points, so of a surrogate pair only the first
    code unit is seen. *)
Fixpoint codePointHeads (s : jsstring) : list char :=
  match s with
  | [] => []
  | c :: s' =>
      match s' with
      | d :: s'' =>
          if in_range 55296%N 56319%N c && in_range 56320%N 57343%N d
          then c :: codePointHeads s''
          else c :: codePointHeads s'
      | [] => [c]
      end
  end.

(** The hash of [tagColor]. *)
Definition tagHash (tag : jsstring) : Z :=
  foldl (fun h c => bitAnd (h * 31 + Z.of_N c) 16777215)%Z 0%Z
    (codePointHeads tag).

(** [h % 360]: the remainder has the sign of [h]. *)
Definition tagHue (tag : jsstring) : Z := Z.rem (tagHash tag) 360.

(** The decimal digits of a number that is a natural number. *)
Definition digitChar (d : N) : char := (48 + d)%N.

Fixpoint digitsOfUint (u : Decimal.uint) : jsstring :=
  match u with
  | Decimal.Nil => []
  | Decimal.D0 u' => digitChar 0 :: digitsOfUint u'
  | Decimal.D1 u' => digitChar 1 :: digitsOfUint u'
  | Decimal.D2 u' => digitChar 2 :: digitsOfUint u'
  | Decimal.D3 u' => digitChar 3 :: digitsOfUint u'
  | Decimal.D4 u' => digitChar 4 :: digitsOfUint u'
  | Decimal.D5 u' => digitChar 5 :: digitsOfUint u'
  | Decimal.D6 u' => digitChar 6 :: digitsOfUint u'
  | Decimal.D7 u' => digitChar 7 :: digitsOfUint u'
  | Decimal.D8 u' => digitChar 8 :: digitsOfUint u'
  | Decimal.D9 u' => digitChar 9 :: digitsOfUint u'
  end.

Definition numberToString (n : Z) : jsstring :=
  digitsOfUint (N.to_uint (Z.to_N n)).

(** [tagColor] *)
Definition tagColor (tag : jsstring) : jsstring :=
  js "hsl(" ++ numberToString (tagHue tag) ++ js ",60%,55%)".

(** ** The task dialog *)

(** [s.match(re)] for a regular expression with the [g] flag: the matched
    texts, or [null]. *)
Definition matchAll (r : regex) (s : jsstring) : option (list jsstring) :=
  match hits (scan r 0 None s) with
  | [] => None
  | h :: hs => Some (fst <$> (h :: hs))
  end.

(** The tags [saveModal] reads from the tags field. *)
Definition modalTags (rawTags : jsstring) : list jsstring :=
  match matchAll NLP.re_tag rawTags with
  | Some ms => drop 1 <$> ms
  | None => []
  end.

(** The fields of the dialog.  [form_due] is the instant the host reads
    from the date field, [None] when the field is empty. *)
Record Form := MkForm {
  form_title : jsstring;
  form_description : jsstring;
  form_due : option Z;
  form_tags : jsstring
}.

(** The part of [state] the dialog owns. *)
Record Modal := MkModal {
  editingTaskId : option jsstring;
  modalPriority : Priority;
  modalStarred : bool;
  modalSubtasks : list Subtask
}.

Definition is_blank (s : jsstring) : bool := bool_decide (trim s = []).

(** The [data] object of [saveModal], as [updateTask] and as [addTask]
    read it. *)
Definition modalSubtasksKept (m : Modal) : list Subtask :=
  List.filter (fun s => negb (is_blank (sub_title s))) (modalSubtasks m).

Definition modalPatch (f : Form) (m : Modal) : TaskPatch :=
  MkTaskPatch None (Some (trim (form_title f)))
    (Some (trim (form_description f))) None (Some (form_due f)) None
    (Some (modalPriority m)) (Some (modalTags (form_tags f)))
    (Some (modalSubtasksKept m)) None (Some (modalStarred m)) None None.

Definition modalData (f : Form) (m : Modal) : TaskData :=
  MkTaskData None (Some (trim (form_title f)))
    (Some (trim (form_description f))) None (form_due f) None
    (Some (modalPriority m)) (Some (modalTags (form_tags f)))
    (Some (modalSubtasksKept m)) None (Some (modalStarred m)) None None.

(** [saveModal]: the state after the call, and whether the dialog was
    closed.  [nowU] is the read of the clock for [updatedAt], by
    [updateTask] or by [createTask]; [nowC] is the read of [createTask]
    for [createdAt]. *)
Definition saveModal (nowC nowU : Z) (fresh : jsstring) (f : Form) (m : Modal)
    (st : State) : State * bool :=
  if is_blank (form_title f) then (st, false)
  else
    match editingTaskId m with
    | Some (c :: i) => (updateTask nowU (c :: i) (modalPatch f m) st, true)
    | _ => ((addTask nowC nowU fresh (modalData f m) st).2, true)
    end.

(** ** Vocabulary of the further properties *)

(** A state that shows a view with every filter and the search unset. *)
Definition viewOnly (view : jsstring) (st : State) : State :=
  MkState (tasks st) view [] (sortBy st) [] [] None.

(** What [escHtml] writes for one code unit. *)
Definition escChar (c : char) : jsstring :=
  if (c =? 38)%N then js "&amp;"
  else if (c =? 60)%N then js "&lt;"
  else if (c =? 62)%N then js "&gt;"
  else if (c =? 34)%N then js "&quot;"
  else if (c =? 39)%N then js "&#039;"
  else [c].

(** The task [t] completed at [now]. *)
Definition completedBy (now : Z) (t : Task) : Task :=
  set_updatedAt now (set_completedAt (Some now) t).

(** [t'] is [t] except, possibly, for [completedAt] and [updatedAt]. *)
Definition sameButCompletion (t t' : Task) : Prop :=
  id t' = id t ∧ title t' = title t ∧ description t' = description t
  ∧ createdAt t' = createdAt t ∧ dueAt t' = dueAt t
  ∧ priority t' = priority t ∧ tags t' = tags t ∧ subtasks t' = subtasks t
  ∧ order t' = order t ∧ starred t' = starred t
  ∧ reminderAt t' = reminderAt t ∧ metadata t' = metadata t.

(** What the bulk completion does to one task, for the selection [sel]. *)
Definition completeIfSelected (clock : jsstring → Z) (sel : idset) (t : Task)
    : Task :=
  if set_has sel (id t) && negb (isCompleted t)
  then completedBy (clock (id t)) t else t.

(** An imported object that carries an identifier that is not empty. *)
Definition hasId (d : TaskData) : Prop :=
  ∃ i, data_id d = Some i ∧ i ≠ [].

(** Whether the decimal text of [n] is made of one to three digits that
    [parseInt] reads back as [n]. *)
Definition hueTextOk (n : Z) : bool :=
  (parseInt (numberToString n) =? n)%Z
  && forallb isDigit (numberToString n)
  && (1 <=? length (numberToString n))%nat
  && (length (numberToString n) <=? 3)%nat.

(* ================================================================= *)
(** * Properties of the sort *)

Section SortFacts.
Context {A : Type} (cmp : A → A → Z).

Lemma insertSorted_perm x l : insertSorted cmp x l ≡ₚ x :: l.
Proof.
  induction l as [|y l IH]; simpl; [done|].
  destruct (cmp x y <=? 0)%Z; [done|].
  rewrite IH. apply Permutation_swap.
Qed.

Lemma sort_perm l : sort cmp l ≡ₚ l.
Proof.
  induction l as [|x l IH]; simpl; [done|].
  change (insertSorted cmp x (sort cmp l) ≡ₚ x :: l).
  by rewrite insertSorted_perm, IH.
Qed.

Lemma sort_length l : length (sort cmp l) = length l.
Proof. apply Permutation_length, sort_perm. Qed.

Lemma sort_cons x l : sort cmp (x :: l) = insertSorted cmp x (sort cmp l).
Proof. reflexivity. Qed.

(** An element that compares after every element of the list goes last. *)
Lemma insertSorted_last x l :
  Forall (fun y => (0 < cmp x y)%Z) l → insertSorted cmp x l = l ++ [x].
Proof.
  induction 1 as [|y l Hy _ IH]; simpl; [done|].
  destruct (Z.leb_spec (cmp x y) 0); [lia|]. by rewrite IH.
Qed.



(** Sortedness, for a comparison that decides a total preorder. *)
Lemma insertSorted_sorted (R : A → A → Prop) x l :
  (∀ a b, (cmp a b ≤ 0)%Z → R a b) →
  (∀ a b, (0 < cmp a b)%Z → R b a) →
  (∀ a b c, R a b → R b c → R a c) →
  StronglySorted R l → StronglySorted R (insertSorted cmp x l).
Proof.
  intros Hle Hgt Htrans. induction 1 as [|y l Hl IH Hy]; simpl.
  - repeat constructor.
  - destruct (Z.leb_spec (cmp x y) 0) as [H0|H0].
    + constructor; [by constructor|].
      constructor; [by apply Hle|].
      eapply Forall_impl; [exact Hy|]. intros z Hz.
      eapply Htrans; [|exact Hz]. by apply Hle.
    + constructor; [exact IH|].
      rewrite insertSorted_perm. constructor; [by apply Hgt|exact Hy].
Qed.

Lemma sort_sorted (R : A → A → Prop) l :
  (∀ a b, (cmp a b ≤ 0)%Z → R a b) →
  (∀ a b, (0 < cmp a b)%Z → R b a) →
  (∀ a b c, R a b → R b c → R a c) →
  StronglySorted R (sort cmp l).
Proof.
  intros Hle Hgt Htrans. induction l as [|x l IH]; [constructor|].
  rewrite sort_cons. by apply insertSorted_sorted.
Qed.
End SortFacts.

Lemma StronglySorted_lookup_lt {A} (R : A → A → Prop) (l : list A) i j a b :
  StronglySorted R l → (i < j)%nat → l !! i = Some a → l !! j = Some b → R a b.
Proof.
  intros Hs. revert i j. induction Hs as [|x l Hs IH Hx]; intros i j Hij Hi Hj.
  - done.
  - destruct j as [|j]; [lia|]. destruct i as [|i]; simpl in *.
    + injection Hi as ->. rewrite Forall_lookup in Hx. by eapply Hx.
    + eapply IH; [|done..]. lia.
Qed.

Lemma filter_filter_and {A} (f g : A → bool) (l : list A) :
  List.filter f (List.filter g l) = List.filter (fun x => g x && f x) l.
Proof.
  induction l as [|x l IH]; [done|]. simpl.
  destruct (g x); simpl; [destruct (f x)|]; by rewrite IH.
Qed.

Lemma filter_length_mono {A} (f g : A → bool) (l : list A) :
  (∀ x, f x = true → g x = true) →
  (length (List.filter f l) ≤ length (List.filter g l))%nat.
Proof.
  intros Hfg. induction l as [|x l IH]; [done|]. simpl.
  destruct (f x) eqn:Hf.
  - rewrite (Hfg x Hf). simpl. lia.
  - destruct (g x); simpl; lia.
Qed.

(* ================================================================= *)
(** * Properties of the query pipeline *)

Section QueryFacts.
Variable tz : Z.
Variable toLowerCase : jsstring → jsstring.
Variable localeCompare : jsstring → jsstring → Z.

Abbreviation query := (getFilteredTasks tz toLowerCase localeCompare).

(** The pipeline keeps the tasks that pass every stage, and sorts them. *)
Lemma getFilteredTasks_passes now st :
  query now st
  = sort (compareTasks localeCompare (sortBy st))
      (List.filter (passes tz toLowerCase now st) (tasks st)).
Proof.
  unfold getFilteredTasks. rewrite !filter_filter_and. f_equal.
apply filter_ext. intros t. unfold passes. by rewrite !andb_assoc.
Qed.

Lemma getFilteredTasks_length now st :
  length (query now st)
  = length (List.filter (passes tz toLowerCase now st) (tasks st)).
Proof. by rewrite getFilteredTasks_passes, sort_length. Qed.

Lemma query_length_mono now st st' :
  tasks st' = tasks st →
  (∀ t, passes tz toLowerCase now st' t = true →
        passes tz toLowerCase now st t = true) →
  (length (query now st') ≤ length (query now st))%nat.
Proof.
  intros Ht Hp. rewrite !getFilteredTasks_length, Ht.
  by apply filter_length_mono.
Qed.
End QueryFacts.

(* ================================================================= *)
(** * Properties of the regular expression matcher *)

Section MatcherFacts.

Lemma rep_sound p lo hi k caps pos prev s res :
  rep p lo hi k caps pos prev s = Some res →
  ∃ run s', s = run ++ s'
            ∧ Forall (fun c => p c = true) run
            ∧ lo ≤ length run
            ∧ (∀ h, hi = Some h → length run ≤ h)
            ∧ k (MState (from_option Some prev (last run)) s'
                   (pos + length run) caps) = Some res.
Proof.
  revert lo hi pos prev.
  induction s as [|c s IH]; intros lo hi pos prev Hres.
  - simpl in Hres. destruct lo; [|done].
    exists [], []. simpl. rewrite Nat.add_0_r.
    repeat split; [constructor|lia|lia|done].
  - simpl in Hres.
    assert (Hstop : match lo with
                    | O => k (MState prev (c :: s) pos caps)
                    | S _ => None
                    end = Some res →
            ∃ run s', c :: s = run ++ s'
              ∧ Forall (fun c => p c = true) run
              ∧ lo ≤ length run
              ∧ (∀ h, hi = Some h → length run ≤ h)
              ∧ k (MState (from_option Some prev (last run)) s'
                     (pos + length run) caps) = Some res).
    { intros H. destruct lo; [|done].
      exists [], (c :: s). simpl. rewrite Nat.add_0_r.
      repeat split; [constructor|lia|lia|done]. }
    destruct (p c) eqn:Hp; simpl in Hres; [|by apply Hstop].
    destruct (bool_decide (hi = Some O)) eqn:Hhi; simpl in Hres;
      [by apply Hstop|].
    destruct (rep p (pred lo) (pred <$> hi) k caps (S pos) (Some c) s)
      as [res'|] eqn:Hrec; [|by apply Hstop].
    injection Hres as ->.
    apply IH in Hrec as (run & s' & -> & Hall & Hlo & Hhi' & Hk).
    exists (c :: run), s'. repeat split.
    + by constructor.
    + simpl. lia.
    + intros h ->. apply bool_decide_eq_false in Hhi.
      destruct h as [|h]; [done|]. specialize (Hhi' h eq_refl). simpl. lia.
    + rewrite <- Hk. f_equal. f_equal; [|simpl; lia].
      rewrite last_cons. by destruct (last run).
Qed.

Lemma rmatch_sound r k st res :
  rmatch r k st = Some res → ∃ st', matches r st st' ∧ k st' = Some res.
Proof.
  revert k st res.
  induction r as [|p|r1 IH1 r2 IH2|r1 IH1 r2 IH2|r1 IH1|p lo hi|i r1 IH1|];
    intros k st res Hres; simpl in Hres.
  - by exists st.
  - destruct (m_rest st) as [|c s'] eqn:Hrest; [done|].
    destruct (p c) eqn:Hp; [|done].
    eexists. split; [|exact Hres]. by exists c, s'.
  - apply IH1 in Hres as (mid & Hm1 & Hres).
    apply IH2 in Hres as (st' & Hm2 & Hres).
    exists st'. split; [by exists mid|done].
  - destruct (rmatch r1 k st) as [res1|] eqn:H1.
    + injection Hres as ->. apply IH1 in H1 as (st' & Hm & Hk).
      exists st'. split; [by left|done].
    + apply IH2 in Hres as (st' & Hm & Hk).
      exists st'. split; [by right|done].
  - destruct (rmatch r1 k st) as [res1|] eqn:H1.
    + injection Hres as ->. apply IH1 in H1 as (st' & Hm & Hk).
      exists st'. split; [by left|done].
    + exists st. split; [by right|done].
  - apply rep_sound in Hres as (run & s' & Hs & Hall & Hlo & Hhi & Hk).
    eexists. split; [|exact Hk]. by exists run, s'.
  - apply IH1 in Hres as (st1 & Hm & Hk).
    eexists. split; [|exact Hk]. by exists st1.
  - destruct (xorb _ _) eqn:Hx; [|done]. by exists st.
Qed.

(** A match consumes a prefix of the remaining text, and counts it. *)
Lemma matches_consumes r st st' :
  matches r st st' →
  ∃ w, m_rest st = w ++ m_rest st' ∧ m_end st' = m_end st + length w.
Proof.
  revert st st'.
  induction r as [|p|r1 IH1 r2 IH2|r1 IH1 r2 IH2|r1 IH1|p lo hi|i r1 IH1|];
    intros st st' Hm; simpl in Hm.
  - subst. exists []. simpl. split; [done|lia].
  - destruct Hm as (c & s' & Hrest & _ & ->). exists [c]. simpl.
    split; [done|lia].
  - destruct Hm as (mid & Hm1 & Hm2).
    apply IH1 in Hm1 as (w1 & Hw1 & He1).
    apply IH2 in Hm2 as (w2 & Hw2 & He2).
    exists (w1 ++ w2). rewrite Hw1, Hw2, length_app, <- app_assoc.
    split; [done|lia].
  - destruct Hm as [Hm|Hm]; eauto.
  - destruct Hm as [Hm| ->]; [eauto|]. exists []. simpl. split; [done|lia].
  - destruct Hm as (run & s' & Hs & _ & _ & _ & ->). by exists run.
  - destruct Hm as (st1 & Hm & ->). simpl. eauto.
  - destruct Hm as [_ ->]. exists []. simpl. split; [done|lia].
Qed.

(** What a successful attempt at a position tells. *)
Lemma exec_at_sound r prev s st :
  exec_at r prev s = Some st →
  matches r (MState prev s 0 []) st
  ∧ s = take (m_end st) s ++ m_rest st
  ∧ m_end st ≤ length s.
Proof.
  intros Hex. apply rmatch_sound in Hex as (st' & Hm & [= ->]).
  split; [done|].
  apply matches_consumes in Hm as (w & Hw & He). simpl in *.
  rewrite He, Hw at 1. rewrite Hw.
  rewrite take_app_length, length_app. split; [done|lia].
Qed.

End MatcherFacts.

(* ================================================================= *)
(** * Properties of scanning and replacing *)

Section ScanFacts.
Variable r : regex.

Lemma unhit_lits repl (s : jsstring) : unhit repl (Lit <$> s) = s.
Proof. induction s as [|c s IH]; simpl; by f_equal. Qed.

Lemma hits_lits (s : jsstring) : hits (Lit <$> s) = [].
Proof. by induction s. Qed.

(** The text of a replacement whose callback always returns [repl], and
    the state the callbacks leave. *)
Lemma replacePieces_text {R} (cb : R → jsstring → captures → R * jsstring)
    repl st ps :
  (∀ st m caps, (cb st m caps).2 = repl) →
  (replacePieces cb st ps).2 = unhit repl ps.
Proof.
  intros Hcb. revert st. induction ps as [|[c|m caps] ps IH]; intros st; simpl.
  - done.
  - specialize (IH st). destruct (replacePieces cb st ps). simpl in *.
    by f_equal.
  - specialize (Hcb st m caps). destruct (cb st m caps) as [st1 rp].
    specialize (IH st1). destruct (replacePieces cb st1 ps). simpl in *.
    by subst.
Qed.

Lemma replacePieces_state {R} (cb : R → jsstring → captures → R * jsstring)
    st ps :
  (replacePieces cb st ps).1
  = foldl (fun st h => (cb st h.1 h.2).1) st (hits ps).
Proof.
  revert st. induction ps as [|[c|m caps] ps IH]; intros st; simpl.
  - done.
  - specialize (IH st). by destruct (replacePieces cb st ps).
  - destruct (cb st m caps) as [st1 rp]. specialize (IH st1).
    by destruct (replacePieces cb st1 ps).
Qed.

Lemma replaceAll_unhit repl s : replaceAll r repl s = unhit repl (scan r 0 None s).
Proof. unfold replaceAll, replaceWith. by apply replacePieces_text. Qed.

(** Without a match there is nothing to replace. *)
Lemma search_None_scan s prev idx :
  search r prev idx s = None → scan r 0 prev s = Lit <$> s.
Proof.
  revert prev idx. induction s as [|c s IH]; intros prev idx; simpl.
  - by destruct (exec_at r prev []).
  - destruct (exec_at r prev (c :: s)); [done|].
    intros H. f_equal. by eapply IH.
Qed.

Lemma search_hits s prev idx :
  search r prev idx s = None ↔ hits (scan r 0 prev s) = [].
Proof.
  revert prev idx. induction s as [|c s IH]; intros prev idx; simpl.
  - by destruct (exec_at r prev []).
  - destruct (exec_at r prev (c :: s)); [done|]. simpl. apply IH.
Qed.

Lemma test_false_search s : test r s = false → re_match r s = None.
Proof.
  unfold test. rewrite bool_decide_eq_false. intros H.
  destruct (re_match r s); [|done]. by destruct H.
Qed.

Lemma test_true_search s : test r s = true → ∃ m, re_match r s = Some m.
Proof. unfold test. rewrite bool_decide_eq_true. by intros [m Hm]; exists m. Qed.

Lemma test_false_hits s : test r s = false ↔ hits (scan r 0 None s) = [].
Proof.
  rewrite <- (search_hits s None 0). unfold test, re_match.
  rewrite bool_decide_eq_false. split.
  - intros H. destruct (search r None 0 s); [|done]. by destruct H.
  - intros H. rewrite H. by intros [? ?].
Qed.

Lemma test_false_scan s : test r s = false → scan r 0 None s = Lit <$> s.
Proof.
  intros H. eapply search_None_scan. by apply test_false_search.
Qed.

Lemma replaceAll_no_match repl s : test r s = false → replaceAll r repl s = s.
Proof.
  intros H. by rewrite replaceAll_unhit, test_false_scan, unhit_lits.
Qed.

Lemma replaceWith_no_match {R} (cb : R → jsstring → captures → R * jsstring)
    st s :
  test r s = false → replaceWith r cb st s = (st, s).
Proof.
  intros H. unfold replaceWith. rewrite test_false_scan by done.
  clear H. induction s as [|c s IH]; [done|].
  rewrite fmap_cons. cbn [replacePieces]. by rewrite IH.
Qed.

Lemma replaceWith_const {R} (cb : R → jsstring → captures → R * jsstring)
    repl st s :
  (∀ st m caps, (cb st m caps).2 = repl) →
  replaceWith r cb st s
  = (foldl (fun st h => (cb st h.1 h.2).1) st (hits (scan r 0 None s)),
     replaceAll r repl s).
Proof.
  intros Hcb. unfold replaceWith.
  rewrite replaceAll_unhit, <- (replacePieces_text cb repl st) by done.
  rewrite <- replacePieces_state. by destruct (replacePieces cb st _).
Qed.

(** Replacing by the empty string deletes matches and nothing else. *)
Lemma scan_cuts (P : jsstring → Prop) s skip prev :
  (∀ prev s st, exec_at r prev s = Some st → P (take (m_end st) s)) →
  skip ≤ length s →
  cuts P (drop skip s) (unhit [] (scan r skip prev s)).
Proof.
  intros HP. revert skip prev.
  induction s as [|c s IH]; intros skip prev Hskip; simpl in Hskip.
  - assert (skip = 0) as -> by lia. simpl.
    destruct (exec_at r prev []) as [st|] eqn:Hex; simpl; [|constructor].
    apply (cuts_cut P [] [] []); [|constructor].
    apply HP in Hex. by rewrite take_nil in Hex.
  - destruct skip as [|n]; simpl.
    + destruct (exec_at r prev (c :: s)) as [st|] eqn:Hex; simpl.
      * pose proof (exec_at_sound _ _ _ _ Hex) as (_ & _ & Hlen).
        apply HP in Hex. simpl in Hlen.
        destruct (m_end st) as [|n]; simpl.
        -- apply (cuts_cut P [] (c :: s)); [done|].
           constructor. apply (IH 0). lia.
        -- rewrite <- (take_drop (S n) (c :: s)) at 1.
           apply cuts_cut; [done|]. simpl. apply IH. lia.
      * constructor. apply (IH 0). lia.
    + apply IH. lia.
Qed.

Lemma replaceAll_cuts (P : jsstring → Prop) s :
  (∀ prev s st, exec_at r prev s = Some st → P (take (m_end st) s)) →
  cuts P s (replaceAll r [] s).
Proof.
  intros HP. rewrite replaceAll_unhit.
  apply (scan_cuts P s 0 None HP). lia.
Qed.
End ScanFacts.

(* ================================================================= *)
(** * Whitespace: [trim] and [/\s{2,}/g] *)

Section WhitespaceFacts.

Lemma trimStart_fixed s : is_space (head s) = false → trimStart s = s.
Proof. destruct s as [|c s]; simpl; [done|]. by intros ->. Qed.

Lemma trimStart_suffix s : ∃ p, s = p ++ trimStart s.
Proof.
  induction s as [|c s [p IH]]; simpl; [by exists []|].
  destruct (isSpace c); [|by exists []].
  exists (c :: p). simpl. by f_equal.
Qed.

Lemma trimStart_head s : is_space (head (trimStart s)) = false.
Proof.
  induction s as [|c s IH]; simpl; [done|].
  destruct (isSpace c) eqn:Hc; [done|]. simpl. exact Hc.
Qed.

Lemma trimEnd_prefix s : ∃ q, s = trimEnd s ++ q.
Proof.
  unfold trimEnd. destruct (trimStart_suffix (reverse s)) as [p Hp].
  exists (reverse p). rewrite <- reverse_app, <- Hp. by rewrite reverse_involutive.
Qed.

Lemma head_reverse (s : jsstring) : head (reverse s) = last s.
Proof.
  induction s as [|c s IH] using rev_ind; [done|].
  by rewrite reverse_snoc, last_snoc.
Qed.

Lemma last_reverse (s : jsstring) : last (reverse s) = head s.
Proof. by rewrite <- head_reverse, reverse_involutive. Qed.

Lemma trimEnd_last s : is_space (last (trimEnd s)) = false.
Proof. unfold trimEnd. rewrite last_reverse. apply trimStart_head. Qed.

Lemma trimEnd_fixed s : is_space (last s) = false → trimEnd s = s.
Proof.
  intros H. unfold trimEnd. rewrite trimStart_fixed.
  - apply reverse_involutive.
  - by rewrite head_reverse.
Qed.

Lemma trimEnd_head s :
  is_space (head s) = false → is_space (head (trimEnd s)) = false.
Proof.
  intros H. destruct (trimEnd_prefix s) as [q Hq].
  destruct (trimEnd s) as [|c t]; [done|].
  rewrite Hq in H. exact H.
Qed.

Lemma trim_fixed s : noSpaceAtEnds s = true → trim s = s.
Proof.
  unfold noSpaceAtEnds, trim. rewrite andb_true_iff, !negb_true_iff.
  intros [Hh Hl]. rewrite trimStart_fixed by done. by apply trimEnd_fixed.
Qed.

Lemma trim_noSpaceAtEnds s : noSpaceAtEnds (trim s) = true.
Proof.
  unfold noSpaceAtEnds, trim. rewrite andb_true_iff, !negb_true_iff. split.
  - apply trimEnd_head, trimStart_head.
  - apply trimEnd_last.
Qed.

(** [noSpaceRun] in terms of the positions of the string. *)
Lemma noSpaceRun_spec s :
  noSpaceRun s = true
  ↔ ∀ l1 a b l2, s = l1 ++ a :: b :: l2 → isSpace a && isSpace b = false.
Proof.
  induction s as [|a s IH].
  - split; [|done]. intros _ [|??] ???; discriminate.
  - destruct s as [|b s].
    + split; [|done]. intros _ [|? [|??]] ???; discriminate.
    + change (noSpaceRun (a :: b :: s))
        with (negb (isSpace a && isSpace b) && noSpaceRun (b :: s)).
      rewrite andb_true_iff, negb_true_iff, IH. split.
      * intros [Hab Hrest] [|x l1] a' b' l2 Heq; simpl in Heq.
        -- by injection Heq as <- <- _.
        -- injection Heq as _ Heq. by eapply Hrest.
      * intros H. split; [by apply (H [] a b s)|].
        intros l1 a' b' l2 Heq. apply (H (a :: l1) a' b' l2).
        simpl. by f_equal.
Qed.

Lemma noSpaceRun_app_l s1 s2 : noSpaceRun (s1 ++ s2) = true → noSpaceRun s1 = true.
Proof.
  rewrite !noSpaceRun_spec. intros H l1 a b l2 ->.
  apply (H l1 a b (l2 ++ s2)). by rewrite <- !app_assoc.
Qed.

Lemma noSpaceRun_app_r s1 s2 : noSpaceRun (s1 ++ s2) = true → noSpaceRun s2 = true.
Proof.
  rewrite !noSpaceRun_spec. intros H l1 a b l2 ->.
  apply (H (s1 ++ l1) a b l2). by rewrite <- !app_assoc.
Qed.

Lemma trim_noSpaceRun s : noSpaceRun s = true → noSpaceRun (trim s) = true.
Proof.
  intros H. unfold trim.
  destruct (trimStart_suffix s) as [p Hp]. rewrite Hp in H.
  apply noSpaceRun_app_r in H.
  destruct (trimEnd_prefix (trimStart s)) as [q Hq]. rewrite Hq in H.
  by apply noSpaceRun_app_l in H.
Qed.

(** A string without a run of whitespace has no match of [/\s{2,}/]. *)
Lemma exec_spaces_Some prev s st :
  exec_at NLP.re_spaces prev s = Some st →
  ∃ a b run rest, s = a :: b :: run ++ rest
    ∧ isSpace a = true ∧ isSpace b = true
    ∧ Forall (fun c => isSpace c = true) run
    ∧ m_rest st = rest ∧ m_end st = S (S (length run)).
Proof.
  intros Hex. apply exec_at_sound in Hex as (Hm & _ & _).
  destruct Hm as (run & rest & Hs & Hall & Hlen & _ & ->). simpl in *.
  destruct run as [|a [|b run]]; simpl in Hlen; [lia..|].
  apply Forall_cons in Hall as [Ha Hall].
  apply Forall_cons in Hall as [Hb Hall].
  exists a, b, run, rest. by repeat split.
Qed.

Lemma noSpaceRun_search s prev idx :
  noSpaceRun s = true → search NLP.re_spaces prev idx s = None.
Proof.
  revert prev idx. induction s as [|c s IH]; intros prev idx Hs; simpl.
  - done.
  - destruct (exec_at NLP.re_spaces prev (c :: s)) as [st|] eqn:Hex.
    + apply exec_spaces_Some in Hex
        as (a & b & run & rest & Heq & Ha & Hb & _).
      rewrite noSpaceRun_spec in Hs.
      specialize (Hs [] a b (run ++ rest) Heq). by rewrite Ha, Hb in Hs.
    + apply IH. by apply (noSpaceRun_app_r [c]).
Qed.

Lemma noSpaceRun_test s : noSpaceRun s = true → test NLP.re_spaces s = false.
Proof.
  intros H. unfold test, re_match.
  by rewrite (noSpaceRun_search s None 0 H), bool_decide_eq_false.
Qed.

Lemma cleanTitle_fixed s :
  noSpaceRun s = true → noSpaceAtEnds s = true → NLP.cleanTitle s = s.
Proof.
  intros H1 H2. unfold NLP.cleanTitle.
  rewrite replaceAll_no_match by by apply noSpaceRun_test.
  by apply trim_fixed.
Qed.
End WhitespaceFacts.

Section CollapseFacts.

Lemma rep_zero_total p caps pos prev s :
  is_Some (rep p 0 None Some caps pos prev s).
Proof.
  revert pos prev. induction s as [|c s IH]; intros pos prev; simpl; [done|].
  destruct (p c); simpl; [|done].
  by destruct (rep p 0 None Some caps (S pos) (Some c) s).
Qed.

(** A greedy quantifier at the end of a pattern takes the whole run. *)
Lemma rep_maximal p lo caps pos prev s st :
  rep p lo None Some caps pos prev s = Some st →
  ∀ c, head (m_rest st) = Some c → p c = false.
Proof.
  revert lo pos prev. induction s as [|c s IH]; intros lo pos prev; simpl.
  - destruct lo; [|done]. by intros [= <-].
  - destruct (p c) eqn:Hp; simpl.
    + destruct (rep p (pred lo) None Some caps (S pos) (Some c) s)
        as [st'|] eqn:Hrec.
      * intros [= <-]. by eapply IH.
      * destruct lo as [|lo]; [|done].
        destruct (rep_zero_total p caps (S pos) (Some c) s) as [? H].
        simpl in Hrec. by rewrite H in Hrec.
    + destruct lo; [|done]. intros [= <-] c' [= <-]. exact Hp.
Qed.

Lemma exec_spaces_maximal prev s st :
  exec_at NLP.re_spaces prev s = Some st → is_space (head (m_rest st)) = false.
Proof.
  intros Hex. pose proof (rep_maximal _ _ _ _ _ _ _ Hex) as H.
  destruct (head (m_rest st)) as [c|]; [|done]. by apply H.
Qed.

Lemma exec_spaces_complete prev a b s :
  isSpace a = true → isSpace b = true →
  is_Some (exec_at NLP.re_spaces prev (a :: b :: s)).
Proof.
  intros Ha Hb. unfold exec_at, NLP.re_spaces. simpl. rewrite Ha, Hb. simpl.
  destruct (rep_zero_total isSpace [] 2 (Some b) s) as [st ->]. done.
Qed.

(** Passing over the rest of a match is dropping it. *)
Lemma scan_skip r s n prev :
  n ≤ length s →
  scan r n prev s = scan r 0 (from_option Some prev (last (take n s))) (drop n s).
Proof.
  revert n prev. induction s as [|c s IH]; intros n prev Hn; simpl in Hn.
  - by assert (n = 0) as -> by lia.
  - destruct n as [|n]; [done|].
    change (scan r (S n) prev (c :: s)) with (scan r n (Some c) s).
    rewrite IH by lia. simpl. f_equal.
    rewrite last_cons. by destruct (last (take n s)).
Qed.

Lemma noSpaceRun_cons x out :
  noSpaceRun (x :: out) = true
  ↔ isSpace x && is_space (head out) = false ∧ noSpaceRun out = true.
Proof.
  destruct out as [|y out].
  - simpl. rewrite andb_false_r. tauto.
  - change (noSpaceRun (x :: y :: out))
      with (negb (isSpace x && isSpace y) && noSpaceRun (y :: out)).
    rewrite andb_true_iff, negb_true_iff. done.
Qed.

Lemma collapse_good n s prev :
  length s ≤ n →
  let out := unhit (js " ") (scan NLP.re_spaces 0 prev s) in
  noSpaceRun out = true
  ∧ (is_space (head out) = true → is_space (head s) = true).
Proof.
  revert s prev. induction n as [|n IH]; intros s prev Hlen.
  - destruct s; [|simpl in Hlen; lia]. by simpl.
  - destruct s as [|c s]; [by simpl|]. simpl in Hlen.
    cbn [scan].
    destruct (exec_at NLP.re_spaces prev (c :: s)) as [st|] eqn:Hex.
    + pose proof (exec_spaces_maximal _ _ _ Hex) as Hmax.
      apply exec_spaces_Some in Hex
        as (a & b & run & rest & Heq & Ha & Hb & _ & Hrest & Hend).
      injection Heq as -> ->. rewrite Hend, Hrest in *.
      rewrite scan_skip by (simpl; rewrite length_app; lia).
      cbn [drop]. rewrite drop_app_length.
      cbn [unhit]. change (js " ") with [32%N]. cbn [app].
      destruct (IH rest (from_option Some (Some a)
                           (last (take (S (length run)) (b :: run ++ rest)))))
        as [Hrun Hhead].
      { simpl in Hlen. rewrite length_app in Hlen. lia. }
      split; [|by simpl; rewrite Ha].
      apply noSpaceRun_cons. split; [|exact Hrun].
      apply andb_false_iff. right.
      destruct (is_space (head (unhit _ _))) eqn:Hsp; [|done].
      by rewrite Hhead in Hmax.
    + cbn [unhit]. destruct (IH s (Some c)) as [Hrun Hhead]; [lia|].
      split; [|by simpl].
      apply noSpaceRun_cons. split; [|exact Hrun].
      destruct (isSpace c) eqn:Hc; [|done]. simpl.
      destruct (is_space (head (unhit _ _))) eqn:Hsp; [|done].
      specialize (Hhead eq_refl). destruct s as [|b s]; [done|].
      simpl in Hhead.
      destruct (exec_spaces_complete prev c b s Hc Hhead) as [? H].
      by rewrite H in Hex.
Qed.

Lemma cleanTitle_noSpaceRun s : noSpaceRun (NLP.cleanTitle s) = true.
Proof.
  unfold NLP.cleanTitle. apply trim_noSpaceRun.
  rewrite replaceAll_unhit.
  by apply (collapse_good (length s) s None).
Qed.

Lemma cleanTitle_noSpaceAtEnds s : noSpaceAtEnds (NLP.cleanTitle s) = true.
Proof. apply trim_noSpaceAtEnds. Qed.

Lemma cleanTitle_idemp s : NLP.cleanTitle (NLP.cleanTitle s) = NLP.cleanTitle s.
Proof.
  apply cleanTitle_fixed;
    [apply cleanTitle_noSpaceRun|apply cleanTitle_noSpaceAtEnds].
Qed.
End CollapseFacts.

(* ================================================================= *)
(** * The parser, step by step *)

Section ParserFacts.
Variable tz : Z.

Lemma markPriority_fold p r hs :
  foldl (fun st h => (NLP.markPriority p st h.1 h.2).1) r hs
  = match hs with [] => r | _ :: _ => NLP.set_priority p r end.
Proof.
  destruct hs as [|h hs]; [done|]. simpl.
  generalize (NLP.priority r). intros q. clear h.
  induction hs as [|h hs IH]; [done|]. exact IH.
Qed.

Lemma replaceWith_markPriority re p r s :
  replaceWith re (NLP.markPriority p) r s
  = (if test re s then NLP.set_priority p r else r, replaceAll re [] s).
Proof.
  rewrite (replaceWith_const re _ []) by done. f_equal.
  rewrite markPriority_fold.
  destruct (test re s) eqn:Ht.
  - destruct (hits (scan re 0 None s)) eqn:Hh; [|done].
    apply test_false_hits in Hh. congruence.
  - apply test_false_hits in Ht. by rewrite Ht.
Qed.

(** The priority step: the three patterns are applied in the order of the
    source, each to the text the one before left, and the last one that
    matched gives the priority. *)
Lemma priorityStep_spec r text :
  let t1 := replaceAll NLP.re_high [] text in
  let t2 := replaceAll NLP.re_med [] t1 in
  let t3 := replaceAll NLP.re_low [] t2 in
  NLP.priorityStep r text
  = (NLP.Result (NLP.title r) (NLP.dueAt r)
       (if test NLP.re_low t2 then low
        else if test NLP.re_med t1 then medium
        else if test NLP.re_high text then high
        else NLP.priority r)
       (NLP.tags r),
     t3).
Proof.
  intros t1 t2 t3. unfold NLP.priorityStep.
  rewrite !replaceWith_markPriority. fold t1 t2 t3. f_equal.
  destruct r as [ti du pr ta].
  by destruct (test NLP.re_low t2), (test NLP.re_med t1),
    (test NLP.re_high text).
Qed.

Lemma parseNLP_steps now text :
  NLP.parseNLP tz now text
  = (let '(r, t) := NLP.priorityStep (NLP.Result text None medium []) text in
     afterPriority tz now r t).
Proof. reflexivity. Qed.


(** The title is always the outcome of [cleanTitle]. *)
Lemma parseNLP_title_clean now text :
  ∃ t, NLP.title (NLP.parseNLP tz now text) = NLP.cleanTitle t.
Proof.
  unfold NLP.parseNLP.
  destruct (NLP.priorityStep _ text) as [r1 t1].
  destruct (NLP.tagStep r1 t1) as [r2 t2].
  destruct (NLP.dateStep tz now r2 t2) as [r3 t3].
  destruct (NLP.timeStep tz r3 t3) as [r4 t4].
  by exists t4.
Qed.

Lemma hasMarker_false s :
  hasMarker s = false →
  test NLP.re_high s = false ∧ test NLP.re_med s = false
  ∧ test NLP.re_low s = false ∧ test NLP.re_tag s = false
  ∧ test NLP.re_today s = false ∧ test NLP.re_tomorrow s = false
  ∧ test NLP.re_next_week s = false.
Proof. unfold hasMarker. rewrite !orb_false_iff. tauto. Qed.

(** A text without markers goes through every step unchanged. *)
Lemma parseNLP_no_marker now text :
  hasMarker text = false →
  NLP.parseNLP tz now text = NLP.Result (NLP.cleanTitle text) None medium [].
Proof.
  intros (Hh & Hm & Hl & Ht & Hd1 & Hd2 & Hd3)%hasMarker_false.
  unfold NLP.parseNLP, NLP.priorityStep, NLP.tagStep.
  rewrite !replaceWith_no_match by done.
  unfold NLP.dateStep. rewrite Hd1, Hd2, Hd3.
  unfold NLP.timeStep. simpl.
  by destruct (re_match NLP.re_time text).
Qed.
End ParserFacts.

(* ================================================================= *)
(** * Literal patterns *)

Section LiteralFacts.
Local Open Scope N_scope.

Lemma ci_eq_nil_inv w : ci_eq w [] → w = [].
Proof. unfold ci_eq. by destruct w. Qed.

Lemma ci_eq_cons_inv w c pat :
  ci_eq w (c :: pat) →
  ∃ x w', w = x :: w' ∧ canonicalize x = canonicalize c ∧ ci_eq w' pat.
Proof.
  unfold ci_eq. destruct w as [|x w']; [done|]. simpl.
  intros [= Hx Hw]. by exists x, w'.
Qed.

Lemma ci_eq_length w pat : ci_eq w pat → length w = length pat.
Proof.
  unfold ci_eq. intros H. apply (f_equal length) in H.
  by rewrite !length_fmap in H.
Qed.

(** What a match of a literal under the [i] flag consumes. *)
Lemma lit_ci_matches pat st st' :
  matches (lit_ci pat) st st' →
  ∃ w, m_rest st = w ++ m_rest st' ∧ ci_eq w pat
       ∧ m_end st' = (m_end st + length pat)%nat
       ∧ m_caps st' = m_caps st.
Proof.
  revert st. induction pat as [|c pat IH]; intros st Hm; simpl in Hm.
  - subst. exists []. simpl. repeat split. lia.
  - destruct Hm as (mid & (x & s' & Hrest & Hx & ->) & Hm).
    apply IH in Hm as (w & Hw & Hci & Hend & Hcaps). simpl in *.
    exists (x :: w). rewrite Hrest, Hw. repeat split; try done.
    + unfold ci_eq in *. rewrite !fmap_cons.
      apply N.eqb_eq in Hx. by rewrite Hx, Hci.
    + lia.
Qed.

(** A literal under the [i] flag matches a text that starts with it, up to
    case. *)
Lemma rmatch_lit_ci pat w post k prev pos caps :
  ci_eq w pat →
  rmatch (lit_ci pat) k (MState prev (w ++ post) pos caps)
  = k (MState (from_option Some prev (last w)) post (pos + length w)%nat caps).
Proof.
  revert w prev pos. induction pat as [|c pat IH]; intros w prev pos Hci.
  - apply ci_eq_nil_inv in Hci as ->. simpl. by rewrite Nat.add_0_r.
  - apply ci_eq_cons_inv in Hci as (x & w' & -> & Hx & Hci).
    simpl. rewrite Hx, N.eqb_refl.
    change (rmatch (foldr (fun c r => Seq (Chr (fun x => canonicalize x =? canonicalize c)) r) Eps pat))
      with (rmatch (lit_ci pat)).
    rewrite IH by done. f_equal. f_equal; [|lia].
    rewrite last_cons. by destruct (last w').
Qed.

Lemma exec_lit_ci_Some pat prev s st :
  exec_at (lit_ci pat) prev s = Some st → ci_eq (take (m_end st) s) pat.
Proof.
  intros Hex. apply exec_at_sound in Hex as (Hm & Hs & _).
  apply lit_ci_matches in Hm as (w & Hw & Hci & _). simpl in Hw.
  rewrite Hw in Hs at 1. apply app_inv_tail in Hs. by rewrite <- Hs.
Qed.

Lemma search_unfold r prev idx s :
  search r prev idx s
  = match exec_at r prev s with
    | Some st => Some (MatchResult idx (take (m_end st) s) (m_caps st))
    | None =>
        match s with
        | c :: s' => search r (Some c) (S idx) s'
        | [] => None
        end
    end.
Proof. by destruct s. Qed.

Lemma search_lit_ci pat pre w post prev idx :
  ci_eq w pat → is_Some (search (lit_ci pat) prev idx (pre ++ w ++ post)).
Proof.
  intros Hci. revert prev idx.
  induction pre as [|x pre IH]; intros prev idx; rewrite search_unfold.
  - cbn [app]. unfold exec_at. by rewrite rmatch_lit_ci by done.
  - destruct (exec_at (lit_ci pat) prev ((x :: pre) ++ w ++ post)); [done|].
    apply IH.
Qed.

Lemma contains_ci_test pat s : contains_ci pat s → test (lit_ci pat) s = true.
Proof.
  intros (pre & w & post & -> & Hci). unfold test, re_match.
  apply bool_decide_eq_true. by apply search_lit_ci.
Qed.

(** Facts on the code units of the priority markers. *)
Lemma canonicalize_bang c : canonicalize c = 33 → c = 33.
Proof.
  unfold canonicalize, in_range.
  destruct (97 <=? c) eqn:H1, (c <=? 122) eqn:H2; simpl; try done.
  apply N.leb_le in H1. lia.
Qed.

Lemma canonicalize_letter c p :
  canonicalize c = canonicalize p → in_range 97 122 p = true → c ≠ 33.
Proof.
  unfold canonicalize, in_range. intros H Hp. rewrite Hp in H.
  apply andb_true_iff in Hp as [Hp1 Hp2].
  apply N.leb_le in Hp1. apply N.leb_le in Hp2.
  destruct (97 <=? c) eqn:H1, (c <=? 122) eqn:H2; simpl in H; lia.
Qed.
End LiteralFacts.

(* ================================================================= *)
(** * The priority markers *)

Section MarkerFacts.
Local Open Scope N_scope.

Lemma ci_eq_app w1 w2 p1 p2 : ci_eq w1 p1 → ci_eq w2 p2 → ci_eq (w1 ++ w2) (p1 ++ p2).
Proof. unfold ci_eq. rewrite !fmap_app. by intros -> ->. Qed.

Lemma ci_eq_letters w pat :
  ci_eq w pat → Forall (fun p => in_range 97 122 p = true) pat →
  Forall (fun c => c ≠ 33) w.
Proof.
  revert w. induction pat as [|p pat IH]; intros w Hci Hall.
  - apply ci_eq_nil_inv in Hci as ->. constructor.
  - apply ci_eq_cons_inv in Hci as (x & w' & -> & Hx & Hci).
    apply Forall_cons in Hall as [Hp Hall].
    constructor; [by eapply canonicalize_letter|by apply IH].
Qed.

Lemma markerShape_intro w p1 pat :
  ci_eq w (33 :: p1 :: pat) →
  Forall (fun p => in_range 97 122 p = true) (p1 :: pat) →
  canonicalize p1 ≠ 76 → markerShape w.
Proof.
  intros Hci Hall Hp1.
  apply ci_eq_cons_inv in Hci as (x & w1 & -> & Hx & Hci).
  apply canonicalize_bang in Hx as ->.
  pose proof (ci_eq_letters _ _ Hci Hall) as Hw1.
  apply ci_eq_cons_inv in Hci as (c1 & w' & -> & Hc1 & Hci).
  exists c1, w'. repeat split; [by rewrite Hc1|done].
Qed.

Lemma exec_high_ci prev s st :
  exec_at NLP.re_high prev s = Some st → ci_eq (take (m_end st) s) (js "!high").
Proof. apply exec_lit_ci_Some. Qed.

Lemma exec_low_ci prev s st :
  exec_at NLP.re_low prev s = Some st → ci_eq (take (m_end st) s) (js "!low").
Proof. apply exec_lit_ci_Some. Qed.

Lemma exec_med_ci prev s st :
  exec_at NLP.re_med prev s = Some st →
  ci_eq (take (m_end st) s) (js "!med") ∨ ci_eq (take (m_end st) s) (js "!medium").
Proof.
  intros Hex. apply exec_at_sound in Hex as (Hm & Hs & _).
  destruct Hm as (mid & Hm1 & Hm2).
  apply lit_ci_matches in Hm1 as (w1 & Hw1 & Hci1 & Hend1 & _).
  simpl in Hw1, Hend1.
  destruct Hm2 as [(st1 & Hm2 & ->)| ->].
  - right. apply lit_ci_matches in Hm2 as (w2 & Hw2 & Hci2 & Hend2 & _).
    simpl in *. rewrite Hw1, Hw2, app_assoc in Hs at 1.
    apply app_inv_tail in Hs. rewrite <- Hs.
    by apply (ci_eq_app w1 w2 (js "!med") (js "ium")).
  - left. rewrite Hw1 in Hs at 1. apply app_inv_tail in Hs. by rewrite <- Hs.
Qed.

Lemma exec_high_shape prev s st :
  exec_at NLP.re_high prev s = Some st → markerShape (take (m_end st) s).
Proof.
  intros H%exec_high_ci. eapply markerShape_intro; [exact H| |done].
  by repeat constructor.
Qed.

Lemma exec_med_shape prev s st :
  exec_at NLP.re_med prev s = Some st → markerShape (take (m_end st) s).
Proof.
  intros [H|H]%exec_med_ci; (eapply markerShape_intro; [exact H| |done]);
    by repeat constructor.
Qed.

(** An occurrence of [!low] goes through the deletion of the matches of a
    pattern whose matches have the shape of the other markers. *)
Lemma exec_shape_head r prev c s :
  (∀ prev s st, exec_at r prev s = Some st → markerShape (take (m_end st) s)) →
  c ≠ 33 → exec_at r prev (c :: s) = None.
Proof.
  intros Hshape Hc.
  destruct (exec_at r prev (c :: s)) as [st|] eqn:Hex; [|done].
  apply Hshape in Hex as (c1 & w' & Heq & _).
  destruct (m_end st); simpl in Heq; [done|]. by injection Heq as -> _.
Qed.

Lemma exec_shape_low r prev a b s :
  (∀ prev s st, exec_at r prev s = Some st → markerShape (take (m_end st) s)) →
  canonicalize b = 76 → exec_at r prev (a :: b :: s) = None.
Proof.
  intros Hshape Hb.
  destruct (exec_at r prev (a :: b :: s)) as [st|] eqn:Hex; [|done].
  apply Hshape in Hex as (c1 & w' & Heq & Hc1 & _).
  destruct (m_end st) as [|[|n]]; simpl in Heq; [done..|].
  injection Heq as _ -> _. done.
Qed.

Lemma scan_low_here r w post prev :
  (∀ prev s st, exec_at r prev s = Some st → markerShape (take (m_end st) s)) →
  ci_eq w (js "!low") →
  (∃ tl, w ++ post = 33 :: tl)
  ∧ ∃ post', unhit [] (scan r 0 prev (w ++ post)) = w ++ post'.
Proof.
  intros Hshape Hci.
  apply ci_eq_cons_inv in Hci as (a & w1 & -> & Ha & Hci).
  apply canonicalize_bang in Ha as ->.
  apply ci_eq_cons_inv in Hci as (b & w2 & -> & Hb & Hci).
  apply ci_eq_cons_inv in Hci as (c & w3 & -> & Hc & Hci).
  apply ci_eq_cons_inv in Hci as (d & w4 & -> & Hd & Hci).
  apply ci_eq_nil_inv in Hci as ->.
  split; [by eexists|].
  exists (unhit [] (scan r 0 (Some d) post)).
  cbn [app scan].
  rewrite (exec_shape_low r prev 33 b) by done. cbn [unhit]. f_equal.
  rewrite (exec_shape_head r _ b) by (by eapply canonicalize_letter || done).
  cbn [unhit]. f_equal.
  rewrite (exec_shape_head r _ c) by (by eapply canonicalize_letter || done).
  cbn [unhit]. f_equal.
  rewrite (exec_shape_head r _ d) by (by eapply canonicalize_letter || done).
  done.
Qed.

Lemma scan_keeps_low r pre w post skip prev :
  (∀ prev s st, exec_at r prev s = Some st → markerShape (take (m_end st) s)) →
  ci_eq w (js "!low") →
  Forall (fun c => c ≠ 33) (take skip (pre ++ w ++ post)) →
  ∃ pre' post', unhit [] (scan r skip prev (pre ++ w ++ post)) = pre' ++ w ++ post'.
Proof.
  intros Hshape Hci.
  assert (Hhere := fun prev => scan_low_here r w post prev Hshape Hci).
  revert Hhere. generalize (w ++ post). intros tl Hhere.
  revert skip prev. induction pre as [|x pre IH]; intros skip prev Hskip.
  - destruct (Hhere prev) as [[tl' ->] [post' Hout]].
    destruct skip as [|n]; [|by apply Forall_cons in Hskip as [? _]].
    by exists [], post'.
  - destruct skip as [|n].
    + cbn [app scan].
      destruct (exec_at r prev (x :: pre ++ tl)) as [st|] eqn:Hex.
      * apply Hshape in Hex as (c1 & w' & Heq & _ & Hall).
        destruct (m_end st) as [|n]; [done|].
        cbn [take] in Heq. injection Heq as _ Heq.
        destruct (IH n (Some x)) as (pre' & post' & Hout).
        { by rewrite Heq. }
        exists pre', post'. cbn [unhit app]. exact Hout.
      * destruct (IH 0%nat (Some x)) as (pre' & post' & Hout); [constructor|].
        exists (x :: pre'), post'. cbn [unhit app]. by f_equal.
    + cbn [app scan]. apply IH.
      cbn [app take] in Hskip. by apply Forall_cons in Hskip as [_ ?].
Qed.

Lemma replaceAll_keeps_low r s :
  (∀ prev s st, exec_at r prev s = Some st → markerShape (take (m_end st) s)) →
  contains_ci (js "!low") s → contains_ci (js "!low") (replaceAll r [] s).
Proof.
  intros Hshape (pre & w & post & -> & Hci).
  destruct (scan_keeps_low r pre w post 0%nat None Hshape Hci)
    as (pre' & post' & Hout); [constructor|].
  rewrite replaceAll_unhit, Hout. by exists pre', w, post'.
Qed.

(** The tag step, and the fields the later steps leave alone. *)
Lemma tagStep_spec r s :
  NLP.tagStep r s
  = (NLP.Result (NLP.title r) (NLP.dueAt r) (NLP.priority r)
       (NLP.tags r ++ tagsOf (hits (scan NLP.re_tag 0 None s))),
     replaceAll NLP.re_tag [] s).
Proof.
  unfold NLP.tagStep. rewrite (replaceWith_const NLP.re_tag _ []) by done.
  f_equal. generalize (hits (scan NLP.re_tag 0 None s)). intros hs.
  revert r. induction hs as [|h hs IH]; intros r.
  - destruct r. simpl. by rewrite app_nil_r.
  - cbn [foldl]. rewrite IH. unfold tagsOf. simpl.
    by rewrite <- app_assoc.
Qed.

Lemma dateStep_priority tz now r t :
  NLP.priority (NLP.dateStep tz now r t).1 = NLP.priority r.
Proof.
  unfold NLP.dateStep.
  by destruct (test NLP.re_today t), (test NLP.re_tomorrow t),
    (test NLP.re_next_week t).
Qed.

Lemma timeStep_priority tz r t :
  NLP.priority (NLP.timeStep tz r t).1 = NLP.priority r.
Proof.
  unfold NLP.timeStep. by destruct (re_match NLP.re_time t), (NLP.dueAt r).
Qed.

Lemma afterPriority_priority tz now r t :
  NLP.priority (afterPriority tz now r t) = NLP.priority r.
Proof.
  unfold afterPriority. rewrite tagStep_spec.
  pose proof (dateStep_priority tz now
    (NLP.Result (NLP.title r) (NLP.dueAt r) (NLP.priority r)
       (NLP.tags r ++ tagsOf (hits (scan NLP.re_tag 0 None t))))
    (replaceAll NLP.re_tag [] t)) as Hd.
  destruct (NLP.dateStep tz now _ _) as [r3 t3].
  pose proof (timeStep_priority tz r3 t3) as Ht.
  destruct (NLP.timeStep tz r3 t3) as [r4 t4]. simpl in *. congruence.
Qed.
End MarkerFacts.

(* ================================================================= *)
(** * Dates *)

Section DateFacts.
Local Open Scope Z_scope.
Variable tz : Z.

Lemma localDay_compose day x :
  0 ≤ x < Date.msPerDay →
  Date.localDay tz (Date.UTC tz (day * Date.msPerDay + x)) = day
  ∧ Date.localTimeOfDay tz (Date.UTC tz (day * Date.msPerDay + x)) = x.
Proof.
  unfold Date.localDay, Date.localTimeOfDay, Date.Day, Date.TimeWithinDay,
    Date.LocalTime, Date.UTC, Date.msPerDay.
  intros Hx.
  replace (day * 86400000 + x - tz + tz) with (x + day * 86400000) by lia.
  rewrite Z.div_add, Z.mod_add by lia.
  rewrite Z.div_small, Z.mod_small by lia. lia.
Qed.


Lemma setHours_spec t h m s ms :
  0 ≤ Date.MakeTime h m s ms < Date.msPerDay →
  Date.localDay tz (Date.setHours tz t h m s ms) = Date.localDay tz t
  ∧ Date.localTimeOfDay tz (Date.setHours tz t h m s ms) = Date.MakeTime h m s ms.
Proof. intros H. by apply localDay_compose. Qed.


Lemma MakeTime_clock h m :
  0 ≤ h < 24 → 0 ≤ m < 60 → 0 ≤ Date.MakeTime h m 0 0 < Date.msPerDay.
Proof.
  unfold Date.MakeTime, Date.msPerDay, Date.msPerHour, Date.msPerMinute,
    Date.msPerSecond. lia.
Qed.
End DateFacts.

(* ================================================================= *)
(** * The date keywords and the time phrase *)

Section KeywordFacts.
Local Open Scope N_scope.


Lemma canonicalize_lower x p :
  canonicalize x = canonicalize p → in_range 97 122 p = true → asciiLower x = p.
Proof.
  unfold canonicalize, asciiLower, in_range. intros H Hp.
  rewrite Hp in H. apply andb_true_iff in Hp as [Hp1 Hp2].
  apply N.leb_le in Hp1. apply N.leb_le in Hp2.
  destruct (97 <=? x)%N eqn:H1, (x <=? 122)%N eqn:H2; simpl in H;
    destruct (65 <=? x)%N eqn:H3, (x <=? 90)%N eqn:H4; simpl;
    rewrite ?N.leb_le, ?N.leb_gt in *; lia.
Qed.

Lemma ci_eq_lower w pat :
  ci_eq w pat → Forall (fun p => in_range 97 122 p = true) pat →
  asciiLower <$> w = pat.
Proof.
  revert w. induction pat as [|p pat IH]; intros w Hci Hall.
  - by apply ci_eq_nil_inv in Hci as ->.
  - apply ci_eq_cons_inv in Hci as (x & w' & -> & Hx & Hci).
    apply Forall_cons in Hall as [Hp Hall].
    rewrite fmap_cons. f_equal; [by apply canonicalize_lower|by apply IH].
Qed.

(** [search] finds a position at which an attempt succeeds. *)
Lemma search_Some r s prev idx tm :
  search r prev idx s = Some tm →
  ∃ pre rest prev' st,
    s = pre ++ rest ∧ index tm = (idx + length pre)%nat
    ∧ exec_at r prev' rest = Some st
    ∧ matched tm = take (m_end st) rest ∧ groups tm = m_caps st.
Proof.
  revert prev idx. induction s as [|c s IH]; intros prev idx;
    rewrite search_unfold.
  - destruct (exec_at r prev []) as [st|] eqn:Hex; [|done].
    intros [= <-]. exists [], [], prev, st. simpl. repeat split; [lia|done].
  - destruct (exec_at r prev (c :: s)) as [st|] eqn:Hex.
    + intros [= <-]. exists [], (c :: s), prev, st. simpl.
      repeat split; [lia|done].
    + intros (pre & rest & prev' & st & -> & Hidx & Hex' & Hm & Hg)%IH.
      exists (c :: pre), rest, prev', st. simpl. repeat split; try done. lia.
Qed.

Local Opaque lit_ci.

(** A match of the time pattern: one or two digits in group 1, and in
    group 3 the letters [am] or [pm] in some case. *)
Lemma exec_time_groups prev s st :
  exec_at NLP.re_time prev s = Some st →
  ∃ g1 g3 caps,
    m_caps st = (3%nat, g3) :: caps
    ∧ head (List.filter (fun g => Nat.eqb g.1 1%nat) caps) = Some (1%nat, g1)
    ∧ Forall (fun c => isDigit c = true) g1
    ∧ (1 ≤ length g1 ≤ 2)%nat
    ∧ (asciiLower <$> g3 = js "am" ∨ asciiLower <$> g3 = js "pm").
Proof.
  intros Hex. apply exec_at_sound in Hex as (Hm & _ & _).
  destruct Hm as (m5 & (m4 & (m3 & (m2 & (m1 & [_ ->] & Hg1) & Hopt)
                              & Hsp) & Hg3) & [_ ->]).
  destruct Hg1 as (m1' & (run & s1 & Hs & Hdig & Hlo & Hhi & ->) & ->).
  simpl in Hs. subst s. simpl in *.
  specialize (Hhi 2%nat eq_refl).
  rewrite Nat.sub_0_r, take_app_length in *.
  destruct Hsp as (sp & s3 & Hs3 & _ & _ & _ & ->).
  destruct Hg3 as (m4' & Hlit & ->). simpl in *.
  assert (Hmer : asciiLower <$> take (m_end m4' - (m_end m3 + length sp))%nat s3
                 = js "am"
               ∨ asciiLower <$> take (m_end m4' - (m_end m3 + length sp))%nat s3
                 = js "pm").
  { destruct Hlit as [Hlit|Hlit];
      apply lit_ci_matches in Hlit as (w & Hw & Hci & Hend & _);
      simpl in Hw, Hend; rewrite Hend, Hw;
      replace (m_end m3 + length sp + 2 - (m_end m3 + length sp))%nat with 2%nat
        by lia;
      rewrite take_app_length' by (by rewrite (ci_eq_length _ _ Hci));
      [left|right]; apply ci_eq_lower; try done; by repeat constructor. }
  assert (Hcaps4 : m_caps m4' = m_caps m3).
  { destruct Hlit as [Hlit|Hlit];
      by apply lit_ci_matches in Hlit as (w & _ & _ & _ & ->). }
  rewrite Hcaps4.
  destruct Hopt as [(m2' & (c & s' & Hc & _ & ->) & Hg2)| ->].
  - destruct Hg2 as (m2'' & (run2 & s2 & _ & _ & _ & _ & ->) & ->). simpl.
    eexists run, _, _. split; [done|]. simpl.
    repeat split; [done|lia|lia|done].
  - simpl. eexists run, _, _. split; [done|]. simpl.
    repeat split; [done|lia|lia|done].
Qed.
End KeywordFacts.

Section TimeFacts.

Lemma re_match_time_groups t tm :
  re_match NLP.re_time t = Some tm →
  ∃ g1 g3,
    group tm 1 = Some g1 ∧ group tm 3 = Some g3
    ∧ Forall (fun c => isDigit c = true) g1 ∧ 1 ≤ length g1 ≤ 2
    ∧ (asciiLower <$> g3 = js "am" ∨ asciiLower <$> g3 = js "pm").
Proof.
  intros (pre & rest & prev & st & _ & _ & Hex & _ & Hg)%search_Some.
  apply exec_time_groups in Hex as (g1 & g3 & caps & Hcaps & H1 & Hd & Hl & Hm).
  exists g1, g3. unfold group. rewrite Hg, Hcaps. simpl. rewrite H1.
  by repeat (split; [done|]).
Qed.

(** The match of [s.match(re)] sits at its index. *)
Lemma re_match_at r t tm :
  re_match r t = Some tm →
  t = take (index tm) t ++ matched tm ++ drop (index tm + length (matched tm)) t
  ∧ index tm + length (matched tm) ≤ length t.
Proof.
  intros (pre & rest & prev & st & -> & Hidx & Hex & Hm & _)%search_Some.
  apply exec_at_sound in Hex as (_ & Hrest & Hlen).
  simpl in Hidx. rewrite Hidx, Hm.
  rewrite take_app_length, length_take, Nat.min_l by done.
  rewrite drop_app_add, length_app.
  split; [by rewrite take_drop|lia].
Qed.

Lemma startsWith_app needle rest : startsWith needle (needle ++ rest) = true.
Proof.
  induction needle as [|n needle IH]; [done|]. simpl.
  by rewrite N.eqb_refl, IH.
Qed.

Lemma replaceFirst_unfold needle repl s :
  replaceFirst needle repl s
  = if startsWith needle s then repl ++ drop (length needle) s
    else match s with
         | c :: s' => c :: replaceFirst needle repl s'
         | [] => []
         end.
Proof. by destruct s. Qed.

(** [replace] with a string pattern removes the first occurrence. *)
Lemma replaceFirst_at needle pre rest :
  (∀ i, i < length pre → startsWith needle (drop i (pre ++ needle ++ rest)) = false) →
  replaceFirst needle [] (pre ++ needle ++ rest) = pre ++ rest.
Proof.
  induction pre as [|x pre IH]; intros Hfirst; rewrite replaceFirst_unfold.
  - simpl. by rewrite startsWith_app, drop_app_length.
  - pose proof (Hfirst 0 ltac:(simpl; lia)) as H0. rewrite drop_0 in H0.
    rewrite H0. simpl. f_equal. apply IH.
    intros i Hi. apply (Hfirst (S i)). simpl. lia.
Qed.

Lemma to24_spec mer h :
  (mer = js "pm" → h ≠ 12%Z → NLP.to24 mer h = (h + 12)%Z)
  ∧ (mer = js "pm" → h = 12%Z → NLP.to24 mer h = 12%Z)
  ∧ (mer = js "am" → h = 12%Z → NLP.to24 mer h = 0%Z)
  ∧ (mer = js "am" → h ≠ 12%Z → NLP.to24 mer h = h).
Proof.
  unfold NLP.to24. repeat split; intros -> Hh.
  - change (jseqb (js "pm") (js "pm")) with true.
    change (jseqb (js "pm") (js "am")) with false.
    apply Z.eqb_neq in Hh. by rewrite Hh.
  - by subst.
  - by subst.
  - change (jseqb (js "am") (js "pm")) with false.
    change (jseqb (js "am") (js "am")) with true.
    apply Z.eqb_neq in Hh. cbn [andb]. by rewrite Hh.
Qed.
End TimeFacts.

(* ================================================================= *)
(** * The query pipeline: view, filters, sort *)

Section QueryClaims.
Variable tz : Z.
Variable toLowerCase : jsstring → jsstring.
Variable localeCompare : jsstring → jsstring → Z.

Abbreviation query := (getFilteredTasks tz toLowerCase localeCompare).

Lemma tagFilter_None t : tagFilter None t = true.
Proof. done. Qed.

Lemma dueFilter_empty now t : dueFilter tz now [] t = true.
Proof. done. Qed.

Lemma priorityFilter_nil t : priorityFilter [] t = true.
Proof. done. Qed.

Lemma priorityFilter_mono ps ps' t :
  ps ≠ [] → (∀ p, p ∈ ps → p ∈ ps') →
  priorityFilter ps t = true → priorityFilter ps' t = true.
Proof.
  intros Hne Hsub. unfold priorityFilter.
  destruct ps as [|p ps]; [done|]. simpl.
  rewrite bool_decide_eq_true. intros Hin.
  destruct ps' as [|p' ps']; [by apply Hsub, elem_of_nil in Hin|].
  simpl. rewrite bool_decide_eq_true. by apply Hsub.
Qed.

(** C1 (amended): a tag filter or a due-date bucket added to a query that
    has none, and a first priority selected when none is, never increase
    the number of tasks in the result.  A further priority added to a
    selection that is not empty widens the accepted set: it never
    decreases the number of tasks in the result. *)
Theorem filtering_monotone now st :
  (∀ tag, length (query now (set_filterTag (Some tag) st))
          ≤ length (query now (set_filterTag None st)))
  ∧ (∀ due, length (query now (set_filterDue due st))
            ≤ length (query now (set_filterDue [] st)))
  ∧ (∀ p, length (query now (set_filterPriorities [p] st))
          ≤ length (query now (set_filterPriorities [] st)))
  ∧ (∀ ps1 ps2 p, ps1 ++ ps2 ≠ [] →
       length (query now (set_filterPriorities (ps1 ++ ps2) st))
       ≤ length (query now (set_filterPriorities (ps1 ++ p :: ps2) st))).
Proof.
  repeat split.
  - intros tag. apply query_length_mono; [done|]. intros t.
    unfold passes; simpl. rewrite !andb_true_iff. tauto.
  - intros due. apply query_length_mono; [done|]. intros t.
    unfold passes; simpl. rewrite !andb_true_iff. tauto.
  - intros p. apply query_length_mono; [done|]. intros t.
    unfold passes; simpl. rewrite !andb_true_iff. tauto.
  - intros ps1 ps2 p Hne. apply query_length_mono; [done|]. intros t.
    unfold passes; simpl. rewrite !andb_true_iff.
    intros ((((Hv & Ht) & Hp) & Hd) & Hs). repeat split; try done.
    revert Hp. apply priorityFilter_mono; [done|].
    intros q. rewrite !elem_of_app, elem_of_cons. tauto.
Qed.

(** C7: with the view [completed] and no tag, priority, due-date or search
    constraint, the result holds exactly the tasks whose [completedAt] is
    set, whatever their due dates and priorities, in the order of the
    sort. *)
Theorem completed_view_exact now ts sortKey :
  let st := MkState ts (js "completed") [] sortKey [] [] None in
  query now st
    = sort (compareTasks localeCompare sortKey) (List.filter isCompleted ts)
  ∧ query now st ≡ₚ List.filter isCompleted ts
  ∧ ∀ t, t ∈ query now st ↔ t ∈ ts ∧ completedAt t ≠ None.
Proof.
  intros st.
  assert (Hq : query now st
    = sort (compareTasks localeCompare sortKey) (List.filter isCompleted ts)).
  { rewrite getFilteredTasks_passes. simpl. f_equal.
    apply filter_ext. intros t. unfold passes. simpl.
    change (viewFilter tz now (js "completed") t) with (isCompleted t).
    by rewrite !andb_true_r. }
  split; [exact Hq|]. split.
  - rewrite Hq. apply sort_perm.
  - intros t. rewrite Hq, sort_perm, !list_elem_of_In, filter_In.
    unfold isCompleted. rewrite bool_decide_eq_true, <- not_eq_None_Some.
    done.
Qed.


Lemma compareTasks_custom a b :
  compareTasks localeCompare (js "custom") a b = (order a - order b)%Z.
Proof. reflexivity. Qed.



Lemma maxOf_ge x xs : (x ≤ maxOf x xs)%Z ∧ Forall (fun y => (y ≤ maxOf x xs)%Z) xs.
Proof.
  unfold maxOf. revert x. induction xs as [|y xs IH]; intros x; simpl.
  - split; [lia|constructor].
  - destruct (IH (Z.max x y)) as [H1 H2]. split; [lia|].
    constructor; [lia|exact H2].
Qed.

Lemma maxOf_in x xs : maxOf x xs ∈ x :: xs.
Proof.
  unfold maxOf. revert x. induction xs as [|y xs IH]; intros x; simpl.
  - apply elem_of_cons; by left.
  - specialize (IH (Z.max x y)). rewrite !elem_of_cons in *.
    destruct (Z.max_spec x y) as [[_ Hm]|[_ Hm]]; rewrite Hm in *; tauto.
Qed.

Lemma createTask_order_given nowC nowU nowO nowO' fresh data o :
  data_order data = Some o →
  createTask nowC nowU nowO fresh data = createTask nowC nowU nowO' fresh data.
Proof. intros Ho. unfold createTask. by rewrite Ho. Qed.

Lemma roundNumber_safe z : (Z.abs z ≤ 2 ^ 53)%Z → roundNumber z = z.
Proof.
  intros Hz. unfold roundNumber.
  destruct (Z.log2 (Z.abs z) - 52 <=? 0)%Z eqn:He; [done|].
  apply Z.leb_gt in He.
  assert (Hlog : (53 ≤ Z.log2 (Z.abs z))%Z) by lia.
  assert (Hpos : (0 < Z.abs z)%Z).
  { destruct (Z.eq_dec (Z.abs z) 0%Z) as [H0|H0]; [|lia].
    rewrite H0 in Hlog. simpl in Hlog. lia. }
  apply Z.log2_le_pow2 in Hlog; [|done].
  assert (Habs : Z.abs z = (2 ^ 53)%Z) by lia.
  destruct (Z.abs_spec z) as [[_ Hz']|[_ Hz']]; rewrite Hz' in Habs.
  - by subst z.
  - assert (z = (- 2 ^ 53)%Z) as -> by lia. done.
Qed.

Lemma addTask_order nowC nowU fresh data st :
  Forall safeOrder (tasks st) →
  order (addTask nowC nowU fresh data st).1
  = match order <$> tasks st with
    | [] => 0%Z
    | o :: os => (maxOf o os + 1)%Z
    end.
Proof.
  intros Hsafe.
  change (order (addTask nowC nowU fresh data st).1)
    with (match order <$> tasks st with
          | [] => 0
          | o :: os => roundNumber (maxOf o os + 1)
          end)%Z.
  destruct (tasks st) as [|t0 ts] eqn:Hts; [done|].
  rewrite fmap_cons. apply roundNumber_safe.
  pose proof (maxOf_in (order t0) (order <$> ts)) as Hin.
  change (maxOf (order t0) (order <$> ts) ∈ order <$> (t0 :: ts)) in Hin.
  apply list_elem_of_fmap in Hin as (t & -> & Hin).
  rewrite Forall_forall in Hsafe. specialize (Hsafe t Hin).
  unfold safeOrder in Hsafe. lia.
Qed.

Lemma addTask_order_above nowC nowU fresh data st t :
  Forall safeOrder (tasks st) →
  t ∈ tasks st → (order t < order (addTask nowC nowU fresh data st).1)%Z.
Proof.
  intros Hsafe Ht. rewrite addTask_order by done.
  apply (list_elem_of_fmap_2 order) in Ht.
  destruct (order <$> tasks st) as [|o os]; [by apply elem_of_nil in Ht|].
  destruct (maxOf_ge o os) as [H1 H2]. rewrite Forall_forall in H2.
  apply elem_of_cons in Ht as [->|Ht]; [lia|]. apply H2 in Ht. lia.
Qed.

(** C10 (amended): [addTask] stores the new task at the front of the
    array.  When every stored order is a safe integer, the order of the
    new task is one above the greatest stored order (0 when there is no
    task), so under the [custom] sort the new task, when it passes the
    filters, comes after every task that was there before. *)
Theorem addTask_order_last nowC nowU fresh data st now' :
  sortBy st = js "custom" →
  Forall safeOrder (tasks st) →
  let task := (addTask nowC nowU fresh data st).1 in
  let st' := (addTask nowC nowU fresh data st).2 in
  tasks st' = task :: tasks st
  ∧ (tasks st = [] → order task = 0%Z)
  ∧ (tasks st ≠ [] →
     ∃ t, t ∈ tasks st ∧ (∀ t', t' ∈ tasks st → (order t' ≤ order t)%Z)
          ∧ order task = (order t + 1)%Z)
  ∧ (∀ t, t ∈ tasks st → (order t < order task)%Z)
  ∧ query now' st'
    = query now' st
      ++ (if passes tz toLowerCase now' st' task then [task] else []).
Proof.
  intros Hsort Hsafe task st'.
  pose proof (addTask_order nowC nowU fresh data st Hsafe) as Hord.
  fold task in Hord.
  assert (Hlt : ∀ t, t ∈ tasks st → (order t < order task)%Z).
  { intros t Ht. by apply addTask_order_above. }
  split; [done|]. split; [|split; [|split; [exact Hlt|]]].
  - intros Hnil. by rewrite Hord, Hnil.
  - intros Hne. rewrite Hord.
    destruct (tasks st) as [|t0 ts] eqn:Hts; [done|].
    change (∃ t, t ∈ t0 :: ts
                 ∧ (∀ t', t' ∈ t0 :: ts → (order t' ≤ order t)%Z)
                 ∧ (maxOf (order t0) (order <$> ts) + 1 = order t + 1)%Z).
    pose proof (maxOf_in (order t0) (order <$> ts)) as Hin.
    change (maxOf (order t0) (order <$> ts) ∈ order <$> (t0 :: ts)) in Hin.
    apply list_elem_of_fmap in Hin as (t & Heq & Hin).
    exists t. split; [done|]. split; [|by rewrite Heq].
    intros t' Ht'. rewrite <- Heq.
    destruct (maxOf_ge (order t0) (order <$> ts)) as [H1 H2].
    rewrite Forall_forall in H2.
    apply elem_of_cons in Ht' as [->|Ht']; [done|].
    apply H2. by apply list_elem_of_fmap_2.
  - rewrite !getFilteredTasks_passes.
    change (sortBy st') with (sortBy st).
    change (tasks st') with (task :: tasks st).
    change (passes tz toLowerCase now' st)
      with (passes tz toLowerCase now' st').
    cbn [List.filter]. destruct (passes tz toLowerCase now' st' task).
    + rewrite sort_cons. apply insertSorted_last.
      rewrite Forall_forall. intros y Hy. rewrite sort_perm in Hy.
      apply list_elem_of_In, filter_In in Hy as [Hy _].
      apply list_elem_of_In, Hlt in Hy.
      rewrite Hsort, compareTasks_custom. lia.
    + by rewrite app_nil_r.
Qed.
End QueryClaims.

(** C1 as stated fails: with [high] selected, a task of priority [low] is
    filtered out; selecting [low] as well brings it back. *)
Lemma adding_priority_can_grow :
  let t := sampleTask "t1" 0 None None low in
  let st := MkState [t] (js "all") [] (js "custom") [high] [] None in
  let st' := set_filterPriorities [high; low] st in
  ¬ (length (getFilteredTasks 0 sampleLower sampleCompare 0 st')
     ≤ length (getFilteredTasks 0 sampleLower sampleCompare 0 st))%nat.
Proof. vm_compute. lia. Qed.

Lemma filtering_monotone_witness :
  let t := sampleTask "t1" 0 None None low in
  let st := MkState [t] (js "all") [] (js "custom") [] [] None in
  (length (getFilteredTasks 0 sampleLower sampleCompare 0
             (set_filterPriorities ([high] ++ []) st))
   ≤ length (getFilteredTasks 0 sampleLower sampleCompare 0
               (set_filterPriorities ([high] ++ low :: []) st)))%nat.
Proof.
  intros t st.
  apply (proj2 (proj2 (proj2
    (filtering_monotone 0 sampleLower sampleCompare 0 st))) [high] [] low).
  discriminate.
Defined.

Lemma addTask_order_last_witness :
  let st := MkState [sampleTask "a" 5 None None low;
                      sampleTask "b" 2 None None high]
              (js "all") [] (js "custom") [] [] None in
  let data := MkTaskData None (Some (js "c")) None None None None None None
                None None None None None in
  order (addTask 7 8 (js "t_7") data st).1 = 6%Z
  ∧ (title <$> getFilteredTasks 0 sampleLower sampleCompare 9
                 (addTask 7 8 (js "t_7") data st).2)
    = [js "b"; js "a"; js "c"].
Proof.
  intros st data.
  assert (Hsafe : Forall safeOrder (tasks st)).
  { repeat constructor; unfold safeOrder; simpl; lia. }
  pose proof (addTask_order_last 0 sampleLower sampleCompare 7 8 (js "t_7")
                data st 9 eq_refl Hsafe) as (_ & _ & _ & _ & Hq).
  split; [reflexivity|]. rewrite Hq. reflexivity.
Defined.

(** C10 as stated fails: from 2^53 on, adding 1 to a Number can give the
    Number back.  After a task with order 2^53, which an import can
    bring, the new task gets the order 2^53 as well, and the [custom]
    sort, which is stable, leaves it at the front, before the task that
    was there. *)
Lemma addTask_order_ties_beyond_safe :
  let old := sampleTask "old" (2 ^ 53) None None low in
  let st := MkState [old] (js "all") [] (js "custom") [] [] None in
  let data := MkTaskData None (Some (js "new")) None None None None None None
                None None None None None in
  order (addTask 7 8 (js "t_7") data st).1 = order old
  ∧ (title <$> getFilteredTasks 0 sampleLower sampleCompare 9
                 (addTask 7 8 (js "t_7") data st).2)
    = [js "new"; js "old"].
Proof. split; reflexivity. Qed.

(* ================================================================= *)
(** * Reordering *)

Lemma list_find_unique_id (ts : list Task) i a :
  NoDup (id <$> ts) → ts !! i = Some a →
  list_find (fun t => id t = id a) ts = Some (i, a).
Proof.
  intros Hnd Hi. apply list_find_Some. split; [done|]. split; [done|].
  intros k y Hk Hlt Heq.
  assert (k = i); [|lia].
  eapply NoDup_lookup; [exact Hnd| |].
  - rewrite list_lookup_fmap, Hk. simpl. by rewrite Heq.
  - by rewrite list_lookup_fmap, Hi.
Qed.

Lemma sameButOrder_swap now v t :
  sameButOrder t (set_updatedAt now (set_order v t)).
Proof. by repeat split. Qed.

Lemma list_find_firstCarrier (ts : list Task) i a :
  firstCarrier ts i a → list_find (fun t => id t = id a) ts = Some (i, a).
Proof.
  intros [Hi Hfirst]. apply list_find_Some. split; [done|]. split; [done|].
  intros k y Hk Hlt. by eapply Hfirst.
Qed.

Lemma firstCarrier_NoDup (ts : list Task) i a :
  NoDup (id <$> ts) → ts !! i = Some a → firstCarrier ts i a.
Proof.
  intros Hnd Hi. split; [done|]. intros k y Hk Hlt Heq.
  assert (k = i); [|lia].
  eapply NoDup_lookup; [exact Hnd| |].
  - rewrite list_lookup_fmap, Hk. simpl. by rewrite Heq.
  - by rewrite list_lookup_fmap, Hi.
Qed.

(** C9 (amended): [reorderTasks] acts on the first task that carries each
    of the two identifiers.  For two tasks A and B at different positions,
    each the first to carry its identifier, which is every task of a
    collection whose identifiers are unique, it gives A the order of B and
    B the order of A; both get the current instant as [updatedAt] and keep
    every other field; every other task, the length of the collection and
    the rest of the state are unchanged. *)
Theorem reorderTasks_swaps now st i j a b :
  firstCarrier (tasks st) i a → firstCarrier (tasks st) j b → i ≠ j →
  let st' := reorderTasks now (id a) (id b) st in
  (∃ a' b',
      tasks st' !! i = Some a' ∧ tasks st' !! j = Some b'
      ∧ order a' = order b ∧ order b' = order a
      ∧ updatedAt a' = now ∧ updatedAt b' = now
      ∧ sameButOrder a a' ∧ sameButOrder b b')
  ∧ (∀ k, k ≠ i → k ≠ j → tasks st' !! k = tasks st !! k)
  ∧ length (tasks st') = length (tasks st)
  ∧ st' = set_tasks (tasks st') st
  ∧ (NoDup (id <$> tasks st) →
     ∀ k x, tasks st !! k = Some x → firstCarrier (tasks st) k x).
Proof.
  intros Ha Hb Hij st'.
  pose proof Ha as [Hi _]. pose proof Hb as [Hj _].
  assert (Hst : tasks st'
    = alter (set_updatedAt now) i
        (alter (set_updatedAt now) j
           (alter (set_order (order a)) j
              (alter (set_order (order b)) i (tasks st))))).
  { unfold st', reorderTasks.
    by rewrite (list_find_firstCarrier _ i a), (list_find_firstCarrier _ j b). }
  split; [|split; [|split; [|split]]].
  - exists (set_updatedAt now (set_order (order b) a)),
           (set_updatedAt now (set_order (order a) b)).
    rewrite Hst. split; [|split].
    + rewrite list_lookup_alter_eq, !list_lookup_alter_ne by done.
      by rewrite list_lookup_alter_eq, Hi.
    + rewrite list_lookup_alter_ne, !list_lookup_alter_eq by done.
      by rewrite list_lookup_alter_ne, Hj by done.
    + repeat split.
  - intros k Hki Hkj. rewrite Hst.
    by rewrite !list_lookup_alter_ne by done.
  - by rewrite Hst, !length_alter.
  - unfold st', reorderTasks.
    by rewrite (list_find_firstCarrier _ i a), (list_find_firstCarrier _ j b).
  - intros Hnd k x Hx. by apply firstCarrier_NoDup.
Qed.

Lemma reorderTasks_swaps_witness :
  let A := sampleTask "A" 1 None None medium in
  let B := sampleTask "B" 2 None None medium in
  let C := sampleTask "C" 3 None None medium in
  let B2 := sampleTask "B" 4 None None medium in
  let st := MkState [A; B; C; B2] (js "all") [] (js "custom") [] [] None in
  (order <$> tasks (reorderTasks 42 (js "A") (js "B") st)) = [2; 1; 3; 4]%Z
  ∧ tasks (reorderTasks 42 (js "A") (js "B") st) !! 2%nat = Some C
  ∧ tasks (reorderTasks 42 (js "A") (js "B") st) !! 3%nat = Some B2.
Proof.
  intros A B C B2 st.
  assert (Ha : firstCarrier (tasks st) 0 A).
  { split; [reflexivity|]. intros k y _ Hk. lia. }
  assert (Hb : firstCarrier (tasks st) 1 B).
  { split; [reflexivity|]. intros k y Hy Hk.
    destruct k as [|k]; [|lia]. injection Hy as <-. discriminate. }
  pose proof (reorderTasks_swaps 42 st 0 1 A B Ha Hb ltac:(discriminate))
    as (_ & Hk & _).
  split; [reflexivity|]. split.
  - exact (Hk 2%nat ltac:(discriminate) ltac:(discriminate)).
  - exact (Hk 3%nat ltac:(discriminate) ltac:(discriminate)).
Defined.

(** C9 as stated fails: identifiers need not be unique (an imported file
    can hold two objects with one identifier), and [find] returns the
    first task that carries an identifier.  Dragging B2, which shares its
    identifier with the earlier task B, onto A leaves the order of B2 as
    it is, and swaps the orders of B and A. *)
Lemma reorderTasks_duplicate_id :
  let A := sampleTask "A" 1 None None medium in
  let B := sampleTask "B" 2 None None medium in
  let B2 := sampleTask "B" 3 None None medium in
  let st := MkState [A; B; B2] (js "all") [] (js "custom") [] [] None in
  let st' := reorderTasks 42 (id B2) (id A) st in
  B2 ≠ A ∧ B2 ≠ B
  ∧ (order <$> tasks st') = [2; 1; 3]%Z
  ∧ tasks st' !! 2%nat = Some B2
  ∧ ¬ (∃ a' b2', tasks st' !! 0%nat = Some a' ∧ tasks st' !! 2%nat = Some b2'
                 ∧ order a' = order B2 ∧ order b2' = order A).
Proof.
  intros A B B2 st st'.
  split; [discriminate|]. split; [discriminate|].
  split; [reflexivity|]. split; [reflexivity|].
  intros (a' & b2' & _ & [= <-] & _ & Hb). discriminate.
Qed.

(* ================================================================= *)
(** * Deleting every occurrence *)

(** The global replacement by the empty string deletes every occurrence,
    when the pattern matches at a position exactly where an occurrence
    starts. *)
Section StripFacts.
Variable r : regex.
Variable M : option char → jsstring → jsstring → Prop.

Hypothesis sound : ∀ prev s st,
  exec_at r prev s = Some st →
  0 < m_end st ∧ M prev (take (m_end st) s) (drop (m_end st) s).
Hypothesis complete : ∀ prev m rest,
  M prev m rest → is_Some (exec_at r prev (m ++ rest)).

Lemma scan_strips s skip prev :
  skip ≤ length s →
  strips M (from_option Some prev (last (take skip s))) (drop skip s)
    (unhit [] (scan r skip prev s)).
Proof.
  revert skip prev. induction s as [|c s IH]; intros skip prev Hskip;
    simpl in Hskip.
  - assert (skip = 0) as -> by lia. cbn.
    destruct (exec_at r prev []) as [st|] eqn:Hex; [|constructor].
    pose proof (exec_at_sound _ _ _ _ Hex) as (_ & _ & Hlen).
    apply sound in Hex as [Hpos _]. simpl in Hlen. lia.
  - destruct skip as [|n].
    + cbn [take last from_option drop scan].
      destruct (exec_at r prev (c :: s)) as [st|] eqn:Hex.
      * pose proof (exec_at_sound _ _ _ _ Hex) as (_ & _ & Hlen).
        apply sound in Hex as [Hpos HM]. simpl in Hlen.
        destruct (m_end st) as [|n]; [lia|].
        cbn [unhit app]. cbn [take drop] in HM.
        rewrite <- (take_drop n s) at 1.
        change (c :: take n s ++ drop n s) with ((c :: take n s) ++ drop n s).
        apply strips_hit; [done|exact HM|].
        rewrite last_cons.
        replace (match last (take n s) with Some y => Some y | None => Some c end)
          with (from_option Some (Some c) (last (take n s)))
          by (by destruct (last (take n s))).
        apply IH. lia.
      * cbn [unhit]. apply strips_keep.
        -- intros m rest Heq HM. apply complete in HM.
           rewrite <- Heq, Hex in HM. by destruct HM.
        -- apply (IH 0 (Some c)). lia.
    + cbn [scan drop]. cbn [take]. rewrite last_cons.
      replace (from_option Some prev
                 (match last (take n s) with Some y => Some y | None => Some c end))
        with (from_option Some (Some c) (last (take n s)))
        by (by destruct (last (take n s))).
      apply IH. lia.
Qed.

Lemma replaceAll_strips s : strips M None s (replaceAll r [] s).
Proof.
  rewrite replaceAll_unhit. apply (scan_strips s 0 None). lia.
Qed.
End StripFacts.

(** Every occurrence is deleted in one way only. *)
Section StripsFunctional.
Variable M : option char → jsstring → jsstring → Prop.
Hypothesis unique : ∀ prev m rest m' rest',
  M prev m rest → M prev m' rest' → m ++ rest = m' ++ rest' → m = m'.

Lemma strips_functional prev s out1 out2 :
  strips M prev s out1 → strips M prev s out2 → out1 = out2.
Proof.
  intros H1. revert out2.
  induction H1 as [prev|prev m rest out Hne HM H1 IH|prev c s out Hno H1 IH];
    intros out2 H2.
  - remember [] as s eqn:Hs.
    destruct H2 as [prev|prev m' rest' out2 Hne' HM' H2|prev c s out2 Hno' H2].
    + done.
    + apply app_eq_nil in Hs as [-> _]. done.
    + done.
  - remember (m ++ rest) as s eqn:Hs.
    destruct H2 as [prev|prev m' rest' out2 Hne' HM' H2|prev c s out2 Hno' H2].
    + symmetry in Hs. apply app_eq_nil in Hs as [-> _]. done.
    + assert (m = m') as <- by (symmetry; by eapply unique).
      apply app_inv_head in Hs as ->. by apply IH.
    + exfalso. by eapply Hno'.
  - remember (c :: s) as s0 eqn:Hs.
    destruct H2 as [prev|prev m' rest' out2 Hne' HM' H2|prev c' s' out2 Hno' H2].
    + done.
    + exfalso. by eapply Hno.
    + injection Hs as -> ->. f_equal. by apply IH.
Qed.
End StripsFunctional.

Section OccurrenceFacts.
Local Open Scope N_scope.

Lemma ci_eq_app_inv w p1 p2 :
  ci_eq w (p1 ++ p2) →
  ∃ w1 w2, w = w1 ++ w2 ∧ ci_eq w1 p1 ∧ ci_eq w2 p2.
Proof.
  revert w. induction p1 as [|p p1 IH]; intros w Hci.
  - by exists [], w.
  - apply ci_eq_cons_inv in Hci as (x & w' & -> & Hx & Hci).
    apply IH in Hci as (w1 & w2 & -> & H1 & H2).
    exists (x :: w1), w2. split; [done|]. split; [|done].
    unfold ci_eq in *. rewrite !fmap_cons. by rewrite Hx, H1.
Qed.

Lemma ci_eq_unique m m' rest rest' pat :
  ci_eq m pat → ci_eq m' pat → m ++ rest = m' ++ rest' → m = m'.
Proof.
  intros H1%ci_eq_length H2%ci_eq_length Heq.
  apply app_inj_1 in Heq as [? _]; [done|congruence].
Qed.

Lemma ci_eq_nonempty m p pat : ci_eq m (p :: pat) → m ≠ [].
Proof. by intros (x & w & -> & _)%ci_eq_cons_inv. Qed.

(** Literals *)
Lemma exec_lit_ci_occurs p pat prev s st :
  exec_at (lit_ci (p :: pat)) prev s = Some st →
  (0 < m_end st)%nat
  ∧ occursCI (p :: pat) prev (take (m_end st) s) (drop (m_end st) s).
Proof.
  intros Hex. apply exec_lit_ci_Some in Hex. split; [|exact Hex].
  apply ci_eq_length in Hex. destruct (m_end st); [|lia].
  by rewrite take_0 in Hex.
Qed.

Lemma occursCI_exec pat prev m rest :
  occursCI pat prev m rest → is_Some (exec_at (lit_ci pat) prev (m ++ rest)).
Proof. intros Hci. unfold exec_at. by rewrite rmatch_lit_ci. Qed.

Lemma occursCI_unique pat prev m rest m' rest' :
  occursCI pat prev m rest → occursCI pat prev m' rest' →
  m ++ rest = m' ++ rest' → m = m'.
Proof. apply ci_eq_unique. Qed.

(** [/!med(ium)?/i] *)
Lemma exec_med_compute prev w rest :
  ci_eq w (js "!med") →
  exec_at NLP.re_med prev (w ++ rest)
  = match rmatch (Grp 1 (lit_ci (js "ium"))) Some
            (MState (from_option Some prev (last w)) rest (length w) []) with
    | Some st => Some st
    | None => Some (MState (from_option Some prev (last w)) rest (length w) [])
    end.
Proof.
  intros Hci. unfold exec_at, NLP.re_med.
  change (rmatch (lit_ci (js "!med") · Opt (Grp 1 (lit_ci (js "ium")))) Some
            (MState prev (w ++ rest) 0 []))
    with (rmatch (lit_ci (js "!med"))
            (rmatch (Opt (Grp 1 (lit_ci (js "ium")))) Some)
            (MState prev (w ++ rest) 0 [])).
  by rewrite rmatch_lit_ci.
Qed.

Lemma exec_med_occurs prev s st :
  exec_at NLP.re_med prev s = Some st →
  (0 < m_end st)%nat
  ∧ occursMed prev (take (m_end st) s) (drop (m_end st) s).
Proof.
  intros Hex.
  pose proof (exec_at_sound _ _ _ _ Hex) as (Hm & _ & _).
  destruct Hm as (mid & Hm1 & _).
  apply lit_ci_matches in Hm1 as (w & Hw & Hci & _ & _). simpl in Hw.
  rewrite Hw in Hex |- *. generalize (m_rest mid) Hex. clear Hex Hw mid.
  intros rest Hex. rewrite exec_med_compute in Hex by done.
  pose proof (ci_eq_length _ _ Hci) as Hlen. change (length (js "!med")) with 4%nat in Hlen.
  destruct (rmatch _ _ _) as [st'|] eqn:Hgrp.
  - injection Hex as ->.
    apply rmatch_sound in Hgrp as (st1 & (st2 & Hm2 & ->) & [= <-]).
    apply lit_ci_matches in Hm2 as (w2 & Hw2 & Hci2 & Hend & _).
    simpl in Hw2, Hend. simpl. rewrite Hend, Hlen. simpl.
    split; [lia|]. left.
    pose proof (ci_eq_length _ _ Hci2) as Hlen2.
    change (length (js "ium")) with 3%nat in Hlen2.
    rewrite Hw2, app_assoc.
    rewrite take_app_length' by (rewrite length_app; lia).
    by apply (ci_eq_app w w2 (js "!med") (js "ium")).
  - injection Hex as <-. simpl. rewrite Hlen. split; [lia|]. right.
    rewrite take_app_length', drop_app_length' by done.
    split; [done|]. intros (x & post & -> & Hx).
    unfold rmatch in Hgrp. fold rmatch in Hgrp.
    by rewrite rmatch_lit_ci in Hgrp.
Qed.

Lemma occursMed_exec prev m rest :
  occursMed prev m rest → is_Some (exec_at NLP.re_med prev (m ++ rest)).
Proof.
  intros [Hci|[Hci _]].
  - apply (ci_eq_app_inv m (js "!med") (js "ium")) in Hci
      as (w1 & w2 & -> & H1 & H2).
    rewrite <- app_assoc, exec_med_compute by done. by destruct (rmatch _ _ _).
  - rewrite exec_med_compute by done. by destruct (rmatch _ _ _).
Qed.

Lemma occursMed_unique prev m rest m' rest' :
  occursMed prev m rest → occursMed prev m' rest' →
  m ++ rest = m' ++ rest' → m = m'.
Proof.
  assert (Hmix : ∀ a ra b rb,
            ci_eq a (js "!medium") → ci_eq b (js "!med") →
            ¬ startsCI (js "ium") rb → a ++ ra = b ++ rb → False).
  { intros a ra b rb Ha Hb Hno Heq.
    apply (ci_eq_app_inv a (js "!med") (js "ium")) in Ha
      as (a1 & a2 & -> & Ha1 & Ha2).
    rewrite <- app_assoc in Heq.
    assert (a1 = b) as -> by (by eapply ci_eq_unique).
    apply app_inv_head in Heq as <-. apply Hno. by exists a2, ra. }
  intros [H1|[H1 Hn1]] [H2|[H2 Hn2]] Heq.
  - by eapply ci_eq_unique.
  - exfalso. by eapply Hmix.
  - exfalso. by eapply (Hmix m' rest' m rest).
  - by eapply ci_eq_unique.
Qed.

End OccurrenceFacts.

Section WordFacts.
Local Open Scope N_scope.




Section OneWord.
Variable pat : jsstring.
Variables p q : char.
Hypothesis pat_head : head pat = Some p.
Hypothesis pat_last : last pat = Some q.
Hypothesis p_letter : in_range 97 122 p = true.
Hypothesis q_letter : in_range 97 122 q = true.



End OneWord.
End WordFacts.

(** What the global replacement by the empty string leaves is the text
    with every occurrence deleted, and nothing else is. *)
Lemma strips_replaceAll r (M : option char → jsstring → jsstring → Prop) :
  (∀ prev s st, exec_at r prev s = Some st →
     0 < m_end st ∧ M prev (take (m_end st) s) (drop (m_end st) s)) →
  (∀ prev m rest, M prev m rest → is_Some (exec_at r prev (m ++ rest))) →
  (∀ prev m rest m' rest',
     M prev m rest → M prev m' rest' → m ++ rest = m' ++ rest' → m = m') →
  ∀ s out, strips M None s out ↔ out = replaceAll r [] s.
Proof.
  intros Hsound Hcomplete Hunique s out. split.
  - intros H. eapply strips_functional; [exact Hunique|exact H|].
    by apply replaceAll_strips.
  - intros ->. by apply replaceAll_strips.
Qed.

Lemma strips_marker p pat s out :
  strips (occursCI (p :: pat)) None s out
  ↔ out = replaceAll (lit_ci (p :: pat)) [] s.
Proof.
  apply strips_replaceAll.
  - apply exec_lit_ci_occurs.
  - apply occursCI_exec.
  - apply occursCI_unique.
Qed.

Lemma strips_med s out :
  strips occursMed None s out ↔ out = replaceAll NLP.re_med [] s.
Proof.
  apply strips_replaceAll.
  - apply exec_med_occurs.
  - apply occursMed_exec.
  - apply occursMed_unique.
Qed.


(* ================================================================= *)
(** * The parser: claims *)

Section ParserClaims.
Variable tz : Z.

(** C2 (amended): for a text without priority marker, tag and relative
    date keyword (a time phrase does not matter), [parseNLP] returns the
    text with its runs of whitespace collapsed and its ends trimmed as the
    title, priority [medium], no tag and no due date; the title is the
    text untouched when the text has no run of whitespace and no
    whitespace at its ends. *)
Theorem parse_plain_text now text :
  hasMarker text = false →
  NLP.parseNLP tz now text = NLP.Result (NLP.cleanTitle text) None medium []
  ∧ (noSpaceRun text = true → noSpaceAtEnds text = true →
     NLP.parseNLP tz now text = NLP.Result text None medium []).
Proof.
  intros Hm. split; [by apply parseNLP_no_marker|].
  intros H1 H2. by rewrite parseNLP_no_marker, cleanTitle_fixed.
Qed.

(** C6: [parseNLP] returns a result for every text, whose title has no run
    of whitespace and no whitespace at its ends; when that title holds no
    marker, parsing it again, at any later instant, returns it as the
    title. *)
Theorem parse_total_title_idempotent now now' text :
  ∃ r, NLP.parseNLP tz now text = r
       ∧ noSpaceRun (NLP.title r) = true
       ∧ noSpaceAtEnds (NLP.title r) = true
       ∧ (hasMarker (NLP.title r) = false →
          NLP.title (NLP.parseNLP tz now' (NLP.title r)) = NLP.title r).
Proof.
  exists (NLP.parseNLP tz now text). split; [done|].
  destruct (parseNLP_title_clean tz now text) as [t Ht]. rewrite Ht.
  split; [apply cleanTitle_noSpaceRun|].
  split; [apply cleanTitle_noSpaceAtEnds|].
  intros Hm. rewrite parseNLP_no_marker by done. simpl.
  apply cleanTitle_idemp.
Qed.

(** C3: the priority markers are looked for in the order high, medium,
    low, each in the text the pattern before left, and the last pattern
    that matched gives the priority; so a text that contains [!low], in
    any case, gets priority [low], whatever other markers it contains.
    Each pass leaves the text with every occurrence of its marker deleted,
    and there is one such text only; the rest of the parse runs on the
    text so stripped, and its title is that text cleaned when nothing else
    is recognised in it. *)
Theorem priority_last_marker_wins now text :
  let t1 := replaceAll NLP.re_high [] text in
  let t2 := replaceAll NLP.re_med [] t1 in
  let t3 := replaceAll NLP.re_low [] t2 in
  NLP.priority (NLP.parseNLP tz now text)
  = (if test NLP.re_low t2 then low
     else if test NLP.re_med t1 then medium
     else if test NLP.re_high text then high
     else medium)
  ∧ (contains_ci (js "!low") text →
     NLP.priority (NLP.parseNLP tz now text) = low)
  ∧ (∀ out, strips (occursCI (js "!high")) None text out ↔ out = t1)
  ∧ (∀ out, strips occursMed None t1 out ↔ out = t2)
  ∧ (∀ out, strips (occursCI (js "!low")) None t2 out ↔ out = t3)
  ∧ cuts (fun m => ci_eq m (js "!high")) text t1
  ∧ cuts (fun m => ci_eq m (js "!med") ∨ ci_eq m (js "!medium")) t1 t2
  ∧ cuts (fun m => ci_eq m (js "!low")) t2 t3
  ∧ (∃ r, NLP.priorityStep (NLP.Result text None medium []) text = (r, t3)
          ∧ NLP.parseNLP tz now text = afterPriority tz now r t3)
  ∧ (test NLP.re_tag t3 = false → test NLP.re_today t3 = false →
     test NLP.re_tomorrow t3 = false → test NLP.re_next_week t3 = false →
     NLP.title (NLP.parseNLP tz now text) = NLP.cleanTitle t3).
Proof.
  intros t1 t2 t3.
  assert (Hp : NLP.priority (NLP.parseNLP tz now text)
    = (if test NLP.re_low t2 then low
       else if test NLP.re_med t1 then medium
       else if test NLP.re_high text then high
       else medium)).
  { rewrite parseNLP_steps, priorityStep_spec.
    by rewrite afterPriority_priority. }
  split; [exact Hp|].
  split; [|split; [|split; [|split; [|split; [|split; [|split; [|split]]]]]]].
  - intros Hlow. rewrite Hp.
    apply (replaceAll_keeps_low NLP.re_high), (replaceAll_keeps_low NLP.re_med)
      in Hlow; [|apply exec_med_shape|apply exec_high_shape].
    apply contains_ci_test in Hlow. fold t1 t2 in Hlow.
    change (lit_ci (js "!low")) with NLP.re_low in Hlow. by rewrite Hlow.
  - intros out. apply strips_marker.
  - intros out. apply strips_med.
  - intros out. apply strips_marker.
  - apply replaceAll_cuts, exec_high_ci.
  - apply replaceAll_cuts, exec_med_ci.
  - apply replaceAll_cuts, exec_low_ci.
  - eexists. split; [apply priorityStep_spec|].
    by rewrite parseNLP_steps, priorityStep_spec.
  - intros Htag Hd1 Hd2 Hd3.
    rewrite parseNLP_steps, priorityStep_spec. fold t1 t2 t3.
    unfold afterPriority, NLP.tagStep.
    rewrite replaceWith_no_match by done.
    unfold NLP.dateStep. rewrite Hd1, Hd2, Hd3.
    unfold NLP.timeStep. simpl.
    by destruct (re_match NLP.re_time t3).
Qed.

Lemma dateStep_frame now r t :
  NLP.title (NLP.dateStep tz now r t).1 = NLP.title r
  ∧ NLP.priority (NLP.dateStep tz now r t).1 = NLP.priority r
  ∧ NLP.tags (NLP.dateStep tz now r t).1 = NLP.tags r.
Proof.
  unfold NLP.dateStep.
  by destruct (test NLP.re_today t), (test NLP.re_tomorrow t),
    (test NLP.re_next_week t).
Qed.


(** C5 (amended): for a working text in which the time pattern matches,
    the meridiem is [am] or [pm] and the hour is converted as stated.
    With a due date from a relative date keyword, the time step sets the
    local time of day of that due date to the converted hour and the
    minute, with seconds and milliseconds zero; the calendar day is kept
    when the converted hour is below 24 and the minute below 60; and the
    first occurrence of the matched text is removed from the working text,
    which is the match itself when that text does not occur before it.
    Without a due date, the due date stays absent and the text is left as
    it is.  The title is the cleaned text the step leaves. *)
Theorem time_phrase_sets_clock r t tm :
  re_match NLP.re_time t = Some tm →
  let h := parseInt (default [] (group tm 1)) in
  let m := parseInt (default (js "0") (group tm 2)) in
  let meridiem := asciiLower <$> default [] (group tm 3) in
  let h24 := NLP.to24 meridiem h in
  let out := NLP.timeStep tz r t in
  (meridiem = js "am" ∨ meridiem = js "pm")
  ∧ (meridiem = js "pm" → h ≠ 12%Z → h24 = (h + 12)%Z)
  ∧ (meridiem = js "pm" → h = 12%Z → h24 = 12%Z)
  ∧ (meridiem = js "am" → h = 12%Z → h24 = 0%Z)
  ∧ (meridiem = js "am" → h ≠ 12%Z → h24 = h)
  ∧ (∀ d, NLP.dueAt r = Some d →
       NLP.dueAt out.1 = Some (Date.setHours tz d h24 m 0 0)
       ∧ ((0 ≤ h24 < 24)%Z → (0 ≤ m < 60)%Z →
          Date.localDay tz (Date.setHours tz d h24 m 0 0) = Date.localDay tz d
          ∧ Date.localTimeOfDay tz (Date.setHours tz d h24 m 0 0)
            = (h24 * Date.msPerHour + m * Date.msPerMinute)%Z)
       ∧ out.2 = replaceFirst (matched tm) [] t
       ∧ ((∀ i, i < index tm → startsWith (matched tm) (drop i t) = false) →
          out.2 = take (index tm) t ++ drop (index tm + length (matched tm)) t))
  ∧ (NLP.dueAt r = None → out = (r, t))
  ∧ afterDate tz r t = NLP.set_title (NLP.cleanTitle out.2) out.1.
Proof.
  intros Hm h m meridiem h24 out.
  destruct (re_match_time_groups t tm Hm) as (g1 & g3 & _ & H3 & _ & _ & Hmer).
  destruct (to24_spec meridiem h) as (Hc1 & Hc2 & Hc3 & Hc4).
  split; [unfold meridiem; by rewrite H3|].
  split; [exact Hc1|]. split; [exact Hc2|]. split; [exact Hc3|].
  split; [exact Hc4|]. split; [|split].
  - intros d Hd. unfold out, NLP.timeStep. rewrite Hm, Hd. simpl.
    split; [done|]. split; [|split; [done|]].
    + intros Hh Hmin.
      destruct (setHours_spec tz d h24 m 0 0) as [Hday Htime].
      { by apply MakeTime_clock. }
      split; [exact Hday|]. rewrite Htime. unfold Date.MakeTime. lia.
    + intros Hfirst. destruct (re_match_at _ _ _ Hm) as [Ht _].
      rewrite Ht at 1. apply replaceFirst_at.
      intros i Hi. rewrite <- Ht. apply Hfirst.
      rewrite length_take in Hi. lia.
  - intros Hd. unfold out, NLP.timeStep. rewrite Hm, Hd. done.
  - unfold afterDate. fold out. by destruct out.
Qed.
End ParserClaims.

(** C2 as stated fails: the title of a text with leading whitespace and
    no marker is not the text. *)
Lemma parse_plain_text_trimmed :
  hasMarker (js " a") = false
  ∧ test NLP.re_time (js " a") = false
  ∧ NLP.title (NLP.parseNLP 0 0 (js " a")) ≠ js " a".
Proof. split; [|split]; [reflexivity..|discriminate]. Qed.

Lemma parse_plain_text_witness :
  NLP.parseNLP 0 0 (js "Buy  milk ") = NLP.Result (js "Buy milk") None medium []
  ∧ NLP.parseNLP 0 0 (js "Buy milk") = NLP.Result (js "Buy milk") None medium [].
Proof.
  split.
  - exact (proj1 (parse_plain_text 0 0 (js "Buy  milk ") eq_refl)).
  - exact (proj2 (parse_plain_text 0 0 (js "Buy milk") eq_refl) eq_refl eq_refl).
Defined.

Lemma parse_total_title_idempotent_witness :
  NLP.title (NLP.parseNLP 0 5 (js "Call doctor")) = js "Call doctor".
Proof.
  destruct (parse_total_title_idempotent 0 0 5 (js "Call  doctor today #health !high"))
    as (r & Hr & _ & _ & Hidem).
  subst r. exact (Hidem eq_refl).
Defined.

Lemma priority_last_marker_wins_witness :
  let text := js "Pay rent !LOW soon !high" in
  NLP.priority (NLP.parseNLP 0 0 text) = low
  ∧ strips (occursCI (js "!high")) None text (js "Pay rent !LOW soon ")
  ∧ strips (occursCI (js "!low")) None (js "Pay rent !LOW soon ")
      (js "Pay rent  soon ")
  ∧ NLP.title (NLP.parseNLP 0 0 text) = js "Pay rent soon".
Proof.
  intros text.
  destruct (priority_last_marker_wins 0 0 text)
    as (_ & Hlow & Hhigh & _ & Hstrip & _ & _ & _ & _ & Htitle).
  split; [|split; [|split]].
  - apply Hlow. exists (js "Pay rent "), (js "!LOW"), (js " soon !high").
    split; reflexivity.
  - apply Hhigh. reflexivity.
  - apply Hstrip. reflexivity.
  - rewrite Htitle by reflexivity. reflexivity.
Defined.


(** C5 as stated fails: the time phrase also sets the seconds and the
    milliseconds of the due date to zero.  At 12:34:56.789, [next week]
    gives a due date at 12:34:56.789, and [9am] turns it into
    09:00:00.000. *)
Lemma time_phrase_zeroes_seconds :
  let now := 45296789%Z in
  let text := js "Review next week 9am" in
  let before := NLP.dateStep 0 now (beforeDate text).1 (beforeDate text).2 in
  ∃ d0 d1 tm,
    NLP.dueAt before.1 = Some d0
    ∧ re_match NLP.re_time before.2 = Some tm
    ∧ NLP.dueAt (NLP.parseNLP 0 now text) = Some d1
    ∧ (Date.localTimeOfDay 0 d0 `mod` Date.msPerMinute = 56789)%Z
    ∧ (Date.localTimeOfDay 0 d1 `mod` Date.msPerMinute = 0)%Z.
Proof.
  intros now text before.
  exists 650096789%Z, 637200000%Z,
    (MatchResult 8 (js "9am") [(3, js "am"); (1, js "9")]).
  by vm_compute.
Qed.

(** The hour of a time phrase is not checked: [13pm] is hour 25, which is
    one o'clock on the day after. *)
Example time_phrase_hour_overflow :
  NLP.dueAt (NLP.parseNLP 0 1000 (js "Call today 13pm"))
  = Some (1 * Date.msPerDay + 1 * Date.msPerHour)%Z.
Proof. reflexivity. Qed.

(** The matched text is removed at its first occurrence, which can lie
    before the match. *)
Example time_phrase_first_occurrence :
  NLP.title (NLP.parseNLP 0 1000 (js "x9am 9am today")) = js "x 9am".
Proof. reflexivity. Qed.

Lemma time_phrase_sets_clock_witness :
  NLP.dueAt (NLP.timeStep 0 (NLP.Result [] (Some 86400000%Z) medium [])
               (js "Meeting 2:30pm")).1
  = Some (Date.setHours 0 86400000 14 30 0 0)
  ∧ (NLP.timeStep 0 (NLP.Result [] (Some 86400000%Z) medium [])
       (js "Meeting 2:30pm")).2 = js "Meeting ".
Proof.
  pose proof (time_phrase_sets_clock 0
                (NLP.Result [] (Some 86400000%Z) medium []) (js "Meeting 2:30pm")
                (MatchResult 8 (js "2:30pm")
                   [(3, js "pm"); (2, js "30"); (1, js "2")]) eq_refl)
    as (_ & _ & _ & _ & _ & Hd & _).
  destruct (Hd 86400000%Z eq_refl) as (Hdue & _ & _ & Hstrip).
  split; [exact Hdue|].
  rewrite Hstrip; [reflexivity|].
  intros i Hi. simpl in Hi.
  do 8 (destruct i as [|i]; [reflexivity|]). lia.
Defined.

(* ================================================================= *)
(** * The documented examples *)

(** The clock of the examples: 12:34:56.789 local time on day 20000, in a
    zone that stays two hours ahead of UTC. *)
Example parse_call_doctor :
  let tz := 7200000%Z in
  let now := (20000 * Date.msPerDay + 45296789 - tz)%Z in
  NLP.parseNLP tz now (js "Call doctor today #health !high")
  = NLP.Result (js "Call doctor")
      (Some (20000 * Date.msPerDay + 23 * Date.msPerHour
             + 59 * Date.msPerMinute - tz)%Z)
      high [js "health"].
Proof. reflexivity. Qed.

Example parse_meeting_tomorrow :
  let tz := 7200000%Z in
  let now := (20000 * Date.msPerDay + 45296789 - tz)%Z in
  NLP.parseNLP tz now (js "Meeting tomorrow 9am")
  = NLP.Result (js "Meeting")
      (Some (20001 * Date.msPerDay + 9 * Date.msPerHour - tz)%Z) medium [].
Proof. reflexivity. Qed.

Example parse_review_report :
  let tz := 7200000%Z in
  let now := (20000 * Date.msPerDay + 45296789 - tz)%Z in
  NLP.parseNLP tz now (js "Review report next week #work")
  = NLP.Result (js "Review report")
      (Some (20007 * Date.msPerDay + 45296789 - tz)%Z) medium [js "work"].
Proof. reflexivity. Qed.

(** Deleting a match can spell a marker that no pattern has matched: the
    title keeps it, and the priority is the one of the match. *)
Example parse_marker_spelled_by_deletion :
  NLP.parseNLP 0 0 (js "!hi!lowgh") = NLP.Result (js "!high") None low [].
Proof. reflexivity. Qed.

(** A keyword after the first one that matched stays in the title. *)
Example parse_today_tomorrow :
  NLP.parseNLP 0 1000 (js "today tomorrow")
  = NLP.Result (js "tomorrow")
      (Some (23 * Date.msPerHour + 59 * Date.msPerMinute)%Z) medium [].
Proof. reflexivity. Qed.

(** Without a date keyword a time phrase is left in the title. *)
Example parse_time_without_date :
  NLP.parseNLP 0 1000 (js "Lunch 12:30pm")
  = NLP.Result (js "Lunch 12:30pm") None medium [].
Proof. reflexivity. Qed.

(* ================================================================= *)
(** * The selection *)

Section SelectionFacts.

Lemma jseqb_eq a b : jseqb a b = true ↔ a = b.
Proof. unfold jseqb. apply bool_decide_eq_true. Qed.

Lemma jseqb_neq a b : jseqb a b = false ↔ a ≠ b.
Proof. unfold jseqb. apply bool_decide_eq_false. Qed.

Lemma elem_of_set_delete i s j : j ∈ set_delete i s ↔ j ∈ s ∧ j ≠ i.
Proof.
  unfold set_delete. rewrite !list_elem_of_In, filter_In, negb_true_iff.
  by rewrite jseqb_neq.
Qed.

Lemma elem_of_set_add i s j : j ∈ set_add i s ↔ j ∈ s ∨ j = i.
Proof.
  unfold set_add, set_has. case_bool_decide as Hi.
  - split; [by left|]. intros [?| ->]; done.
  - rewrite elem_of_app, list_elem_of_singleton. done.
Qed.

Lemma NoDup_set_delete i s : NoDup s → NoDup (set_delete i s).
Proof.
  unfold set_delete. induction 1 as [|x s Hx Hs IH]; simpl; [constructor|].
  destruct (negb (jseqb x i)); [|done].
  constructor; [|done]. rewrite list_elem_of_In, filter_In, <- list_elem_of_In.
  tauto.
Qed.

Lemma NoDup_set_add i s : NoDup s → NoDup (set_add i s).
Proof.
  intros Hs. unfold set_add, set_has. case_bool_decide as Hi; [done|].
  apply NoDup_app. split; [done|]. split; [|apply NoDup_singleton].
  intros x Hx ->%list_elem_of_singleton. done.
Qed.

(** X1: [toggleSelect] flips the membership of the identifier and of no
    other, keeps the selection free of duplicates, and toggling twice
    gives back a selection with the same members. *)
Theorem toggleSelect_flips i s :
  set_has (toggleSelect i s) i = negb (set_has s i)
  ∧ (∀ j, j ≠ i → set_has (toggleSelect i s) j = set_has s j)
  ∧ (NoDup s → NoDup (toggleSelect i s))
  ∧ (∀ j, set_has (toggleSelect i (toggleSelect i s)) j = set_has s j).
Proof.
  assert (Hmem : ∀ s j, j ∈ toggleSelect i s
                        ↔ (j ∈ s ∧ j ≠ i) ∨ (j = i ∧ i ∉ s)).
  { intros s' j. unfold toggleSelect, set_has. case_bool_decide as Hi.
    - rewrite elem_of_set_delete. tauto.
    - rewrite elem_of_set_add. split; [|tauto].
      intros [?| ->]; [|by right]. left. split; [done|]. by intros ->. }
  assert (Hhas : ∀ s j, set_has (toggleSelect i s) j
                        = if bool_decide (j = i) then negb (set_has s i)
                          else set_has s j).
  { intros s' j. unfold set_has at 1.
    rewrite (bool_decide_ext _ _ (Hmem s' j)).
    unfold set_has. repeat case_bool_decide; simpl; try done; tauto. }
  split; [|split; [|split]].
  - by rewrite Hhas, bool_decide_eq_true_2.
  - intros j Hj. by rewrite Hhas, bool_decide_eq_false_2.
  - intros Hs. unfold toggleSelect. destruct (set_has s i);
      [by apply NoDup_set_delete|by apply NoDup_set_add].
  - intros j. rewrite (Hhas (toggleSelect i s) j). case_bool_decide as Hj.
    + subst. rewrite Hhas, bool_decide_eq_true_2 by done.
      apply negb_involutive.
    + by rewrite Hhas, bool_decide_eq_false_2.
Qed.
End SelectionFacts.

Lemma toggleSelect_flips_witness :
  NoDup (toggleSelect (js "b") [js "a"; js "b"; js "c"]).
Proof.
  apply (proj1 (proj2 (proj2 (toggleSelect_flips (js "b")
                                [js "a"; js "b"; js "c"])))).
  apply (bool_decide_unpack (NoDup [js "a"; js "b"; js "c"])).
  vm_compute. exact I.
Defined.

(* ================================================================= *)
(** * Updating, deleting and completing tasks *)

Section MutationFacts.

Lemma list_find_first_id (ts : list Task) k t :
  ts !! k = Some t →
  (∀ j y, ts !! j = Some y → j < k → id y ≠ id t) →
  list_find (fun x => id x = id t) ts = Some (k, t).
Proof. intros Hk Hfirst. apply list_find_Some. by repeat split. Qed.

Lemma list_find_id_None (ts : list Task) i :
  (∀ t, t ∈ ts → id t ≠ i) → list_find (fun x => id x = i) ts = None.
Proof.
  intros Hno. apply list_find_None. rewrite Forall_forall. exact Hno.
Qed.

(** X2: [updateTask] replaces the first task that carries the identifier
    by that task with the keys of [data] written over it and [updatedAt]
    set to the current instant; every other task, the length of the
    collection and the rest of the state stay; without an [id] key in
    [data] the identifiers stay as they are.  An identifier that no task
    carries changes nothing. *)
Theorem updateTask_effect now i data st :
  ((∀ t, t ∈ tasks st → id t ≠ i) → updateTask now i data st = st)
  ∧ (∀ k t, tasks st !! k = Some t → id t = i →
       (∀ j y, tasks st !! j = Some y → j < k → id y ≠ i) →
       let st' := updateTask now i data st in
       tasks st' !! k = Some (applyPatch now data t)
       ∧ updatedAt (applyPatch now data t) = now
       ∧ (∀ j, j ≠ k → tasks st' !! j = tasks st !! j)
       ∧ length (tasks st') = length (tasks st)
       ∧ st' = set_tasks (tasks st') st
       ∧ (patch_id data = None → id <$> tasks st' = id <$> tasks st)).
Proof.
  split.
  - intros Hno. unfold updateTask. by rewrite list_find_id_None.
  - intros k t Hk <- Hfirst st'.
    assert (Hst : st' = set_tasks (<[k := applyPatch now data t]> (tasks st)) st).
    { unfold st', updateTask. by rewrite (list_find_first_id _ k t). }
    rewrite Hst. simpl.
    split; [apply list_lookup_insert_eq; by eapply lookup_lt_Some|].
    split; [done|]. split; [|split; [|split]].
    + intros j Hj. by apply list_lookup_insert_ne.
    + apply length_insert.
    + done.
    + intros Hid. rewrite list_fmap_insert. apply list_insert_id.
      rewrite list_lookup_fmap, Hk. simpl. by rewrite Hid.
Qed.

(** X3: [deleteTask] removes every task that carries the identifier and
    no other, keeps the order of the tasks that stay, and takes the
    identifier, and no other, out of the selection; it changes nothing
    when no task carries the identifier, and deleting again changes
    nothing. *)
Theorem deleteTask_effect i st sel :
  let st' := (deleteTask i st sel).1 in
  let sel' := (deleteTask i st sel).2 in
  (∀ t, t ∈ tasks st' ↔ t ∈ tasks st ∧ id t ≠ i)
  ∧ tasks st' `sublist_of` tasks st
  ∧ (∀ j, j ∈ sel' ↔ j ∈ sel ∧ j ≠ i)
  ∧ ((∀ t, t ∈ tasks st → id t ≠ i) → tasks st' = tasks st)
  ∧ deleteTask i st' sel' = (st', sel').
Proof.
  intros st' sel'. split; [|split; [|split; [|split]]].
  - intros t. unfold st', deleteTask. simpl.
    rewrite !list_elem_of_In, filter_In, negb_true_iff, jseqb_neq. done.
  - unfold st', deleteTask. simpl.
    induction (tasks st) as [|t ts IH]; simpl; [done|].
    destruct (negb (jseqb (id t) i)); by constructor.
  - intros j. apply elem_of_set_delete.
  - intros Hno. unfold st', deleteTask. simpl.
    induction (tasks st) as [|t ts IH]; simpl; [done|].
    assert (Ht : jseqb (id t) i = false).
    { apply jseqb_neq, Hno. by left. }
    rewrite Ht. simpl. f_equal. apply IH.
    intros x Hx. apply Hno. by right.
  - unfold st', sel', deleteTask, set_delete. simpl.
    rewrite !filter_filter_and.
    rewrite (filter_ext (fun x => negb (jseqb (id x) i) && negb (jseqb (id x) i))
               (fun x => negb (jseqb (id x) i)))
      by (intros t; by destruct (negb _)).
    rewrite (filter_ext (fun x => negb (jseqb x i) && negb (jseqb x i))
               (fun x => negb (jseqb x i)))
      by (intros t; by destruct (negb _)).
    done.
Qed.
End MutationFacts.

Lemma updateTask_effect_witness :
  let A := sampleTask "A" 1 None None medium in
  let st := MkState [A] (js "all") [] (js "custom") [] [] None in
  let star := MkTaskPatch None None None None None None None None None None
                (Some true) None None in
  updateTask 9 (js "B") star st = st
  ∧ (starred <$> tasks (updateTask 9 (js "A") star st)) = [true].
Proof.
  intros A st star. split.
  - apply (proj1 (updateTask_effect 9 (js "B") star st)).
    intros t ->%list_elem_of_singleton. discriminate.
  - destruct (proj2 (updateTask_effect 9 (js "A") star st) 0 A eq_refl eq_refl)
      as (_ & _ & _ & _ & Hst & _).
    + intros j y _ Hj. lia.
    + rewrite Hst. reflexivity.
Defined.

Lemma deleteTask_effect_witness :
  let A := sampleTask "A" 1 None None medium in
  let st := MkState [A] (js "all") [] (js "custom") [] [] None in
  tasks (deleteTask (js "B") st []).1 = [A].
Proof.
  intros A st.
  apply (proj1 (proj2 (proj2 (proj2 (deleteTask_effect (js "B") st []))))).
  intros t ->%list_elem_of_singleton. discriminate.
Defined.

(* ================================================================= *)
(** * Completing tasks *)

Section CompletionFacts.

Lemma list_find_alter_id (f : Task → Task) (ts : list Task) i k t :
  (∀ x, id (f x) = id x) →
  list_find (fun x => id x = i) ts = Some (k, t) →
  list_find (fun x => id x = i) (alter f k ts) = Some (k, f t).
Proof.
  intros Hf (Hk & Hid & Hfirst)%list_find_Some. apply list_find_Some.
  split; [by rewrite list_lookup_alter_eq, Hk|]. split; [by rewrite Hf|].
  intros j y Hj Hlt. rewrite list_lookup_alter_ne in Hj by lia.
  by eapply Hfirst.
Qed.

Lemma Forall2_alter_diag {A} (R : A → A → Prop) (f : A → A) (l : list A) k :
  (∀ x, R x x) → (∀ x, l !! k = Some x → R x (f x)) →
  Forall2 R l (alter f k l).
Proof.
  intros Hrefl Hf. apply Forall2_alter_r.
  - apply Forall_Forall2_diag, Forall_forall. intros x _. apply Hrefl.
  - intros x y Hx Hy _. rewrite Hx in Hy. injection Hy as <-. by apply Hf.
Qed.

(** X4: [toggleComplete] acts on the first task that carries the
    identifier: a task that is not completed gets the instant of the first
    clock read as [completedAt], a completed one loses it; [updatedAt]
    becomes the instant of the last clock read and every other field
    stays; every other task and the length of the collection stay.  An
    identifier that no task carries changes nothing. *)
Theorem toggleComplete_effect nowC nowU i st :
  ((∀ t, t ∈ tasks st → id t ≠ i) → toggleComplete nowC nowU i st = st)
  ∧ (∀ k t, tasks st !! k = Some t → id t = i →
       (∀ j y, tasks st !! j = Some y → j < k → id y ≠ i) →
       let st' := toggleComplete nowC nowU i st in
       ∃ t', tasks st' !! k = Some t'
             ∧ completedAt t' = (if isCompleted t then None else Some nowC)
             ∧ updatedAt t' = nowU
             ∧ sameButCompletion t t'
             ∧ (∀ j, j ≠ k → tasks st' !! j = tasks st !! j)
             ∧ length (tasks st') = length (tasks st)
             ∧ st' = set_tasks (tasks st') st).
Proof.
  split.
  - intros Hno. unfold toggleComplete. by rewrite list_find_id_None.
  - intros k t Hk <- Hfirst st'.
    unfold st', toggleComplete. rewrite (list_find_first_id _ k t) by done.
    simpl. eexists. split; [by rewrite list_lookup_alter_eq, Hk|].
    simpl. split; [done|]. split; [done|]. split; [by repeat split|].
    split; [|split; [apply length_alter|done]].
    intros j Hj. by apply list_lookup_alter_ne.
Qed.

(** X5: toggling the completion of a task twice gives back a collection in
    which every task is completed or not as before and has every field
    other than [completedAt] and [updatedAt] as before. *)
Theorem toggleComplete_twice c1 u1 c2 u2 i st :
  Forall2 (fun t t2 => isCompleted t2 = isCompleted t ∧ sameButCompletion t t2)
    (tasks st) (tasks (toggleComplete c2 u2 i (toggleComplete c1 u1 i st))).
Proof.
  assert (Hrefl : ∀ t : Task, isCompleted t = isCompleted t
                              ∧ sameButCompletion t t) by by repeat split.
  unfold toggleComplete at 2.
  destruct (list_find (fun t => id t = i) (tasks st)) as [[k t]|] eqn:Hfind.
  - unfold toggleComplete. simpl.
    erewrite list_find_alter_id; [|done|exact Hfind]. simpl.
    rewrite list_alter_alter_eq.
    apply Forall2_alter_diag; [exact Hrefl|].
    intros x _. split; [|by repeat split].
    unfold isCompleted. simpl. by destruct (completedAt x).
  - unfold toggleComplete. rewrite Hfind.
    apply Forall_Forall2_diag, Forall_forall. intros x _. apply Hrefl.
Qed.
End CompletionFacts.

Lemma toggleComplete_effect_witness :
  let A := sampleTask "A" 1 None None medium in
  let st := MkState [A] (js "all") [] (js "custom") [] [] None in
  toggleComplete 9 10 (js "B") st = st
  ∧ (completedAt <$> tasks (toggleComplete 9 10 (js "A") st)) = [Some 9%Z].
Proof.
  intros A st. split.
  - apply (proj1 (toggleComplete_effect 9 10 (js "B") st)).
    intros t ->%list_elem_of_singleton. discriminate.
  - destruct (proj2 (toggleComplete_effect 9 10 (js "A") st) 0 A eq_refl eq_refl)
      as (t' & _ & _ & _ & _ & _ & _ & Hst).
    + intros j y _ Hj. lia.
    + rewrite Hst. reflexivity.
Defined.

(* ================================================================= *)
(** * Membership of the query result, views and badges *)

Section ViewFacts.
Variable tz : Z.
Variable toLowerCase : jsstring → jsstring.
Variable localeCompare : jsstring → jsstring → Z.

Abbreviation queryV := (getFilteredTasks tz toLowerCase localeCompare).

(** X6: the result of [getFilteredTasks] is a rearrangement of the tasks
    that pass the view, the tag, the priority, the due-date and the search
    stage: it holds those tasks and no other, each as often as the
    collection does, and never more tasks than the collection. *)
Theorem getFilteredTasks_members now st :
  queryV now st ≡ₚ List.filter (passes tz toLowerCase now st) (tasks st)
  ∧ (∀ t, t ∈ queryV now st ↔ t ∈ tasks st ∧ passes tz toLowerCase now st t = true)
  ∧ length (queryV now st) ≤ length (tasks st).
Proof.
  rewrite getFilteredTasks_passes. split; [apply sort_perm|]. split.
  - intros t. by rewrite sort_perm, !list_elem_of_In, filter_In.
  - rewrite sort_length. apply filter_length_le.
Qed.

Lemma query_elem now st t :
  t ∈ queryV now st ↔ t ∈ tasks st ∧ passes tz toLowerCase now st t = true.
Proof.
  rewrite getFilteredTasks_passes.
  by rewrite sort_perm, !list_elem_of_In, filter_In.
Qed.

Lemma passes_viewOnly now view st t :
  passes tz toLowerCase now (viewOnly view st) t = viewFilter tz now view t.
Proof. unfold passes. simpl. by rewrite !andb_true_r. Qed.

Lemma viewFilter_all now t :
  viewFilter tz now (js "all") t = negb (isCompleted t).
Proof. reflexivity. Qed.

Lemma viewFilter_completed now t :
  viewFilter tz now (js "completed") t = isCompleted t.
Proof. reflexivity. Qed.

Lemma viewFilter_today now t :
  viewFilter tz now (js "today") t
  = negb (isCompleted t) && dueWithin (todayStart tz now) (todayEnd tz now) t.
Proof. reflexivity. Qed.

Lemma viewFilter_upcoming now t :
  viewFilter tz now (js "upcoming") t
  = negb (isCompleted t) && dueWithin (todayEnd tz now) (weekEnd tz now) t.
Proof. reflexivity. Qed.

Lemma viewFilter_starred now t :
  viewFilter tz now (js "starred") t = starred t && negb (isCompleted t).
Proof. reflexivity. Qed.
End ViewFacts.

Section ViewClaims.
Variable tz : Z.
Variable toLowerCase : jsstring → jsstring.
Variable localeCompare : jsstring → jsstring → Z.

Abbreviation queryW := (getFilteredTasks tz toLowerCase localeCompare).

Lemma viewOnly_length now view st :
  length (queryW now (viewOnly view st))
  = length (List.filter (viewFilter tz now view) (tasks st)).
Proof.
  rewrite getFilteredTasks_length. simpl. f_equal.
  apply filter_ext. intros t. apply passes_viewOnly.
Qed.

Lemma viewOnly_elem now view st t :
  t ∈ queryW now (viewOnly view st)
  ↔ t ∈ tasks st ∧ viewFilter tz now view t = true.
Proof. by rewrite query_elem, passes_viewOnly. Qed.

(** X7: with no filter and no search, every task is shown by exactly one
    of the views [all] and [completed]; the views [today], [upcoming] and
    [starred] show tasks of the view [all] only; and no task is shown by
    both [today] and [upcoming]. *)
Theorem views_partition now st :
  length (queryW now (viewOnly (js "all") st))
  + length (queryW now (viewOnly (js "completed") st))
  = length (tasks st)
  ∧ (∀ t, t ∈ tasks st →
       (t ∈ queryW now (viewOnly (js "all") st)
        ↔ t ∉ queryW now (viewOnly (js "completed") st)))
  ∧ (∀ t view, view ∈ [js "today"; js "upcoming"; js "starred"] →
       t ∈ queryW now (viewOnly view st) →
       t ∈ queryW now (viewOnly (js "all") st))
  ∧ (∀ t, ¬ (t ∈ queryW now (viewOnly (js "today") st)
             ∧ t ∈ queryW now (viewOnly (js "upcoming") st))).
Proof.
  split; [|split; [|split]].
  - rewrite !viewOnly_length.
    rewrite <- (filter_length isCompleted (tasks st)), Nat.add_comm. f_equal.
  - intros t Ht. rewrite !viewOnly_elem, viewFilter_all, viewFilter_completed.
    destruct (isCompleted t); simpl; intuition congruence.
  - intros t view Hview. rewrite !viewOnly_elem, viewFilter_all.
    intros [Ht Hv]. split; [done|].
    rewrite !elem_of_cons in Hview.
    destruct Hview as [->|[->|[->|Hnil]]]; [| | |by apply elem_of_nil in Hnil].
    + rewrite viewFilter_today in Hv. by apply andb_true_iff in Hv as [? _].
    + rewrite viewFilter_upcoming in Hv. by apply andb_true_iff in Hv as [? _].
    + rewrite viewFilter_starred in Hv. by apply andb_true_iff in Hv as [_ ?].
  - intros t. rewrite !viewOnly_elem, viewFilter_today, viewFilter_upcoming.
    intros [[_ H1] [_ H2]].
    apply andb_true_iff in H1 as [_ H1]. apply andb_true_iff in H2 as [_ H2].
    unfold dueWithin in *. destruct (dueAt t) as [d|]; [|done].
    apply andb_true_iff in H1 as [_ H1]. apply andb_true_iff in H2 as [H2 _].
    apply Z.ltb_lt in H1. apply Z.leb_le in H2. lia.
Qed.

(** X8: each badge of [updateBadges] is the number of tasks its view shows
    when no filter and no search is set. *)
Theorem updateBadges_count_views now st :
  badge_today (updateBadges tz now st)
  = length (queryW now (viewOnly (js "today") st))
  ∧ badge_upcoming (updateBadges tz now st)
    = length (queryW now (viewOnly (js "upcoming") st))
  ∧ badge_all (updateBadges tz now st)
    = length (queryW now (viewOnly (js "all") st))
  ∧ badge_starred (updateBadges tz now st)
    = length (queryW now (viewOnly (js "starred") st)).
Proof.
  rewrite !viewOnly_length. unfold updateBadges. simpl.
  rewrite !filter_filter_and. repeat split; f_equal.
  apply filter_ext. intros t. rewrite viewFilter_starred. apply andb_comm.
Qed.

(** X9: [clearFilters] unsets the priority and the due-date filter and
    nothing else, and every task that was shown is still shown. *)
Theorem clearFilters_keeps_shown now st :
  filterPriorities (clearFilters st) = []
  ∧ filterDue (clearFilters st) = []
  ∧ clearFilters st
    = set_filterDue [] (set_filterPriorities [] st)
  ∧ (∀ t, t ∈ queryW now st → t ∈ queryW now (clearFilters st))
  ∧ length (queryW now st) ≤ length (queryW now (clearFilters st)).
Proof.
  assert (Hp : ∀ t, passes tz toLowerCase now st t = true →
                    passes tz toLowerCase now (clearFilters st) t = true).
  { intros t. unfold passes. simpl. rewrite !andb_true_iff. tauto. }
  split; [done|]. split; [done|]. split; [done|]. split.
  - intros t. rewrite !query_elem. intros [Ht Hpass]. split; [done|].
    by apply Hp.
  - rewrite !getFilteredTasks_length. by apply filter_length_mono.
Qed.

(** X10: completing a task that is not completed, in a collection with
    unique identifiers, moves it from the view [all] to the view
    [completed]. *)
Theorem toggleComplete_moves_view nowC nowU now' st k t :
  NoDup (id <$> tasks st) →
  tasks st !! k = Some t → completedAt t = None →
  let st' := toggleComplete nowC nowU (id t) st in
  t ∈ queryW now' (viewOnly (js "all") st)
  ∧ (∀ x, x ∈ queryW now' (viewOnly (js "all") st') → id x ≠ id t)
  ∧ (∃ t', t' ∈ queryW now' (viewOnly (js "completed") st')
           ∧ id t' = id t ∧ completedAt t' = Some nowC).
Proof.
  intros Hnd Hk Hc st'.
  assert (Hst : tasks st'
    = alter (fun t => set_updatedAt nowU
               (set_completedAt (if isCompleted t then None else Some nowC) t))
        k (tasks st)).
  { unfold st', toggleComplete. by rewrite (list_find_unique_id _ k t). }
  assert (Hinc : isCompleted t = false).
  { unfold isCompleted. rewrite Hc. by apply bool_decide_eq_false. }
  split; [|split].
  - rewrite viewOnly_elem, viewFilter_all, Hinc.
    split; [by eapply list_elem_of_lookup_2|done].
  - intros x. rewrite viewOnly_elem, viewFilter_all.
    intros [(j & Hj)%list_elem_of_lookup_1 Hx] Hid.
    rewrite Hst in Hj. destruct (decide (j = k)) as [->|Hjk].
    + rewrite list_lookup_alter_eq, Hk in Hj. simpl in Hj.
      injection Hj as <-. rewrite Hinc in Hx. done.
    + rewrite list_lookup_alter_ne in Hj by done.
      apply Hjk. eapply NoDup_lookup; [exact Hnd| |].
      * by rewrite list_lookup_fmap, Hj; simpl; rewrite Hid.
      * by rewrite list_lookup_fmap, Hk.
  - eexists. rewrite viewOnly_elem, viewFilter_completed. split; [split|].
    + eapply list_elem_of_lookup_2. rewrite Hst.
      by rewrite list_lookup_alter_eq, Hk.
    + by rewrite Hinc.
    + by rewrite Hinc.
Qed.



End ViewClaims.

Lemma toggleComplete_moves_view_witness :
  let A := sampleTask "A" 1 None None medium in
  let B := sampleTask "B" 2 None (Some 3%Z) medium in
  let st := MkState [A; B] (js "all") [] (js "custom") [] [] None in
  ∃ t', t' ∈ getFilteredTasks 0 sampleLower sampleCompare 9
               (viewOnly (js "completed") (toggleComplete 7 8 (js "A") st))
        ∧ id t' = js "A" ∧ completedAt t' = Some 7%Z.
Proof.
  intros A B st.
  assert (Hnd : NoDup (id <$> tasks st)).
  { apply (bool_decide_unpack (NoDup (id <$> tasks st))). vm_compute. exact I. }
  exact (proj2 (proj2 (toggleComplete_moves_view 0 sampleLower sampleCompare
                         7 8 9 st 0 A Hnd eq_refl eq_refl))).
Defined.

(* ================================================================= *)
(** * Bulk actions *)

Section BulkFacts.

Lemma set_tasks_same st : set_tasks (tasks st) st = st.
Proof. by destruct st. Qed.

Lemma filter_all_true {A} (f : A → bool) (l : list A) :
  (∀ x, x ∈ l → f x = true) → List.filter f l = l.
Proof.
  induction l as [|x l IH]; intros Hf; simpl; [done|].
  rewrite (Hf x) by (by left). f_equal. apply IH. intros y Hy. apply Hf. by right.
Qed.

Lemma filter_all_false {A} (f : A → bool) (l : list A) :
  (∀ x, x ∈ l → f x = false) → List.filter f l = [].
Proof.
  induction l as [|x l IH]; intros Hf; simpl; [done|].
  rewrite (Hf x) by (by left). apply IH. intros y Hy. apply Hf. by right.
Qed.

(** X12: the bulk deletion is the deletion of the selected identifiers
    one after the other: it leaves the tasks whose identifier is not
    selected, in their order, and an empty selection. *)
Theorem bulkDelete_is_deleteTask_each st sel :
  (bulkDelete st sel).1 = foldl (fun s i => (deleteTask i s []).1) st sel
  ∧ (bulkDelete st sel).2 = []
  ∧ (∀ t, t ∈ tasks (bulkDelete st sel).1 ↔ t ∈ tasks st ∧ id t ∉ sel).
Proof.
  split; [|split; [done|]].
  - revert st. induction sel as [|i sel IH]; intros st.
    + unfold bulkDelete. simpl. rewrite filter_all_true by done.
      apply set_tasks_same.
    + cbn [foldl]. rewrite <- IH. unfold bulkDelete, deleteTask. simpl.
      rewrite filter_filter_and.
      assert (Hext : ∀ t : Task,
                negb (set_has (i :: sel) (id t))
                = negb (jseqb (id t) i) && negb (set_has sel (id t))).
      { intros t. unfold set_has, jseqb. rewrite <- negb_orb. f_equal.
        rewrite <- bool_decide_or. apply bool_decide_ext, elem_of_cons. }
      by rewrite (filter_ext _ _ Hext).
  - intros t. unfold bulkDelete. simpl.
    rewrite !list_elem_of_In, filter_In, negb_true_iff. unfold set_has.
    by rewrite bool_decide_eq_false, list_elem_of_In.
Qed.

Lemma id_completeIfSelected clock L t : id (completeIfSelected clock L t) = id t.
Proof. unfold completeIfSelected. by destruct (_ && _). Qed.

Lemma completeIfSelected_other clock L i t :
  id t ≠ i → completeIfSelected clock (L ++ [i]) t = completeIfSelected clock L t.
Proof.
  intros Hi. unfold completeIfSelected, set_has.
  replace (bool_decide (id t ∈ L ++ [i])) with (bool_decide (id t ∈ L)); [done|].
  apply bool_decide_ext. rewrite elem_of_app, list_elem_of_singleton. tauto.
Qed.

Lemma completeOne_step clock (ts : list Task) L i :
  NoDup (id <$> ts) →
  completeOne clock (completeIfSelected clock L <$> ts) i
  = completeIfSelected clock (L ++ [i]) <$> ts.
Proof.
  intros Hnd. unfold completeOne.
  destruct (list_find _ _) as [[k t']|] eqn:Hfind.
  - apply list_find_Some in Hfind as (Hk & Hid & _).
    rewrite list_lookup_fmap in Hk.
    destruct (ts !! k) as [t|] eqn:Htk; [|done]. simpl in Hk.
    injection Hk as <-. rewrite id_completeIfSelected in Hid.
    assert (Huniq : ∀ j x, ts !! j = Some x → j ≠ k → id x ≠ i).
    { intros j x Hj Hjk Hx. apply Hjk.
      eapply NoDup_lookup; [exact Hnd| |].
      - by rewrite list_lookup_fmap, Hj.
      - rewrite list_lookup_fmap, Htk. simpl. congruence. }
    destruct (isCompleted (completeIfSelected clock L t)) eqn:Hdone.
    + apply list_eq. intros j. rewrite !list_lookup_fmap.
      destruct (ts !! j) as [x|] eqn:Hj; [|done]. simpl. f_equal.
      destruct (decide (j = k)) as [->|Hjk].
      * rewrite Htk in Hj. injection Hj as <-.
        unfold completeIfSelected, set_has in *.
        destruct (isCompleted t) eqn:Ht; [by rewrite !andb_false_r|].
        rewrite andb_true_r in *.
        case_bool_decide as HL; [|by rewrite Ht in Hdone].
        rewrite bool_decide_eq_true_2; [done|].
        apply elem_of_app. by left.
      * symmetry. apply completeIfSelected_other. by eapply Huniq.
    + assert (Ht : completeIfSelected clock L t = t
                   ∧ isCompleted t = false ∧ id t ∉ L).
      { unfold completeIfSelected, set_has in *.
        destruct (isCompleted t) eqn:Ht.
        - rewrite andb_false_r in Hdone. congruence.
        - rewrite andb_true_r in *. case_bool_decide; [done|]. done. }
      destruct Ht as (Hsame & Hinc & HL).
      apply list_eq. intros j. destruct (decide (j = k)) as [->|Hjk].
      * rewrite list_lookup_alter_eq, !list_lookup_fmap, Htk. simpl. f_equal.
        rewrite Hsame. unfold completeIfSelected, set_has.
        rewrite Hinc, bool_decide_eq_true_2; [by rewrite Hid|].
        apply elem_of_app. right. rewrite Hid. by apply list_elem_of_singleton.
      * rewrite list_lookup_alter_ne, !list_lookup_fmap by done.
        destruct (ts !! j) as [x|] eqn:Hj; [|done]. simpl. f_equal.
        symmetry. apply completeIfSelected_other. by eapply Huniq.
  - apply list_find_None in Hfind. rewrite Forall_forall in Hfind.
    apply list_fmap_ext. intros j x Hj.
    symmetry. apply completeIfSelected_other.
    intros Hx. apply (Hfind (completeIfSelected clock L x)).
    + apply list_elem_of_fmap. exists x. split; [done|].
      by eapply list_elem_of_lookup_2.
    + by rewrite id_completeIfSelected.
Qed.

Lemma bulkComplete_fold clock (ts : list Task) L sel :
  NoDup (id <$> ts) →
  foldl (completeOne clock) (completeIfSelected clock L <$> ts) sel
  = completeIfSelected clock (L ++ sel) <$> ts.
Proof.
  intros Hnd. revert L. induction sel as [|i sel IH]; intros L.
  - by rewrite app_nil_r.
  - cbn [foldl]. rewrite completeOne_step by done.
    rewrite IH. by rewrite <- app_assoc.
Qed.

(** X13: in a collection with unique identifiers, the bulk completion
    completes the tasks that are selected and not completed, each at the
    instant the clock shows when it is visited, and leaves every other
    task as it is, a completed task with its completion instant; the
    selection is emptied. *)
Theorem bulkComplete_effect clock st sel :
  NoDup (id <$> tasks st) →
  tasks (bulkComplete clock st sel).1 = completeIfSelected clock sel <$> tasks st
  ∧ (bulkComplete clock st sel).2 = []
  ∧ (∀ t, t ∈ tasks st → isCompleted t = true →
          t ∈ tasks (bulkComplete clock st sel).1)
  ∧ (∀ t, t ∈ tasks st → id t ∉ sel → t ∈ tasks (bulkComplete clock st sel).1)
  ∧ (∀ t, t ∈ tasks st → id t ∈ sel → isCompleted t = false →
          completedBy (clock (id t)) t ∈ tasks (bulkComplete clock st sel).1).
Proof.
  intros Hnd.
  assert (Hts : tasks (bulkComplete clock st sel).1
                = completeIfSelected clock sel <$> tasks st).
  { unfold bulkComplete. simpl.
    pose proof (bulkComplete_fold clock (tasks st) [] sel Hnd) as H.
    change ([] ++ sel) with sel in H.
    rewrite <- H. f_equal. symmetry.
    rewrite <- (list_fmap_id (tasks st)) at 2.
    apply list_fmap_ext. intros j x _. unfold completeIfSelected, set_has.
    rewrite bool_decide_eq_false_2; [done|]. apply not_elem_of_nil. }
  split; [exact Hts|]. split; [done|]. rewrite Hts.
  split; [|split].
  - intros t Ht Hc. apply list_elem_of_fmap. exists t. split; [|done].
    unfold completeIfSelected. by rewrite Hc, andb_false_r.
  - intros t Ht Hs. apply list_elem_of_fmap. exists t. split; [|done].
    unfold completeIfSelected, set_has. by rewrite bool_decide_eq_false_2.
  - intros t Ht Hs Hc. apply list_elem_of_fmap. exists t. split; [|done].
    unfold completeIfSelected, set_has. by rewrite bool_decide_eq_true_2, Hc.
Qed.
End BulkFacts.

Lemma bulkComplete_effect_witness :
  let A := sampleTask "A" 1 None None medium in
  let B := sampleTask "B" 2 None (Some 3%Z) medium in
  let C := sampleTask "C" 3 None None medium in
  let st := MkState [A; B; C] (js "all") [] (js "custom") [] [] None in
  (completedAt <$> tasks (bulkComplete (fun _ => 9%Z) st [js "B"; js "A"]).1)
  = [Some 9%Z; Some 3%Z; None].
Proof.
  intros A B C st.
  assert (Hnd : NoDup (id <$> tasks st)).
  { apply (bool_decide_unpack (NoDup (id <$> tasks st))). vm_compute. exact I. }
  rewrite (proj1 (bulkComplete_effect (fun _ => 9%Z) st [js "B"; js "A"] Hnd)).
  reflexivity.
Defined.

(* ================================================================= *)
(** * Import *)

Section ImportFacts.

Lemma or_string_nonempty i dflt : i ≠ [] → or_string (Some i) dflt = i.
Proof. by destruct i. Qed.

Lemma or_string_empty_default x : or_string (Some x) [] = x.
Proof. by destruct x. Qed.

Lemma createTask_id nowC nowU nowO fresh d i :
  data_id d = Some i → i ≠ [] → id (createTask nowC nowU nowO fresh d) = i.
Proof. intros Hd Hi. simpl. rewrite Hd. by apply or_string_nonempty. Qed.

Lemma createTask_asData nowC nowU nowO fresh t :
  id t ≠ [] → createTask nowC nowU nowO fresh (asData t) = set_updatedAt nowU t.
Proof.
  destruct t as [i ti de cr up du co pr ta su or st re me].
  intros Hid. unfold createTask, asData, set_updatedAt.
  cbn -[or_string]. cbn -[or_string] in Hid.
  by rewrite or_string_nonempty, !or_string_empty_default.
Qed.

(** X14: [createTask] gives back a stored task whose identifier is not
    empty as it is, but for [updatedAt], which becomes the instant of the
    one read of the clock that takes place; no identifier is generated. *)
Theorem createTask_of_stored_task nowC nowU nowO fresh t :
  id t ≠ [] → createTask nowC nowU nowO fresh (asData t) = set_updatedAt nowU t.
Proof.
  intros Hid. destruct t as [i ti de cr up du co pr ta su or st re me].
  simpl in Hid. destruct i; [done|]. by destruct ti, de.
Qed.

Lemma importTasks_tasks items st :
  tasks (importTasks items st)
  = tasks st
    ++ ((fun it => createTask (imp_nowC it) (imp_nowU it) (imp_nowO it)
                     (imp_fresh it) (imp_data it))
          <$> List.filter
                (fun it => match data_id (imp_data it) with
                           | Some i => negb (bool_decide (i ∈ id <$> tasks st))
                           | None => true
                           end) items).
Proof. reflexivity. Qed.

Lemma importTasks_unfold items st :
  importTasks items st
  = set_tasks
      (tasks st
       ++ ((fun it => createTask (imp_nowC it) (imp_nowU it) (imp_nowO it)
                        (imp_fresh it) (imp_data it))
             <$> List.filter
                   (fun it => match data_id (imp_data it) with
                              | Some i => negb (bool_decide (i ∈ id <$> tasks st))
                              | None => true
                              end) items)) st.
Proof. reflexivity. Qed.

(** X15: importing, into an empty collection, the objects of exported
    tasks whose identifiers are not empty gives the exported tasks back,
    in their order, each with [updatedAt] set to the instant at which it
    is imported. *)
Theorem import_of_export (clockC clock clockO : Task → Z)
    (gen : Task → jsstring) (ts : list Task) st :
  tasks st = [] →
  Forall (fun t => id t ≠ []) ts →
  tasks (importTasks
           ((fun t => MkImported (clockC t) (clock t) (clockO t) (gen t)
                        (asData t)) <$> ts) st)
  = (fun t => set_updatedAt (clock t) t) <$> ts.
Proof.
  intros Hempty Hids. rewrite importTasks_tasks, Hempty. simpl.
  rewrite filter_all_true.
  - rewrite <- list_fmap_compose. apply list_fmap_ext.
    intros j t Hj. simpl. apply createTask_asData.
    rewrite Forall_forall in Hids. apply Hids. by eapply list_elem_of_lookup_2.
  - by intros it (t & -> & _)%list_elem_of_fmap.
Qed.

Lemma filter_sublist {A} (f : A → bool) (l : list A) :
  List.filter f l `sublist_of` l.
Proof.
  induction l as [|x l IH]; simpl; [done|]. destruct (f x); by constructor.
Qed.

(** X16: the import keeps the stored tasks as they are, in front of the
    tasks it adds, of which there are no more than imported objects; when
    the identifiers of the stored tasks are unique and the imported
    objects carry identifiers that are not empty and differ from one
    another, the identifiers are unique after the import. *)
Theorem importTasks_keeps_stored items st :
  let st' := importTasks items st in
  take (length (tasks st)) (tasks st') = tasks st
  ∧ (∀ t, t ∈ tasks st → t ∈ tasks st')
  ∧ length (tasks st) ≤ length (tasks st') ≤ length (tasks st) + length items
  ∧ (NoDup (id <$> tasks st) →
     Forall (fun it => hasId (imp_data it)) items →
     NoDup ((fun it => data_id (imp_data it)) <$> items) →
     NoDup (id <$> tasks st')).
Proof.
  intros st'. unfold st'. rewrite importTasks_tasks.
  set (keep := fun it : Imported =>
                 match data_id (imp_data it) with
                 | Some i => negb (bool_decide (i ∈ id <$> tasks st))
                 | None => true
                 end).
  set (mk := fun it => createTask (imp_nowC it) (imp_nowU it) (imp_nowO it)
                         (imp_fresh it) (imp_data it)).
  split; [by rewrite take_app_length|]. split; [|split].
  - intros t Ht. apply elem_of_app. by left.
  - rewrite length_app, length_fmap.
    pose proof (filter_length_le keep items). lia.
  - intros Hnd Hids Hitems. rewrite fmap_app. apply NoDup_app.
    assert (Hid : ∀ it, it ∈ List.filter keep items →
                        data_id (imp_data it) = Some (id (mk it))
                        ∧ id (mk it) ∉ id <$> tasks st).
    { intros it [Hit Hkeep]%list_elem_of_In%filter_In.
      apply list_elem_of_In in Hit. rewrite Forall_forall in Hids.
      destruct (Hids it Hit) as (i & Hi & Hne). unfold mk.
      rewrite (createTask_id _ _ _ _ (imp_data it) i) by done. split; [done|].
      unfold keep in Hkeep. rewrite Hi in Hkeep.
      by apply negb_true_iff, bool_decide_eq_false in Hkeep. }
    split; [done|]. split.
    + intros x Hx (t & -> & (it & -> & Hit)%list_elem_of_fmap)%list_elem_of_fmap.
      by apply (Hid it Hit).
    + apply (NoDup_fmap_1 Some). rewrite <- !list_fmap_compose.
      rewrite (list_fmap_ext _ (fun it => data_id (imp_data it))
                 (List.filter keep items)).
      * eapply sublist_NoDup; [exact Hitems|].
        apply fmap_sublist, filter_sublist.
      * intros j it Hj. simpl. symmetry.
        apply Hid. by eapply list_elem_of_lookup_2.
Qed.

(** X17: importing the same objects a second time adds nothing, when each
    of them carries an identifier that is not empty, whatever the clock
    shows and whatever identifiers would be generated. *)
Theorem importTasks_twice items items' st :
  Forall (fun it => hasId (imp_data it)) items →
  imp_data <$> items' = imp_data <$> items →
  importTasks items' (importTasks items st) = importTasks items st.
Proof.
  intros Hids Hsame.
  set (st1 := importTasks items st).
  assert (Hnone : List.filter
            (fun it => match data_id (imp_data it) with
                       | Some i => negb (bool_decide (i ∈ id <$> tasks st1))
                       | None => true
                       end) items' = []).
  { apply filter_all_false. intros it' Hit'.
    assert (Hd : imp_data it' ∈ imp_data <$> items).
    { rewrite <- Hsame. by apply list_elem_of_fmap_2. }
    apply list_elem_of_fmap in Hd as (it & Hd & Hit). rewrite Hd.
    rewrite Forall_forall in Hids. destruct (Hids it Hit) as (i & Hi & Hne).
    rewrite Hi. apply negb_false_iff, bool_decide_eq_true.
    unfold st1. rewrite importTasks_tasks, fmap_app, elem_of_app.
    destruct (decide (i ∈ id <$> tasks st)) as [Hin|Hout]; [by left|].
    right. apply list_elem_of_fmap.
    exists (createTask (imp_nowC it) (imp_nowU it) (imp_nowO it)
              (imp_fresh it) (imp_data it)).
    split; [by rewrite (createTask_id _ _ _ _ (imp_data it) i)|].
    apply list_elem_of_fmap. exists it. split; [done|].
    apply list_elem_of_In, filter_In. split; [by apply list_elem_of_In|].
    rewrite Hi. by apply negb_true_iff, bool_decide_eq_false. }
  rewrite (importTasks_unfold items' st1), Hnone, fmap_nil, app_nil_r.
  apply set_tasks_same.
Qed.
End ImportFacts.

Lemma createTask_of_stored_task_witness :
  createTask 8 9 10 (js "t_9") (asData (sampleTask "A" 1 None None low))
  = set_updatedAt 9 (sampleTask "A" 1 None None low).
Proof. apply createTask_of_stored_task. discriminate. Defined.

Lemma import_of_export_witness :
  let A := sampleTask "A" 1 None None low in
  let B := sampleTask "B" 0 (Some 5%Z) None high in
  let st := MkState [] (js "all") [] (js "custom") [] [] None in
  tasks (importTasks
           ((fun t => MkImported (8 + order t) (9 + order t) (10 + order t)
                        (js "t_9") (asData t)) <$> [A; B]) st)
  = (fun t => set_updatedAt (9 + order t) t) <$> [A; B].
Proof.
  intros A B st.
  apply (import_of_export (fun t => 8 + order t)%Z (fun t => 9 + order t)%Z
           (fun t => 10 + order t)%Z); [reflexivity|].
  repeat constructor; discriminate.
Defined.

Lemma importTasks_keeps_stored_witness :
  let A := sampleTask "A" 1 None None low in
  let B := sampleTask "B" 0 (Some 5%Z) None high in
  let st := MkState [A] (js "all") [] (js "custom") [] [] None in
  NoDup (id <$> tasks (importTasks
                         [MkImported 9 9 9 (js "t_9") (asData A);
                          MkImported 10 10 11 (js "t_10") (asData B)] st)).
Proof.
  intros A B st.
  apply (proj2 (proj2 (proj2 (importTasks_keeps_stored
           [MkImported 9 9 9 (js "t_9") (asData A);
            MkImported 10 10 11 (js "t_10") (asData B)] st)))).
  - apply (bool_decide_unpack (NoDup (id <$> tasks st))). vm_compute. exact I.
  - repeat constructor; eexists; (split; [reflexivity|discriminate]).
  - apply (bool_decide_unpack (NoDup _)). vm_compute. exact I.
Defined.

Lemma importTasks_twice_witness :
  let A := sampleTask "A" 1 None None low in
  let st := MkState [] (js "all") [] (js "custom") [] [] None in
  importTasks [MkImported 11 12 12 (js "t_11") (asData A)]
    (importTasks [MkImported 9 9 10 (js "t_9") (asData A)] st)
  = importTasks [MkImported 9 9 10 (js "t_9") (asData A)] st.
Proof.
  intros A st. apply importTasks_twice; [|reflexivity].
  repeat constructor. eexists. split; [reflexivity|discriminate].
Defined.

(* ================================================================= *)
(** * The tag navigation *)

Section TagNavFacts.

Lemma compareStrings_flip a b : compareStrings b a = (- compareStrings a b)%Z.
Proof.
  revert b. induction a as [|x a IH]; intros [|y b]; simpl; try done.
  destruct (N.ltb_spec x y), (N.ltb_spec y x); try done; lia.
Qed.

Lemma compareStrings_eq a b : compareStrings a b = 0%Z → a = b.
Proof.
  revert b. induction a as [|x a IH]; intros [|y b]; simpl; try done.
  destruct (N.ltb_spec x y), (N.ltb_spec y x); try done.
  intros Heq. f_equal; [lia|by apply IH].
Qed.

Lemma compareStrings_range a b : (-1 ≤ compareStrings a b ≤ 1)%Z.
Proof.
  revert b. induction a as [|x a IH]; intros [|y b]; simpl; try lia.
  destruct (x <? y)%N, (y <? x)%N; try lia. apply IH.
Qed.

Lemma compareStrings_trans a b c :
  (compareStrings a b ≤ 0)%Z → (compareStrings b c ≤ 0)%Z →
  (compareStrings a c ≤ 0)%Z.
Proof.
  revert b c. induction a as [|x a IH]; intros [|y b] [|z c]; simpl; try lia.
  destruct (N.ltb_spec x y), (N.ltb_spec y x), (N.ltb_spec y z),
    (N.ltb_spec z y), (N.ltb_spec x z), (N.ltb_spec z x);
    try lia; try done.
  apply IH.
Qed.

Lemma dedupe_spec seen xs :
  NoDup (dedupe seen xs)
  ∧ ∀ x, x ∈ dedupe seen xs ↔ x ∈ xs ∧ x ∉ seen.
Proof.
  revert seen. induction xs as [|y xs IH]; intros seen; simpl.
  - split; [constructor|]. intros x. split; [by intros ?%elem_of_nil|].
    by intros [?%elem_of_nil _].
  - case_bool_decide as Hy.
    + destruct (IH seen) as [Hnd Hmem]. split; [done|].
      intros x. rewrite Hmem, elem_of_cons. split; [tauto|].
      intros [[->|Hx] Hs]; [done|tauto].
    + destruct (IH (y :: seen)) as [Hnd Hmem]. split.
      * constructor; [|done]. rewrite Hmem, elem_of_cons. tauto.
      * intros x. rewrite !elem_of_cons, Hmem, elem_of_cons.
        destruct (decide (x = y)) as [->|Hxy]; tauto.
Qed.

(** X18: the tag navigation lists the tags the tasks carry and no other,
    each once, in ascending order of their code units. *)
Theorem allTags_sorted_unique st :
  NoDup (allTags st)
  ∧ (∀ tag, tag ∈ allTags st ↔ ∃ t, t ∈ tasks st ∧ tag ∈ tags t)
  ∧ (∀ i j a b, i < j → allTags st !! i = Some a → allTags st !! j = Some b →
       (compareStrings a b < 0)%Z).
Proof.
  unfold allTags.
  destruct (dedupe_spec [] (concat (tags <$> tasks st))) as [Hnd Hmem].
  assert (Hnd' : NoDup (sort compareStrings
                          (dedupe [] (concat (tags <$> tasks st))))).
  { by rewrite sort_perm. }
  split; [exact Hnd'|]. split.
  - intros tag. rewrite sort_perm, Hmem, list_elem_of_In, in_concat.
    split.
    + intros [(l & Hl & Htag) _].
      apply list_elem_of_In, list_elem_of_fmap in Hl as (t & -> & Ht).
      exists t. split; [done|]. by apply list_elem_of_In.
    + intros (t & Ht & Htag). split; [|apply not_elem_of_nil].
      exists (tags t). split; [|by apply list_elem_of_In].
      apply list_elem_of_In, list_elem_of_fmap. by exists t.
  - intros i j a b Hij Hi Hj.
    assert (Hle : (compareStrings a b ≤ 0)%Z).
    { eapply (StronglySorted_lookup_lt
                (fun a b => (compareStrings a b ≤ 0)%Z) _ i j); [|done..].
      apply sort_sorted.
      - done.
      - intros x y Hxy. rewrite compareStrings_flip. lia.
      - apply compareStrings_trans. }
    assert (Hne : compareStrings a b ≠ 0%Z); [|lia].
    intros ->%compareStrings_eq.
    assert (i = j); [|lia]. by eapply NoDup_lookup.
Qed.
End TagNavFacts.

(* ================================================================= *)
(** * Escaping *)

Section EscapeFacts.
Local Open Scope N_scope.

Lemma scan_lit_char c repl s prev :
  unhit repl (scan (lit [c]) 0 prev s)
  = flat_map (fun x => if c =? x then repl else [x]) s.
Proof.
  revert prev. induction s as [|x s IH]; intros prev; [done|].
  cbn [scan flat_map]. unfold exec_at. simpl rmatch.
  destruct (c =? x); cbn [unhit m_end]; by rewrite IH.
Qed.

Lemma replaceAll_char c repl s :
  replaceAll (lit [c]) repl s
  = flat_map (fun x => if c =? x then repl else [x]) s.
Proof. rewrite replaceAll_unhit. apply scan_lit_char. Qed.

Lemma flat_map_flat_map {A B C} (f : A → list B) (g : B → list C) (l : list A) :
  flat_map g (flat_map f l) = flat_map (fun x => flat_map g (f x)) l.
Proof.
  induction l as [|x l IH]; [done|]. simpl. by rewrite flat_map_app, IH.
Qed.

Lemma escHtml_flat_map s : escHtml s = flat_map escChar s.
Proof.
  unfold escHtml.
  change (js "&") with [38]. change (js "<") with [60].
  change (js ">") with [62]. change (js "'") with [39].
  rewrite !replaceAll_char, !flat_map_flat_map.
  apply flat_map_ext. intros c. unfold escChar.
  destruct (N.eqb_spec c 38) as [->|H1]; [reflexivity|].
  destruct (N.eqb_spec c 60) as [->|H2]; [reflexivity|].
  destruct (N.eqb_spec c 62) as [->|H3]; [reflexivity|].
  destruct (N.eqb_spec c 34) as [->|H4]; [reflexivity|].
  destruct (N.eqb_spec c 39) as [->|H5]; [reflexivity|].
  assert (E1 : (38 =? c) = false) by (apply N.eqb_neq; congruence).
  assert (E2 : (60 =? c) = false) by (apply N.eqb_neq; congruence).
  assert (E3 : (62 =? c) = false) by (apply N.eqb_neq; congruence).
  assert (E4 : (34 =? c) = false) by (apply N.eqb_neq; congruence).
  assert (E5 : (39 =? c) = false) by (apply N.eqb_neq; congruence).
  rewrite E1. cbn [flat_map app]. rewrite E2. cbn [flat_map app].
  rewrite E3. cbn [flat_map app]. rewrite E4. cbn [flat_map app].
  by rewrite E5.
Qed.

Lemma escChar_cases c :
  (c = 38 ∧ escChar c = js "&amp;") ∨ (c = 60 ∧ escChar c = js "&lt;")
  ∨ (c = 62 ∧ escChar c = js "&gt;") ∨ (c = 34 ∧ escChar c = js "&quot;")
  ∨ (c = 39 ∧ escChar c = js "&#039;")
  ∨ (c ≠ 38 ∧ c ≠ 60 ∧ c ≠ 62 ∧ c ≠ 34 ∧ c ≠ 39 ∧ escChar c = [c]).
Proof.
  unfold escChar.
  destruct (N.eqb_spec c 38) as [->|H1]; [by left|].
  destruct (N.eqb_spec c 60) as [->|H2]; [by right; left|].
  destruct (N.eqb_spec c 62) as [->|H3]; [by right; right; left|].
  destruct (N.eqb_spec c 34) as [->|H4]; [by right; right; right; left|].
  destruct (N.eqb_spec c 39) as [->|H5]; [by right; right; right; right; left|].
  by repeat right.
Qed.

Lemma escChar_inj x y ra rb :
  escChar x ++ ra = escChar y ++ rb → x = y ∧ ra = rb.
Proof.
  destruct (escChar_cases x)
    as [[-> ->]|[[-> ->]|[[-> ->]|[[-> ->]|[[-> ->]|(?&?&?&?&?& ->)]]]]];
  destruct (escChar_cases y)
    as [[-> ->]|[[-> ->]|[[-> ->]|[[-> ->]|[[-> ->]|(?&?&?&?&?& ->)]]]]];
  cbn; intros Heq; try (injection Heq; intros; subst; done);
  try discriminate.
Qed.

(** X19: [escHtml] replaces each code unit on its own: the five special
    characters by their entities, every other code unit by itself; so the
    escaped text of a concatenation is the concatenation of the escaped
    texts, and a text without a special character is left as it is. *)
Theorem escHtml_per_code_unit s1 s2 :
  escHtml s1 = flat_map escChar s1
  ∧ escHtml (s1 ++ s2) = escHtml s1 ++ escHtml s2
  ∧ (Forall (fun c => c ∉ [38; 60; 62; 34; 39]) s1 → escHtml s1 = s1).
Proof.
  split; [apply escHtml_flat_map|]. split.
  - by rewrite !escHtml_flat_map, flat_map_app.
  - rewrite escHtml_flat_map. induction 1 as [|c s Hc _ IH]; [done|].
    simpl. rewrite IH.
    destruct (escChar_cases c)
      as [[-> _]|[[-> _]|[[-> _]|[[-> _]|[[-> _]|(_&_&_&_&_& ->)]]]]];
      try done; exfalso; apply Hc; rewrite !elem_of_cons; tauto.
Qed.

(** X20: the text [escHtml] returns holds none of [<], [>], the double
    quote and the single quote, and every [&] in it starts one of the five
    entities. *)
Theorem escHtml_output_safe s :
  Forall (fun c => c ∉ [60; 62; 34; 39]) (escHtml s)
  ∧ (∀ pre post, escHtml s = pre ++ 38 :: post →
       ∃ ent, ent ∈ [js "amp;"; js "lt;"; js "gt;"; js "quot;"; js "#039;"]
              ∧ ∃ post', post = ent ++ post').
Proof.
  rewrite escHtml_flat_map. split.
  - induction s as [|c s IH]; [constructor|]. simpl. apply Forall_app.
    split; [|exact IH].
    destruct (escChar_cases c)
      as [[-> ->]|[[-> ->]|[[-> ->]|[[-> ->]|[[-> ->]|(?&?&?&?&?& ->)]]]]];
      repeat constructor; rewrite !elem_of_cons, elem_of_nil; intros Hin;
      repeat (destruct Hin as [Hin|Hin]; [done || discriminate|]); done.
  - induction s as [|c s IH]; intros pre post Heq.
    + by destruct pre.
    + simpl in Heq.
      assert (Hrest : ∀ w pre0, pre = w ++ pre0 →
                flat_map escChar s = pre0 ++ 38 :: post →
                ∃ ent, ent ∈ [js "amp;"; js "lt;"; js "gt;"; js "quot;";
                              js "#039;"]
                       ∧ ∃ post', post = ent ++ post').
      { intros w pre0 _ H. by eapply IH. }
      destruct (escChar_cases c)
        as [[-> Hc]|[[-> Hc]|[[-> Hc]|[[-> Hc]|[[-> Hc]|(H1&_&_&_&_& Hc)]]]]];
        rewrite Hc in Heq; clear Hc.
      * destruct pre as [|p0 [|p1 [|p2 [|p3 [|p4 pre]]]]];
          cbn in Heq; injection Heq; intros; subst; try discriminate.
        -- exists (js "amp;"). split; [by left|]. by eexists.
        -- by eapply (IH pre).
      * destruct pre as [|p0 [|p1 [|p2 [|p3 pre]]]];
          cbn in Heq; injection Heq; intros; subst; try discriminate.
        -- exists (js "lt;"). split; [right; by left|]. by eexists.
        -- by eapply (IH pre).
      * destruct pre as [|p0 [|p1 [|p2 [|p3 pre]]]];
          cbn in Heq; injection Heq; intros; subst; try discriminate.
        -- exists (js "gt;"). split; [do 2 right; by left|]. by eexists.
        -- by eapply (IH pre).
      * destruct pre as [|p0 [|p1 [|p2 [|p3 [|p4 [|p5 pre]]]]]];
          cbn in Heq; injection Heq; intros; subst; try discriminate.
        -- exists (js "quot;"). split; [do 3 right; by left|]. by eexists.
        -- by eapply (IH pre).
      * destruct pre as [|p0 [|p1 [|p2 [|p3 [|p4 [|p5 pre]]]]]];
          cbn in Heq; injection Heq; intros; subst; try discriminate.
        -- exists (js "#039;"). split; [do 4 right; by left|]. by eexists.
        -- by eapply (IH pre).
      * destruct pre as [|p0 pre]; cbn in Heq; injection Heq; intros; subst.
        -- done.
        -- by eapply (IH pre).
Qed.

(** X21: [escHtml] loses nothing: two texts with the same escaped text are
    the same text. *)
Theorem escHtml_injective s1 s2 : escHtml s1 = escHtml s2 → s1 = s2.
Proof.
  rewrite !escHtml_flat_map. revert s2.
  induction s1 as [|x s1 IH]; intros [|y s2]; simpl; intros Heq.
  - done.
  - destruct (escChar_cases y)
      as [[_ Hc]|[[_ Hc]|[[_ Hc]|[[_ Hc]|[[_ Hc]|(_&_&_&_&_& Hc)]]]]];
      rewrite Hc in Heq; discriminate.
  - destruct (escChar_cases x)
      as [[_ Hc]|[[_ Hc]|[[_ Hc]|[[_ Hc]|[[_ Hc]|(_&_&_&_&_& Hc)]]]]];
      rewrite Hc in Heq; discriminate.
  - apply escChar_inj in Heq as [-> Heq]. f_equal. by apply IH.
Qed.

Lemma flat_map_inj (f : char → jsstring) :
  (∀ x y ra rb, f x ++ ra = f y ++ rb → x = y ∧ ra = rb) →
  (∀ x, f x ≠ []) →
  ∀ a b, flat_map f a = flat_map f b → a = b.
Proof.
  intros Hinj Hne a. induction a as [|x a IH]; intros [|y b]; cbn [flat_map].
  - done.
  - intros H. symmetry in H. apply app_eq_nil in H as [H _]. by apply Hne in H.
  - intros H. apply app_eq_nil in H as [H _]. by apply Hne in H.
  - intros [-> H]%Hinj. f_equal. by apply IH.
Qed.

(** X22: a cell of the CSV export is the text between two double quotes
    with every double quote of the text doubled, and two texts with the
    same cell are the same text. *)
Theorem csvCell_quotes v1 v2 :
  csvCell v1
  = [34] ++ flat_map (fun c => if 34 =? c then [34; 34] else [c]) v1 ++ [34]
  ∧ (Forall (fun c => c ≠ 34) v1 → csvCell v1 = [34] ++ v1 ++ [34])
  ∧ (csvCell v1 = csvCell v2 → v1 = v2).
Proof.
  unfold csvCell. rewrite !replaceAll_char. split; [done|]. split.
  - intros Hall.
    assert (Hsame : flat_map (fun c => if 34 =? c then [34; 34] else [c]) v1
                    = v1); [|cbn [app]; f_equal; f_equal; exact Hsame].
    induction Hall as [|c v Hc _ IH]; [done|].
    cbn [flat_map]. rewrite IH.
    apply N.eqb_neq in Hc. by rewrite N.eqb_sym, Hc.
  - intros Heq. apply app_inv_head, app_inv_tail in Heq.
    revert Heq. apply flat_map_inj.
    + intros x y ra rb.
      destruct (N.eqb_spec 34 x) as [<-|Hx], (N.eqb_spec 34 y) as [<-|Hy];
        cbn [app]; intros Heq.
      * by injection Heq as ->.
      * injection Heq as <- _. done.
      * injection Heq as -> _. done.
      * by injection Heq as -> ->.
    + intros x. by destruct (34 =? x).
Qed.
End EscapeFacts.

Lemma escHtml_per_code_unit_witness : escHtml (js "a-b c") = js "a-b c".
Proof.
  apply (proj2 (proj2 (escHtml_per_code_unit (js "a-b c") []))).
  repeat constructor; rewrite !elem_of_cons, elem_of_nil; intros Hin;
    repeat (destruct Hin as [Hin|Hin]; [discriminate|]); done.
Defined.

Lemma escHtml_output_safe_witness :
  ∃ ent, ent ∈ [js "amp;"; js "lt;"; js "gt;"; js "quot;"; js "#039;"]
         ∧ ∃ post', js "lt;b&gt;" = ent ++ post'.
Proof.
  apply (proj2 (escHtml_output_safe (js "<b>")) [] (js "lt;b&gt;")).
  reflexivity.
Defined.

Lemma escHtml_injective_witness : js "<b>" = js "<b>".
Proof. apply escHtml_injective. reflexivity. Defined.

Lemma csvCell_quotes_witness :
  csvCell (js "milk; eggs") = [34%N] ++ js "milk; eggs" ++ [34%N].
Proof.
  apply (proj1 (proj2 (csvCell_quotes (js "milk; eggs") []))).
  repeat constructor; discriminate.
Defined.

(* ================================================================= *)
(** * The colour of a tag *)

Section TagColorFacts.
Local Open Scope Z_scope.

Lemma toInt32_small x : - 2 ^ 31 ≤ x < 2 ^ 31 → toInt32 x = x.
Proof.
  intros Hx. unfold toInt32. rewrite Z.mod_small; lia.
Qed.

Lemma bitAnd_mask a : bitAnd a 16777215 = toInt32 a mod 2 ^ 24.
Proof.
  unfold bitAnd. rewrite (toInt32_small 16777215) by lia.
  change 16777215 with (Z.ones 24). apply Z.land_ones. lia.
Qed.

Lemma tagHash_step_range h c : 0 ≤ bitAnd (h * 31 + Z.of_N c) 16777215 < 2 ^ 24.
Proof. rewrite bitAnd_mask. apply Z.mod_pos_bound. lia. Qed.

Lemma foldl_hash_range (l : list char) h :
  0 ≤ h < 2 ^ 24 →
  0 ≤ foldl (fun h c => bitAnd (h * 31 + Z.of_N c) 16777215) h l < 2 ^ 24.
Proof.
  revert h. induction l as [|c l IH]; intros h Hh; [done|].
  cbn [foldl]. apply IH, tagHash_step_range.
Qed.

Lemma foldl_hash_exact (l : list char) h :
  0 ≤ h < 2 ^ 24 → Forall (fun c => (c < 65536)%N) l →
  foldl (fun h c => bitAnd (h * 31 + Z.of_N c) 16777215) h l
  = foldl (fun h c => (h * 31 + Z.of_N c) mod 2 ^ 24) h l.
Proof.
  intros Hh Hl. revert h Hh. induction Hl as [|c l Hc _ IH]; intros h Hh; [done|].
  cbn [foldl]. rewrite bitAnd_mask, toInt32_small by lia.
  apply IH. apply Z.mod_pos_bound. lia.
Qed.

Lemma codePointHeads_pair c d s :
  codePointHeads (c :: d :: s)
  = if in_range 55296%N 56319%N c && in_range 56320%N 57343%N d
    then c :: codePointHeads s
    else c :: codePointHeads (d :: s).
Proof. reflexivity. Qed.

Lemma codePointHeads_Forall (P : char → Prop) n s :
  (length s ≤ n)%nat → Forall P s → Forall P (codePointHeads s).
Proof.
  revert s. induction n as [|n IH]; intros s Hn Hs.
  - destruct s; [constructor|simpl in Hn; lia].
  - destruct s as [|c [|d s]]; [constructor|exact Hs|].
    apply Forall_cons in Hs as [Hc Hs]. simpl in Hn.
    rewrite codePointHeads_pair.
    destruct (_ && _); constructor; try done; apply IH; try done.
    + lia.
    + by apply Forall_cons in Hs as [_ ?].
    + simpl. lia.
Qed.

Lemma hueTextOk_all n : 0 ≤ n < 360 → hueTextOk n = true.
Proof.
  intros Hn.
  assert (Hall : forallb (fun k => hueTextOk (Z.of_nat k)) (seq 0 360) = true)
    by (vm_compute; reflexivity).
  rewrite forallb_forall in Hall.
  specialize (Hall (Z.to_nat n)). rewrite Z2Nat.id in Hall by lia.
  apply Hall, in_seq. lia.
Qed.

(** X23: the hash of [tagColor] stays below 2^24 and its hue is a number
    from 0 to 359, printed as one to three decimal digits that
    [parseInt] reads back as the hue; for a tag made of code units, the
    operator [&] never sees a number outside the 32-bit integers, so the
    hash is the polynomial hash of the first code unit of every code
    point, modulo 2^24. *)
Theorem tagColor_hue_range tag :
  0 ≤ tagHash tag < 2 ^ 24
  ∧ 0 ≤ tagHue tag < 360
  ∧ tagHue tag = tagHash tag mod 360
  ∧ tagColor tag = js "hsl(" ++ numberToString (tagHue tag) ++ js ",60%,55%)"
  ∧ parseInt (numberToString (tagHue tag)) = tagHue tag
  ∧ Forall (fun c => isDigit c = true) (numberToString (tagHue tag))
  ∧ (1 ≤ length (numberToString (tagHue tag)) ≤ 3)%nat
  ∧ (Forall (fun c => (c < 65536)%N) tag →
     tagHash tag
     = foldl (fun h c => (h * 31 + Z.of_N c) mod 2 ^ 24) 0 (codePointHeads tag)).
Proof.
  assert (Hh : 0 ≤ tagHash tag < 2 ^ 24) by (by apply foldl_hash_range).
  assert (Hrem : tagHue tag = tagHash tag mod 360).
  { unfold tagHue. apply Z.rem_mod_nonneg; lia. }
  assert (Hhue : 0 ≤ tagHue tag < 360).
  { rewrite Hrem. apply Z.mod_pos_bound. lia. }
  pose proof (hueTextOk_all _ Hhue) as Hok. unfold hueTextOk in Hok.
  apply andb_true_iff in Hok as [Hok H4]. apply andb_true_iff in Hok as [Hok H3].
  apply andb_true_iff in Hok as [H1 H2].
  split; [exact Hh|]. split; [exact Hhue|]. split; [exact Hrem|].
  split; [done|]. split; [by apply Z.eqb_eq|]. split; [|split].
  - rewrite forallb_forall in H2. apply Forall_forall. intros c Hc.
    by apply H2, list_elem_of_In.
  - apply Nat.leb_le in H3. apply Nat.leb_le in H4. lia.
  - intros Htag. apply foldl_hash_exact; [lia|].
    by apply (codePointHeads_Forall _ (length tag)).
Qed.
End TagColorFacts.

Lemma tagColor_hue_range_witness :
  tagHash (js "work")
  = foldl (fun h c => (h * 31 + Z.of_N c) mod 2 ^ 24)%Z 0%Z
      (codePointHeads (js "work")).
Proof.
  apply (proj2 (proj2 (proj2 (proj2 (proj2 (proj2 (proj2
           (tagColor_hue_range (js "work"))))))))).
  repeat constructor.
Defined.

(* ================================================================= *)
(** * Tags and due date of the parser *)

Section ParserMore.
Variable tz : Z.

Lemma hits_Forall r (P : jsstring * captures → Prop) s skip prev :
  (∀ prev s st, exec_at r prev s = Some st → P (take (m_end st) s, m_caps st)) →
  Forall P (hits (scan r skip prev s)).
Proof.
  intros HP. revert skip prev. induction s as [|c s IH]; intros skip prev.
  - destruct skip; simpl; [|constructor].
    destruct (exec_at r prev []) as [st|] eqn:Hex; simpl; [|constructor].
    constructor; [by apply (HP prev [] st)|constructor].
  - destruct skip as [|n]; [|apply IH]. cbn [scan].
    destruct (exec_at r prev (c :: s)) as [st|] eqn:Hex.
    + cbn [hits]. constructor; [by apply (HP prev (c :: s) st)|].
      destruct (m_end st); [cbn [hits]|]; apply IH.
    + cbn [hits]. apply IH.
Qed.

Lemma exec_tag_shape prev s st :
  exec_at NLP.re_tag prev s = Some st →
  ∃ g, take (m_end st) s = 35%N :: g ∧ m_caps st = [(1, g)]
       ∧ Forall (fun c => isWordChar c = true) g ∧ g ≠ [].
Proof.
  intros Hex. apply exec_at_sound in Hex as (Hm & _ & _).
  destruct Hm as (mid & (c & s' & Hs & Hc & ->) & (st1 & Hrep & ->)).
  destruct Hrep as (run & s'' & Hs' & Hall & Hlen & _ & ->).
  simpl in *. subst s s'.
  destruct c as [|q]; [done|]. apply Pos.eqb_eq in Hc as <-.
  exists run. rewrite Nat.sub_0_r. cbn [take]. rewrite !take_app_length.
  split; [done|]. split; [done|]. split; [done|].
  intros ->. simpl in Hlen. lia.
Qed.

Lemma tag_hits_shape s skip prev :
  Forall (fun h => ∃ g, h.1 = 35%N :: g ∧ h.2 = [(1, g)]
                        ∧ Forall (fun c => isWordChar c = true) g ∧ g ≠ [])
    (hits (scan NLP.re_tag skip prev s)).
Proof.
  apply (hits_Forall NLP.re_tag
    (fun h => ∃ g, h.1 = 35%N :: g ∧ h.2 = [(1, g)]
                   ∧ Forall (fun c => isWordChar c = true) g ∧ g ≠ [])).
  exact exec_tag_shape.
Qed.

Lemma modalTags_tagsOf s :
  modalTags s = tagsOf (hits (scan NLP.re_tag 0 None s)).
Proof.
  unfold modalTags, matchAll, tagsOf.
  pose proof (tag_hits_shape s 0 None) as Hall.
  destruct (hits (scan NLP.re_tag 0 None s)) as [|h hs]; [done|].
  rewrite <- list_fmap_compose. apply list_fmap_ext.
  intros j x Hx. rewrite Forall_forall in Hall.
  destruct (Hall x) as (g & H1 & H2 & _); [by eapply list_elem_of_lookup_2|].
  destruct x as [x1 x2]. simpl in H1, H2. subst x1 x2. reflexivity.
Qed.

Lemma timeStep_tags r t : NLP.tags (NLP.timeStep tz r t).1 = NLP.tags r.
Proof.
  unfold NLP.timeStep. by destruct (re_match NLP.re_time t), (NLP.dueAt r).
Qed.


(** X24: the tags [parseNLP] returns are the first groups of the matches
    of [/#(\w+)/g] in the text the priority step leaves, left to right;
    each is a run, not empty, of letters, digits and underscores; and they
    are the tags the task dialog reads from the same text in its tags
    field. *)
Theorem parseNLP_tags now text :
  let t3 := (NLP.priorityStep (NLP.Result text None medium []) text).2 in
  NLP.tags (NLP.parseNLP tz now text) = tagsOf (hits (scan NLP.re_tag 0 None t3))
  ∧ NLP.tags (NLP.parseNLP tz now text) = modalTags t3
  ∧ Forall (fun tag => tag ≠ [] ∧ Forall (fun c => isWordChar c = true) tag)
      (NLP.tags (NLP.parseNLP tz now text)).
Proof.
  intros t3.
  assert (Htags : NLP.tags (NLP.parseNLP tz now text)
                  = tagsOf (hits (scan NLP.re_tag 0 None t3))).
  { unfold t3. rewrite parseNLP_steps, priorityStep_spec. simpl.
    unfold afterPriority. rewrite tagStep_spec.
    match goal with
    | |- context [NLP.dateStep tz now ?r ?t] =>
        pose proof (dateStep_frame tz now r t) as (_ & _ & Hd);
        destruct (NLP.dateStep tz now r t) as [r3 t3']
    end.
    pose proof (timeStep_tags r3 t3') as Ht.
    destruct (NLP.timeStep tz r3 t3') as [r4 t4]. simpl in *.
    by rewrite Ht, Hd. }
  split; [exact Htags|]. split; [by rewrite modalTags_tagsOf|].
  rewrite Htags. unfold tagsOf. apply Forall_fmap.
  eapply Forall_impl; [apply tag_hits_shape|].
  intros [h1 h2] (g & H1 & H2 & Hall & Hne). simpl in H1, H2. by subst h1 h2.
Qed.

End ParserMore.

(* ================================================================= *)
(** * The task dialog *)

Section DialogFacts.

Lemma is_blank_false s : is_blank s = false → trim s ≠ [].
Proof. unfold is_blank. by rewrite bool_decide_eq_false. Qed.

(** X26: [saveModal] saves nothing and keeps the dialog open when the
    title is blank.  Otherwise it closes the dialog and, when no task is
    being edited, puts in front of the collection a new task that is not
    completed, with the generated identifier, the trimmed title, which is
    not empty and has no whitespace at its ends, the trimmed description,
    the due date, the priority, the star and the tags of the dialog, the
    subtasks whose title is not blank, the instants of the two reads of
    the clock as [createdAt] and [updatedAt], and, when the stored orders
    are safe integers, an order above every stored one.  Editing a task
    that is no longer stored saves nothing, and closes the dialog. *)
Theorem saveModal_effect nowC nowU fresh f m st :
  (is_blank (form_title f) = true →
   saveModal nowC nowU fresh f m st = (st, false))
  ∧ (is_blank (form_title f) = false →
     editingTaskId m = None ∨ editingTaskId m = Some [] →
     ∃ task,
       saveModal nowC nowU fresh f m st
       = (set_tasks (task :: tasks st) st, true)
       ∧ id task = fresh
       ∧ title task = trim (form_title f) ∧ title task ≠ []
       ∧ noSpaceAtEnds (title task) = true
       ∧ description task = trim (form_description f)
       ∧ dueAt task = form_due f ∧ completedAt task = None
       ∧ priority task = modalPriority m ∧ starred task = modalStarred m
       ∧ tags task = modalTags (form_tags f)
       ∧ subtasks task = modalSubtasksKept m
       ∧ Forall (fun s => is_blank (sub_title s) = false) (subtasks task)
       ∧ createdAt task = nowC ∧ updatedAt task = nowU
       ∧ reminderAt task = None ∧ metadata task = []
       ∧ (tasks st = [] → order task = 0%Z)
       ∧ (Forall safeOrder (tasks st) →
          ∀ t, t ∈ tasks st → (order t < order task)%Z))
  ∧ (is_blank (form_title f) = false →
     ∀ i, editingTaskId m = Some i → i ≠ [] →
          (∀ t, t ∈ tasks st → id t ≠ i) →
          saveModal nowC nowU fresh f m st = (st, true)).
Proof.
  split; [|split].
  - intros Hb. unfold saveModal. by rewrite Hb.
  - intros Hb Hedit.
    exists (addTask nowC nowU fresh (modalData f m) st).1.
    split.
    { unfold saveModal. rewrite Hb. by destruct Hedit as [-> | ->]. }
    pose proof (is_blank_false _ Hb) as Hne.
    assert (Htitle : title (addTask nowC nowU fresh (modalData f m) st).1
                     = trim (form_title f)).
    { simpl. by destruct (trim (form_title f)). }
    rewrite Htitle.
    split; [done|]. split; [done|]. split; [done|].
    split; [apply trim_noSpaceAtEnds|].
    split; [simpl; by destruct (trim (form_description f))|].
    split; [done|]. split; [done|]. split; [done|]. split; [done|].
    split; [done|]. split; [done|]. split.
    { simpl. unfold modalSubtasksKept. apply Forall_forall.
      intros s [_ Hs]%list_elem_of_In%filter_In.
      by apply negb_true_iff in Hs. }
    split; [done|]. split; [done|]. split; [done|]. split; [done|]. split.
    + intros Hnil.
      change (order (addTask nowC nowU fresh (modalData f m) st).1)
        with (match order <$> tasks st with
              | [] => 0
              | o :: os => roundNumber (maxOf o os + 1)
              end)%Z.
      by rewrite Hnil.
    + intros Hsafe t. by apply addTask_order_above.
  - intros Hb i Hi Hne Hno. unfold saveModal. rewrite Hb, Hi.
    destruct i as [|c i]; [done|].
    unfold updateTask. by rewrite list_find_id_None.
Qed.

(** X27: saving the dialog for a stored task changes that task only; it
    takes the title, the description, the due date, the priority, the
    tags, the star and the subtasks of the dialog and the instant of the
    one read of the clock as [updatedAt], and keeps its identifier,
    creation instant, completion, order, reminder and metadata. *)
Theorem saveModal_edit_keeps nowC nowU fresh f m st i k t :
  is_blank (form_title f) = false →
  editingTaskId m = Some i → i ≠ [] →
  tasks st !! k = Some t → id t = i →
  (∀ j y, tasks st !! j = Some y → j < k → id y ≠ i) →
  let st' := (saveModal nowC nowU fresh f m st).1 in
  ∃ t', tasks st' !! k = Some t'
        ∧ id t' = id t ∧ createdAt t' = createdAt t
        ∧ completedAt t' = completedAt t ∧ order t' = order t
        ∧ reminderAt t' = reminderAt t ∧ metadata t' = metadata t
        ∧ title t' = trim (form_title f)
        ∧ description t' = trim (form_description f)
        ∧ dueAt t' = form_due f ∧ priority t' = modalPriority m
        ∧ tags t' = modalTags (form_tags f) ∧ starred t' = modalStarred m
        ∧ subtasks t' = modalSubtasksKept m
        ∧ updatedAt t' = nowU
        ∧ (∀ j, j ≠ k → tasks st' !! j = tasks st !! j)
        ∧ length (tasks st') = length (tasks st).
Proof.
  intros Hb Hi Hne Hk Hid Hfirst st'.
  assert (Hst : st' = set_tasks
                        (<[k := applyPatch nowU (modalPatch f m) t]> (tasks st))
                        st).
  { unfold st', saveModal. rewrite Hb, Hi. destruct i as [|c i]; [done|].
    simpl. unfold updateTask. rewrite <- Hid in *.
    by rewrite (list_find_first_id _ k t). }
  rewrite Hst. simpl. eexists. split.
  { apply list_lookup_insert_eq. by eapply lookup_lt_Some. }
  simpl. repeat (split; [done|]). split.
  - intros j Hj. by apply list_lookup_insert_ne.
  - apply length_insert.
Qed.
End DialogFacts.

Lemma saveModal_effect_witness :
  let A := sampleTask "A" 4 None None low in
  let st := MkState [A] (js "all") [] (js "custom") [] [] None in
  let blank := MkForm (js "  ") [] None [] in
  let f := MkForm (js " Pay rent ") (js " by bank ") (Some 77%Z)
             (js "#home, #bills") in
  let m := MkModal None high true
             [MkSubtask (js "s1") (js "call") false;
              MkSubtask (js "s2") (js " ") false] in
  let gone := MkModal (Some (js "Z")) high true [] in
  saveModal 8 9 (js "t_8") blank m st = (st, false)
  ∧ (∃ task,
       saveModal 8 9 (js "t_8") f m st = (set_tasks [task; A] st, true)
       ∧ title task = js "Pay rent" ∧ description task = js "by bank"
       ∧ tags task = [js "home"; js "bills"]
       ∧ subtasks task = [MkSubtask (js "s1") (js "call") false]
       ∧ createdAt task = 8%Z ∧ updatedAt task = 9%Z
       ∧ (order A < order task)%Z)
  ∧ saveModal 8 9 (js "t_8") f gone st = (st, true).
Proof.
  intros A st blank f m gone. split; [|split].
  - apply (proj1 (saveModal_effect 8 9 (js "t_8") blank m st)). reflexivity.
  - destruct (proj1 (proj2 (saveModal_effect 8 9 (js "t_8") f m st))
                eq_refl (or_introl eq_refl))
      as (task & Hsave & _ & Ht & _ & _ & Hd & _ & _ & _ & _ & Htags & Hsub
          & _ & Hc & Hu & _ & _ & _ & Hord).
    exists task. split; [exact Hsave|]. split; [exact Ht|].
    split; [exact Hd|]. split; [exact Htags|]. split; [exact Hsub|].
    split; [exact Hc|]. split; [exact Hu|].
    apply Hord.
    + apply Forall_cons. split; [|constructor]. unfold safeOrder. simpl. lia.
    + apply elem_of_cons. by left.
  - apply (proj2 (proj2 (saveModal_effect 8 9 (js "t_8") f gone st)) eq_refl
             (js "Z") eq_refl); [discriminate|].
    intros t ->%list_elem_of_singleton. discriminate.
Defined.

Lemma saveModal_edit_keeps_witness :
  let A := sampleTask "A" 4 None (Some 2%Z) low in
  let st := MkState [A] (js "all") [] (js "custom") [] [] None in
  let f := MkForm (js " Pay rent ") [] None (js "#home") in
  let m := MkModal (Some (js "A")) high true [] in
  ∃ t', tasks (saveModal 8 9 (js "t_9") f m st).1 !! 0 = Some t'
        ∧ title t' = js "Pay rent" ∧ completedAt t' = Some 2%Z
        ∧ order t' = 4%Z ∧ tags t' = [js "home"] ∧ updatedAt t' = 9%Z.
Proof.
  intros A st f m.
  destruct (saveModal_edit_keeps 8 9 (js "t_9") f m st (js "A") 0 A)
    as (t' & H0 & _ & _ & Hc & Ho & _ & _ & Ht & _ & _ & _ & Htags & _ & _
        & Hu & _);
    [reflexivity|reflexivity|discriminate|reflexivity|reflexivity| |].
  - intros j y _ Hj. lia.
  - exists t'. split; [exact H0|]. split; [exact Ht|].
    split; [exact Hc|]. split; [exact Ho|]. split; [exact Htags|]. exact Hu.
Defined.

(* ================================================================= *)
(** * The tag buttons *)

Section TagButton.
Variable tz : Z.
Variable toLowerCase : jsstring → jsstring.
Variable localeCompare : jsstring → jsstring → Z.

(** X28: a click on the button of a tag that is not empty and is not the
    current tag filter sets the tag filter and the view [all], and keeps
    the tasks; every task then shown carries the tag and is not completed;
    a second click on the button unsets the tag filter. *)
Theorem clickTag_shows_tag now tag st :
  tag ≠ [] → filterTag st ≠ Some tag →
  let st' := clickTag tag st in
  currentView st' = js "all" ∧ filterTag st' = Some tag
  ∧ tasks st' = tasks st
  ∧ (∀ t, t ∈ getFilteredTasks tz toLowerCase localeCompare now st' →
          t ∈ tasks st ∧ tag ∈ tags t ∧ isCompleted t = false)
  ∧ filterTag (clickTag tag st') = None.
Proof.
  intros Hne Hcur st'.
  assert (Htag : filterTag st' = Some tag).
  { unfold st', clickTag. simpl. by rewrite bool_decide_eq_false_2. }
  split; [done|]. split; [exact Htag|]. split; [done|]. split.
  - intros t [Ht Hp]%query_elem. split; [exact Ht|].
    unfold passes in Hp. rewrite Htag in Hp.
    change (currentView st') with (js "all") in Hp.
    rewrite viewFilter_all in Hp.
    apply andb_prop in Hp as [Hp _]. apply andb_prop in Hp as [Hp _].
    apply andb_prop in Hp as [Hp _]. apply andb_prop in Hp as [Hv Hf].
    split; [|by apply negb_true_iff].
    destruct tag as [|c s]; [done|]. simpl in Hf.
    by apply bool_decide_eq_true in Hf.
  - unfold clickTag at 1. cbn [filterTag]. rewrite Htag.
    by rewrite bool_decide_eq_true_2.
Qed.
End TagButton.

Lemma clickTag_shows_tag_witness :
  let A := MkTask (js "A") (js "A") [] 0 0 None None low [js "home"] [] 1
             false None [] in
  let B := sampleTask "B" 2 None None low in
  let st := MkState [A; B] (js "today") [] (js "custom") [] [] None in
  Forall (fun t => js "home" ∈ tags t)
    (getFilteredTasks 0 sampleLower sampleCompare 9 (clickTag (js "home") st)).
Proof.
  intros A B st. apply Forall_forall. intros t Ht.
  destruct (clickTag_shows_tag 0 sampleLower sampleCompare 9 (js "home") st)
    as (_ & _ & _ & H & _); [discriminate|discriminate|].
  exact (proj1 (proj2 (H t Ht))).
Defined.
